(** * box-node-sdk: event stream and app-auth session

    A shallow embedding of [EventStream] (event-stream.ts) and
    [AppAuthSession] (sessions/app-auth-session.ts).

    Asynchronous code is embedded in defunctionalised form: a method runs
    up to the point where it hands a request to the host (HTTP client,
    token manager, token store, timer) and stops; the callback attached
    with [.then] / [.catch] / [.finally] is a separate definition that is
    run when the host delivers the matching outcome.  Everything the
    methods do to the outside world is recorded as a list of actions.

    Numbers (delays, buffers, counters, clock readings in ms) are
    integers; strings are byte strings. *)

From stdpp Require Import base strings gmap list.
From Stdlib Require Import ZArith Ascii String.

Local Open Scope Z_scope.

(** JavaScript errors carry a message; [authExpired] is the marker the
    client sets on errors caused by expired credentials.  What a request
    is rejected with is such an error object. *)
Record Error := mkError { message : string; authExpired : bool }.

(** Settled state of a promise. *)
Inductive Outcome (A : Type) : Type :=
| Resolved (a : A)
| Rejected (e : Error).
Arguments Resolved {A} a.
Arguments Rejected {A} e.

(** Thrown when a property of [undefined] is read. *)
Definition typeError : Error := mkError "TypeError" false.

(** ** Methods as state transformers with a log

    A method body reads and updates the fields of its object and performs
    calls on its collaborators; [Prog S Act A] threads the object of type
    [S] and appends the calls, of type [Act], to a log. *)

Definition Prog (S Act A : Type) : Type := S → A * S * list Act.

#[export] Instance Prog_ret {S Act} : MRet (Prog S Act) :=
  λ A a s, (a, s, []).
#[export] Instance Prog_bind {S Act} : MBind (Prog S Act) :=
  λ A B k m s,
    match m s with
    | (a, s1, log1) =>
      match k a s1 with
      | (b, s2, log2) => (b, s2, log1 ++ log2)
      end
    end.

Definition gets {S Act A} (f : S → A) : Prog S Act A := λ s, (f s, s, []).
Definition modify {S Act} (f : S → S) : Prog S Act unit := λ s, (tt, f s, []).
Definition act {S Act} (a : Act) : Prog S Act unit := λ s, (tt, s, [a]).

(** Components of the outcome of running a method. *)
Definition result {S Act A} (r : A * S * list Act) : A := r.1.1.
Definition state {S Act A} (r : A * S * list Act) : S := r.1.2.
Definition actions {S Act A} (r : A * S * list Act) : list Act := r.2.

(* ================================================================== *)
(** ** EventStream *)
(* ================================================================== *)

Module EventStream.

Record Options := mkOptions {
  retryDelay : Z;
  deduplicationFilterSize : Z;
  fetchInterval : Z
}.

Record LongPollInfo := mkLongPollInfo {
  max_retries : Z;
  retry_timeout : Z;
  url : string
}.

Definition DEFAULT_OPTIONS : Options :=
  {| deduplicationFilterSize := 5000; retryDelay := 1000; fetchInterval := 1000 |}.

(** An entry of the events API; only [event_id] is inspected by the stream. *)
Record Event := mkEvent { event_id : string; event_type : string }.

(** Response of [client.events.get]; both fields may be missing.  A
    cursor that is the empty string is falsy, like a missing one. *)
Record Events := mkEvents {
  entries : option (list Event);
  next_stream_position : option string
}.

(** Body of a long-poll response: only [message] is inspected. *)
Record PollData := mkPollData { poll_message : string }.

(** [_rateLimiter]: [Promise.resolve()] or [Promise.delay(ms)]. *)
Inductive RateLimiter :=
| RL_resolved
| RL_delay (ms : Z).

(** A parsed query string: every key maps to the list of its values. *)
Abbreviation Query := (gmap string (list string)).

Record EventStream := mkEventStream {
  _streamPosition : string;
  _longPollInfo : option LongPollInfo;
  _longPollRetries : Z;
  _dedupHash : gmap string bool;
  _rateLimiter : RateLimiter;
  _options : Options;
  _retryTimer : option nat;
  destroyed : bool;
  (** what [isPaused()] of the underlying Readable answers *)
  paused : bool;
  (** next handle [setTimeout] hands out *)
  timerSupply : nat;
  (** whether a listener for ['error'] is registered on the stream *)
  listening : bool
}.

(** What the stream does to its consumer and to the host. *)
Inductive Action :=
| EmitError (err : Error)                         (* this.emit('error', err) *)
| EmitCloseNextTick                               (* process.nextTick(() => this.emit('close')) *)
| Push (e : Event)                                (* this.push(event) *)
| Pause                                           (* this.pause() *)
| Resume                                          (* this.resume() *)
| ReqLongPollInfo                                 (* client.events.getLongPollInfo() *)
| ReqGet (u : string) (qs : Query) (timeout : Z)  (* client.get(url, options) *)
| ReqEvents (stream_position : string) (limit : Z)(* client.events.get(params) *)
| AwaitRateLimiter (r : RateLimiter) (stream_position : string) (limit : Z)
                                                  (* this._rateLimiter.then(...) *)
| SetTimeout (handle : nat) (delay : Z)
| ClearTimeout (handle : option nat).

(** How a call of a method, or a callback with the [.catch] that closes
    it, ends: the promise is fulfilled with a value ([false], [true] or
    [undefined]), or it is pending on a request handed to the host, or an
    error was thrown: the call threw, or the promise of the chain is
    rejected with that error. *)
Inductive Completion :=
| Fulfilled (v : option bool)
| Awaiting
| Thrown (e : Error).

(** *** Field updates *)

Definition set_streamPosition (v : string) (s : EventStream) : EventStream :=
  mkEventStream v (_longPollInfo s) (_longPollRetries s) (_dedupHash s)
    (_rateLimiter s) (_options s) (_retryTimer s) (destroyed s) (paused s) (timerSupply s)
    (listening s).
Definition set_longPollInfo (v : option LongPollInfo) (s : EventStream) : EventStream :=
  mkEventStream (_streamPosition s) v (_longPollRetries s) (_dedupHash s)
    (_rateLimiter s) (_options s) (_retryTimer s) (destroyed s) (paused s) (timerSupply s)
    (listening s).
Definition set_longPollRetries (v : Z) (s : EventStream) : EventStream :=
  mkEventStream (_streamPosition s) (_longPollInfo s) v (_dedupHash s)
    (_rateLimiter s) (_options s) (_retryTimer s) (destroyed s) (paused s) (timerSupply s)
    (listening s).
Definition set_dedupHash (v : gmap string bool) (s : EventStream) : EventStream :=
  mkEventStream (_streamPosition s) (_longPollInfo s) (_longPollRetries s) v
    (_rateLimiter s) (_options s) (_retryTimer s) (destroyed s) (paused s) (timerSupply s)
    (listening s).
Definition set_rateLimiter (v : RateLimiter) (s : EventStream) : EventStream :=
  mkEventStream (_streamPosition s) (_longPollInfo s) (_longPollRetries s) (_dedupHash s)
    v (_options s) (_retryTimer s) (destroyed s) (paused s) (timerSupply s)
    (listening s).
Definition set_retryTimer (v : option nat) (s : EventStream) : EventStream :=
  mkEventStream (_streamPosition s) (_longPollInfo s) (_longPollRetries s) (_dedupHash s)
    (_rateLimiter s) (_options s) v (destroyed s) (paused s) (timerSupply s)
    (listening s).
Definition set_destroyed (v : bool) (s : EventStream) : EventStream :=
  mkEventStream (_streamPosition s) (_longPollInfo s) (_longPollRetries s) (_dedupHash s)
    (_rateLimiter s) (_options s) (_retryTimer s) v (paused s) (timerSupply s)
    (listening s).
Definition set_paused (v : bool) (s : EventStream) : EventStream :=
  mkEventStream (_streamPosition s) (_longPollInfo s) (_longPollRetries s) (_dedupHash s)
    (_rateLimiter s) (_options s) (_retryTimer s) (destroyed s) v (timerSupply s)
    (listening s).
Definition set_timerSupply (v : nat) (s : EventStream) : EventStream :=
  mkEventStream (_streamPosition s) (_longPollInfo s) (_longPollRetries s) (_dedupHash s)
    (_rateLimiter s) (_options s) (_retryTimer s) (destroyed s) (paused s) v
    (listening s).
Definition set_listening (v : bool) (s : EventStream) : EventStream :=
  mkEventStream (_streamPosition s) (_longPollInfo s) (_longPollRetries s) (_dedupHash s)
    (_rateLimiter s) (_options s) (_retryTimer s) (destroyed s) (paused s) (timerSupply s)
    v.

(** Stream methods run over the stream object and log [Action]s. *)
Abbreviation Feed := (Prog EventStream Action).

(** [new EventStream(client, streamPosition, options)] with the options
    already merged over [DEFAULT_OPTIONS].  A stream just constructed has
    no listeners. *)
Definition new (streamPosition : string) (options : Options) : EventStream :=
  {| _streamPosition := streamPosition;
     _longPollInfo := None;
     _longPollRetries := 0;
     _dedupHash := ∅;
     _rateLimiter := RL_resolved;
     _options := options;
     _retryTimer := None;
     destroyed := false;
     paused := false;
     timerSupply := 0%nat;
     listening := false |}.


(** *** String helpers of the host language *)

(** [s.indexOf('?')]; [None] stands for -1. *)
Definition indexOf (needle s : string) : option nat := String.index 0 needle s.
(** [s.substr(from)] *)
Definition substr_from (from : nat) (s : string) : string :=
  String.substring from (String.length s - from) s.
(** [s.substr(0, len)] *)
Definition substr_to (len : nat) (s : string) : string := String.substring 0 len s.

(** A cursor is usable when it is present and not the empty string. *)
Definition truthy_cursor (c : option string) : option string :=
  match c with
  | Some "" => None
  | Some p => Some p
  | None => None
  end.

(** *** The dedup hash, a plain object

    [_dedupHash] starts as the object literal [{}]: the map holds its own
    properties, and a name it does not hold is looked up in
    [Object.prototype]. *)

(** The property names of [Object.prototype]. *)
Definition objectPrototypeNames : list string :=
  ["constructor"; "__defineGetter__"; "__defineSetter__"; "hasOwnProperty";
   "__lookupGetter__"; "__lookupSetter__"; "isPrototypeOf"; "propertyIsEnumerable";
   "toString"; "valueOf"; "__proto__"; "toLocaleString"].

Definition inherited (name : string) : bool := bool_decide (name ∈ objectPrototypeNames).

(** [this._dedupHash[id]] read as a condition: the own property when
    there is one, otherwise what the prototype has under that name, which
    is a function or, for [__proto__], the prototype itself, hence
    truthy. *)
Definition dedupHit (h : gmap string bool) (id : string) : bool :=
  match h !! id with
  | Some b => b
  | None => inherited id
  end.

(** [this._dedupHash[id] = true]: sets the own property, creating it when
    it is missing; only for [__proto__] a missing own property means that
    the setter of the prototype runs, which ignores a boolean. *)
Definition record (id : string) (h : gmap string bool) : gmap string bool :=
  match h !! id with
  | Some _ => <[id := true]> h
  | None => if bool_decide (id = "__proto__") then h else <[id := true]> h
  end.

(** The entries of a response that the filter lets through. *)
Definition fresh (h : gmap string bool) (es : list Event) : list Event :=
  List.filter (λ event, negb (dedupHit h (event_id event))) es.

(** The filter after the ids of a batch have been recorded one by one. *)
Definition mark (h : gmap string bool) (evs : list Event) : gmap string bool :=
  foldl (λ h e, record (event_id e) h) h evs.

(** The stream once the callback of a fetch has reset the rate limiter. *)
Definition limited (s : EventStream) : EventStream :=
  set_rateLimiter (RL_delay (fetchInterval (_options s))) s.

(** The stream once a batch has been pushed, before the size of the
    filter is looked at. *)
Definition delivered (next : string) (batch : list Event) (s : EventStream) : EventStream :=
  let s1 := set_paused true (set_streamPosition next (limited s)) in
  let s2 := set_dedupHash (mark (_dedupHash s) batch) s1 in
  if paused s then s2 else set_paused false s2.

Section Methods.

(** [qs.parse] of Node's querystring module. *)
Variable qs_parse : string → Query.

(** [retryPollInfo()] *)
Definition retryPollInfo : Feed unit :=
  d ← gets destroyed;
  if d : bool then mret tt
  else
    h ← gets timerSupply;
    delay ← gets (λ s, retryDelay (_options s));
    act (SetTimeout h delay);;
    modify (set_timerSupply (S h));;
    modify (set_retryTimer (Some h)).

(** [getLongPollInfo()], up to the discovery request. *)
Definition getLongPollInfo : Feed Completion :=
  d ← gets destroyed;
  if d : bool then mret (Fulfilled (Some false))
  else act ReqLongPollInfo;; mret Awaiting.

(** The URL and query object [doLongPoll] builds from [_longPollInfo.url]. *)
Definition splitUrl (u : string) : string * Query :=
  match indexOf "?" u with
  | Some (S n) => (substr_to (S n) u, qs_parse (substr_from (S n + 1) u))
  | _ => (u, ∅)
  end.

(** [doLongPoll()], up to the long-poll request. *)
Definition doLongPoll : Feed Completion :=
  d ← gets destroyed;
  if d : bool then mret (Fulfilled (Some false))
  else
    info ← gets _longPollInfo;
    match info with
    | None => mret (Thrown typeError)
    | Some info =>
      retries ← gets _longPollRetries;
      if retries >? max_retries info then getLongPollInfo
      else
        position ← gets _streamPosition;
        let '(u, query) := splitUrl (url info) in
        let query := <["stream_position" := [position]]> query in
        modify (set_longPollRetries (retries + 1));;
        act (ReqGet u query (retry_timeout info * 1000));;
        mret Awaiting
    end.

(** A [.catch(handler)] closing a callback: an exception thrown by the
    callback runs the handler, and the chain ends the way the handler
    does: fulfilled with [undefined] when it returns, rejected when it
    throws. *)
Definition catching (body : Feed Completion) (handler : Error → Feed Completion)
  : Feed Completion :=
  c ← body;
  match c with
  | Thrown e => handler e
  | _ => mret c
  end.

(** The [.catch] of [getLongPollInfo].  [this.emit('error', err)] calls
    the listeners for ['error'], which are taken to return; when none is
    registered the emitter throws [err], and the handler ends there. *)
Definition getLongPollInfo_catch (err : Error) : Feed Completion :=
  act (EmitError err);;
  heard ← gets listening;
  if heard : bool then
    (if authExpired err then mret tt else retryPollInfo);;
    mret (Fulfilled None)
  else mret (Thrown err).

(** The [.then] of [getLongPollInfo], closed by its [.catch]. *)
Definition getLongPollInfo_then (longPollInfo : LongPollInfo) : Feed Completion :=
  catching
    (modify (set_longPollInfo (Some longPollInfo));;
     modify (set_longPollRetries 0);;
     doLongPoll)
    getLongPollInfo_catch.

(** The [.catch] of [doLongPoll]: the error is not looked at. *)
Definition doLongPoll_catch : Feed Completion :=
  retryPollInfo;; mret (Fulfilled None).

(** [fetchEvents()], up to the wait on the rate limiter; the request
    parameters are fixed before the wait. *)
Definition fetchEvents : Feed Completion :=
  d ← gets destroyed;
  if d : bool then mret (Fulfilled (Some false))
  else
    position ← gets _streamPosition;
    r ← gets _rateLimiter;
    act (AwaitRateLimiter r position 500);;
    mret Awaiting.

(** The callback on [_rateLimiter]: issue [client.events.get(eventParams)]. *)
Definition fetchEvents_limited (stream_position : string) (limit : Z)
  : Feed Completion :=
  act (ReqEvents stream_position limit);; mret Awaiting.

(** [newEvents.forEach(event => { _dedupHash[id] = true; push(event) })] *)
Fixpoint pushEvents (newEvents : list Event) : Feed unit :=
  match newEvents with
  | [] => mret tt
  | event :: rest =>
    modify (λ s, set_dedupHash (record (event_id event) (_dedupHash s)) s);;
    act (Push event);;
    pushEvents rest
  end.

(** [!latestEvents.find(e => e.event_id === eventID)] *)
Definition isEventCleared (latestEvents : list Event) (eventID : string) : bool :=
  match List.find (λ e, bool_decide (event_id e = eventID)) latestEvents with
  | Some _ => false
  | None => true
  end.

(** [Object.keys(this._dedupHash)]: the own properties. *)
Definition dedupKeys (h : gmap string bool) : list string := (map_to_list h).*1.

(** [cleanupDedupFilter(latestEvents)] *)
Definition cleanupDedupFilter (latestEvents : list Event) : Feed unit :=
  dedupIDs ← gets (λ s, dedupKeys (_dedupHash s));
  modify (λ s,
    set_dedupHash
      (foldl (λ h eventID,
                if isEventCleared latestEvents eventID then delete eventID h else h)
             (_dedupHash s) dedupIDs) s).

(** The [.catch] of [fetchEvents]; [emit] as in [getLongPollInfo_catch]. *)
Definition fetchEvents_catch (err : Error) : Feed Completion :=
  act (EmitError err);;
  heard ← gets listening;
  if heard : bool then retryPollInfo;; mret (Fulfilled None)
  else mret (Thrown err).

(** The [.then] of [client.events.get] in [fetchEvents], closed by its
    [.catch]. *)
Definition fetchEvents_then (events : Events) : Feed Completion :=
  catching
    (interval ← gets (λ s, fetchInterval (_options s));
     modify (set_rateLimiter (RL_delay interval));;
     match entries events, truthy_cursor (next_stream_position events) with
     | Some entries, Some next =>
       modify (set_streamPosition next);;
       h ← gets _dedupHash;
       let newEvents := List.filter (λ event, negb (dedupHit h (event_id event))) entries in
       if (List.length newEvents =? 0)%nat then doLongPoll
       else
         wasPaused ← gets paused;
         act Pause;; modify (set_paused true);;
         pushEvents newEvents;;
         (if wasPaused : bool then mret tt
          else act Resume;; modify (set_paused false));;
         h' ← gets _dedupHash;
         limit ← gets (λ s, deduplicationFilterSize (_options s));
         (if Z.of_nat (size h') >=? limit then cleanupDedupFilter entries
          else mret tt);;
         mret (Fulfilled (Some true))
     | _, _ => doLongPoll
     end)
    fetchEvents_catch.

(** The [.then] of [doLongPoll], closed by its [.catch]. *)
Definition doLongPoll_then (data : PollData) : Feed Completion :=
  catching
    (d ← gets destroyed;
     if d : bool then mret (Fulfilled (Some false))
     else if bool_decide (poll_message data = "reconnect") then getLongPollInfo
     else if negb (bool_decide (poll_message data = "new_change")) then doLongPoll
     else fetchEvents)
    (λ _, doLongPoll_catch).

(** [_read()] *)
Definition _read : Feed unit := getLongPollInfo;; mret tt.

(** [_destroy()] *)
Definition _destroy : Feed unit :=
  t ← gets _retryTimer;
  act (ClearTimeout t);;
  modify (set_retryTimer None).

(** [destroy()], the definition installed when the Readable has none. *)
Definition destroy : Feed unit :=
  d ← gets destroyed;
  if d : bool then mret tt
  else
    act EmitCloseNextTick;;
    modify (set_destroyed true);;
    _destroy.

(** *** Rejections passed outwards

    [getLongPollInfo], [doLongPoll] and [fetchEvents] return their chain,
    and the callbacks return what these calls return.  The promise of a
    chain started inside a [.then] callback is therefore what the
    callback resolves to: when that chain ends rejected, the [.catch]
    that closes the callback runs with the rejection, and so on outwards.
    A [Frame] names the method whose [.then] callback a chain was started
    in. *)
Inductive Frame :=
| OfGetLongPollInfo   (* started in the .then of getLongPollInfo *)
| OfDoLongPoll        (* started in the .then of doLongPoll *)
| OfFetchEvents.      (* started in the .then of fetchEvents *)

(** A chain started inside the callbacks [outer] (innermost first) ends
    rejected with [err]: the handlers run from the inside out until one
    of them returns.  With no callback around it, nothing handles the
    rejection. *)
Fixpoint rejects (outer : list Frame) (err : Error) : Feed Completion :=
  match outer with
  | [] => mret (Thrown err)
  | frame :: outer' =>
    c ← match frame with
        | OfGetLongPollInfo => getLongPollInfo_catch err
        | OfDoLongPoll => doLongPoll_catch
        | OfFetchEvents => fetchEvents_catch err
        end;
    match c with
    | Thrown e => rejects outer' e
    | _ => mret c
    end
  end.

(** A callback of a chain started inside [outer] runs. *)
Definition settles (outer : list Frame) (callback : Feed Completion) : Feed Completion :=
  c ← callback;
  match c with
  | Thrown e => rejects outer e
  | _ => mret c
  end.

(** *** The stream driven by its environment *)

(** A discovery request is issued from [_read] and from the retry timer,
    with no callback around it, and from [doLongPoll] inside any of the
    three callbacks: its outcome comes with the callbacks around the
    call.  [fetchEvents] is only called in the [.then] of [doLongPoll].
    The [.catch] of [doLongPoll] never throws, so what is around a
    long-poll wait does not matter. *)
Inductive Input :=
| IRead                                      (* the Readable calls _read() *)
| IDestroy                                   (* the consumer calls destroy() *)
| ILongPollInfo (outer : list Frame) (o : Outcome LongPollInfo)
                                             (* discovery request settles *)
| ILongPoll (o : Outcome PollData)           (* long-poll request settles *)
| IRateLimiter (stream_position : string) (limit : Z)  (* rate limiter resolves *)
| IEvents (o : Outcome Events)               (* events request settles *)
| ITimer                                     (* the retry timer fires *)
| IListen (on : bool).   (* the consumer adds, or removes, its 'error' listener *)

Definition handle (i : Input) : Feed Completion :=
  match i with
  | IRead => _read;; mret (Fulfilled None)
  | IDestroy => destroy;; mret (Fulfilled None)
  | ILongPollInfo outer (Resolved info) => settles outer (getLongPollInfo_then info)
  | ILongPollInfo outer (Rejected err) => settles outer (getLongPollInfo_catch err)
  | ILongPoll (Resolved data) => doLongPoll_then data
  | ILongPoll (Rejected _) => doLongPoll_catch
  | IRateLimiter position limit => fetchEvents_limited position limit
  | IEvents (Resolved events) => settles [OfDoLongPoll] (fetchEvents_then events)
  | IEvents (Rejected err) => settles [OfDoLongPoll] (fetchEvents_catch err)
  | ITimer => getLongPollInfo
  | IListen on => modify (set_listening on);; mret (Fulfilled None)
  end.

(** Run a sequence of inputs, collecting the actions. *)
Fixpoint run (inputs : list Input) (s : EventStream) : EventStream * list Action :=
  match inputs with
  | [] => (s, [])
  | i :: rest =>
    let r := handle i s in
    let r' := run rest (state r) in
    (r'.1, actions r ++ r'.2)
  end.

(** The cursor an input carries, when it is a fetch response with an
    entry list and a usable cursor. *)
Definition cursor_of (i : Input) : option string :=
  match i with
  | IEvents (Resolved events) =>
    match entries events with
    | Some _ => truthy_cursor (next_stream_position events)
    | None => None
    end
  | _ => None
  end.

(** What holds of a long-poll wait request [ReqGet u q t] and the stream
    [s'] that has just issued it. *)
Definition wait_in_force (s' : EventStream) (u : string) (q : Query) (t : Z) : Prop :=
  q !! "stream_position" = Some [_streamPosition s']
  ∧ destroyed s' = false
  ∧ ∃ info, _longPollInfo s' = Some info
            ∧ u = (splitUrl (url info)).1
            ∧ t = retry_timeout info * 1000
            ∧ (∀ k, k ≠ "stream_position" → q !! k = (splitUrl (url info)).2 !! k).

End Methods.

(** The events pushed to the consumer, in order. *)
Definition pushed (acts : list Action) : list Event :=
  omap (λ a, match a with Push e => Some e | _ => None end) acts.

(** The errors [emit('error', _)] was called with, in order. *)
Definition emittedErrors (acts : list Action) : list Error :=
  omap (λ a, match a with EmitError e => Some e | _ => None end) acts.

(** The retry timers scheduled, with their delays. *)
Definition scheduled (acts : list Action) : list (nat * Z) :=
  omap (λ a, match a with SetTimeout h d => Some (h, d) | _ => None end) acts.

(** Actions that keep the polling cycle going: a discovery request, a
    long-poll wait, a retry timer. *)
Definition keepsPolling (a : Action) : bool :=
  match a with
  | ReqLongPollInfo | ReqGet _ _ _ | SetTimeout _ _ => true
  | _ => false
  end.

(** The error an input delivers to a handler that emits it. *)
Definition error_of (i : Input) : option Error :=
  match i with
  | ILongPollInfo _ (Rejected e) | IEvents (Rejected e) => Some e
  | _ => None
  end.

(** Whether an input is a settled fetch response. *)
Definition isResponse (i : Input) : bool :=
  match i with
  | IEvents (Resolved _) => true
  | _ => false
  end.

(** Whether an input takes the consumer's ['error'] listener away. *)
Definition unlistens (i : Input) : bool :=
  match i with
  | IListen false => true
  | _ => false
  end.

(** The fields that steer the cycle, as opposed to those a fetch updates. *)
Definition control (s : EventStream)
  : bool * Options * option nat * nat * option LongPollInfo * Z * bool :=
  (destroyed s, _options s, _retryTimer s, timerSupply s, _longPollInfo s,
   _longPollRetries s, listening s).


(** How often a log pauses and resumes the stream. *)
Definition pauses (acts : list Action) : nat :=
  List.length (List.filter (λ a, match a with Pause => true | _ => false end) acts).
Definition resumes (acts : list Action) : nat :=
  List.length (List.filter (λ a, match a with Resume => true | _ => false end) acts).

(** [qs.parse] on query strings without escapes and without repeated
    keys: split at [&], then at the first [=]. *)
Fixpoint splitOn (sep : Ascii.ascii) (s : string) : list string :=
  match s with
  | EmptyString => [EmptyString]
  | String c rest =>
    if Ascii.eqb c sep then EmptyString :: splitOn sep rest
    else match splitOn sep rest with
         | [] => [String c EmptyString]
         | w :: ws => String c w :: ws
         end
  end.

Definition parsePair (kv : string) : string * list string :=
  match indexOf "=" kv with
  | Some n => (substr_to n kv, [substr_from (n + 1) kv])
  | None => (kv, [EmptyString])
  end.

Definition qs_parse_plain (q : string) : Query :=
  if bool_decide (q = "") then ∅
  else list_to_map (parsePair <$> splitOn "&"%char q).

(** *** Sample streams *)

Definition evA : Event := mkEvent "A" "ITEM_CREATE".
Definition evB : Event := mkEvent "B" "ITEM_UPLOAD".
Definition evC : Event := mkEvent "C" "ITEM_TRASH".

(** An entry whose id is the name of a property every object has. *)
Definition evCtor : Event := mkEvent "constructor" "ITEM_RENAME".

(** A stream at position 100 whose consumer listens for ['error'] and
    that has discovered its long-poll URL. *)
Definition polling : EventStream :=
  set_listening true
    (set_longPollInfo
       (Some (mkLongPollInfo 10 610 "https://rt.box.com/subscribe?channel=c1&stream_type=all"))
       (new "100" DEFAULT_OPTIONS)).

(** The same stream with no listener for ['error']. *)
Definition unheard : EventStream := set_listening false polling.

(** A stream at position 42 whose long-poll URL itself carries a
    [stream_position] parameter. *)
Definition carrying : EventStream :=
  set_longPollInfo
    (Some (mkLongPollInfo 10 610 "https://rt.box.com/subscribe?channel=c1&stream_position=7"))
    (new "42" DEFAULT_OPTIONS).

(** A stream tracking two ids with a filter size of three. *)
Definition crowded : EventStream :=
  set_dedupHash {[ "old1" := true; "old2" := true ]}
    (set_longPollInfo
       (Some (mkLongPollInfo 10 610 "https://rt.box.com/subscribe?channel=c1"))
       (new "100" (mkOptions 1000 3 1000))).

Definition timedOut : Error := mkError "ESOCKETTIMEDOUT" false.

(** The long-poll info of [polling]. *)
Definition pollingInfo : LongPollInfo :=
  mkLongPollInfo 10 610 "https://rt.box.com/subscribe?channel=c1&stream_type=all".

(** [polling] after its consumer has destroyed it. *)
Definition torn : EventStream := set_destroyed true polling.

End EventStream.

(* ================================================================== *)
(** ** AppAuthSession *)
(* ================================================================== *)

Module AppAuthSession.

(** Token info as the session sees it.  The session itself reads only
    [accessToken]; [expiresAt] (ms) is the expiry of the spec's data
    model, read by the validity check. *)
Record TokenInfo := mkTokenInfo { accessToken : string; expiresAt : Z }.

Record Config := mkConfig { expiredBufferMS : Z; staleBufferMS : Z }.

(** Options of a token request; the session only passes them on. *)
Abbreviation TokenRequestOptions := (option string).

(** A token store as handed to the constructor: which of the three
    methods it has. *)
Record StoreObject := mkStoreObject { has_read : bool; has_write : bool; has_clear : bool }.

(** [isObjectValidTokenStore(obj)] *)
Definition isObjectValidTokenStore (obj : option StoreObject) : bool :=
  match obj with
  | Some o => has_read o && has_write o && has_clear o
  | None => false
  end.

Record Session := mkSession {
  _type : string;
  _id : string;
  _config : Config;
  (** whether a (promisified) token store is held *)
  _tokenStore : bool;
  _tokenInfo : option TokenInfo;
  (** the promise of the refresh in progress, by its identity *)
  _refreshPromise : option nat
}.

(** The constructor; [None] when the assertion on the store fails. *)
Definition new (type id : string) (config : Config) (tokenStore : option StoreObject)
  : option Session :=
  match tokenStore with
  | Some o =>
    if isObjectValidTokenStore (Some o)
    then Some (mkSession type id config true None None)
    else None
  | None => Some (mkSession type id config false None None)
  end.

(** Where a chain [getTokensJWTGrant(..).then(..).finally(..)] stands. *)
Inductive Stage :=
| Granting                          (* the grant request is outstanding *)
| Writing (tokenInfo : TokenInfo)   (* tokenStore.writeAsync is outstanding *)
| Finishing (o : Outcome string).   (* the then-stage settled; finally has not run yet *)

(** What the promise returned by [getAccessToken] is bound to. *)
Inductive Handle :=
| Value (accessToken : string)            (* fulfilled with this access token *)
| Follows (p : nat)                       (* it is, or has adopted, refresh promise p *)
| Failed (e : Error)                      (* rejected: the store read failed *)
| Reading (options : TokenRequestOptions). (* waits for tokenStore.readAsync *)

(** The session together with the promises the host keeps for it. *)
Record World := mkWorld {
  session : Session;
  (** refresh chains that have not completed, by promise identity *)
  chains : gmap nat Stage;
  (** refresh promises that have settled, with their outcome *)
  settled : gmap nat (Outcome string);
  (** identity of the next promise created *)
  promiseSupply : nat;
  (** the promise each caller of [getAccessToken] holds *)
  handles : gmap nat Handle
}.

(** Calls on the collaborators. *)
Inductive Action :=
| GrantCall (type id : string) (options : TokenRequestOptions)  (* getTokensJWTGrant *)
| RevokeCall (accessToken : option string) (options : TokenRequestOptions)
| StoreRead
| StoreWrite (tokenInfo : TokenInfo)
| StoreClear.

Abbreviation Sess := (Prog World Action).

Definition set_session (v : Session) (w : World) : World :=
  mkWorld v (chains w) (settled w) (promiseSupply w) (handles w).
Definition set_chains (v : gmap nat Stage) (w : World) : World :=
  mkWorld (session w) v (settled w) (promiseSupply w) (handles w).
Definition set_settled (v : gmap nat (Outcome string)) (w : World) : World :=
  mkWorld (session w) (chains w) v (promiseSupply w) (handles w).
Definition set_promiseSupply (v : nat) (w : World) : World :=
  mkWorld (session w) (chains w) (settled w) v (handles w).
Definition set_handles (v : gmap nat Handle) (w : World) : World :=
  mkWorld (session w) (chains w) (settled w) (promiseSupply w) v.

Definition set_tokenInfo (v : option TokenInfo) (w : World) : World :=
  let s := session w in
  set_session (mkSession (_type s) (_id s) (_config s) (_tokenStore s) v (_refreshPromise s)) w.
Definition set_refreshPromise (v : option nat) (w : World) : World :=
  let s := session w in
  set_session (mkSession (_type s) (_id s) (_config s) (_tokenStore s) (_tokenInfo s) v) w.

(** A world around a freshly constructed session. *)
Definition start (s : Session) : World := mkWorld s ∅ ∅ 0%nat ∅.

(** Modelled from the spec: [TokenManager.isAccessTokenValid], whose
    module is not among the sources.  A token is valid iff
    [now < expiresAt - buffer]; an absent token is not valid. *)
Definition spec_isAccessTokenValid (now : Z) (tokenInfo : option TokenInfo) (bufferMS : Z)
  : bool :=
  match tokenInfo with
  | Some t => now <? expiresAt t - bufferMS
  | None => false
  end.

(** Modelled from the spec: [errors.unwrapAndThrow] of util/errors, which
    is not among the sources: it throws the store's own error. *)
Definition unwrapAndThrow {A} (e : Error) : Outcome A := Rejected e.

(** [.then] and [.catch] on a settled promise. *)
Definition then_ {A B} (o : Outcome A) (f : A → Outcome B) : Outcome B :=
  match o with
  | Resolved a => f a
  | Rejected e => Rejected e
  end.
Definition catch_ {A} (o : Outcome A) (h : Error → Outcome A) : Outcome A :=
  match o with
  | Resolved a => Resolved a
  | Rejected e => h e
  end.

(** An object reference read as a condition. *)
Definition truthy {A} (o : option A) : bool :=
  match o with
  | Some _ => true
  | None => false
  end.

Section Methods.

(** [tokenManager.isAccessTokenValid(tokenInfo, bufferMS)] evaluated when
    the clock reads [now]. *)
Variable isAccessTokenValid : Z → option TokenInfo → Z → bool.

(** What [tokenManager.revokeTokens(accessToken, options)] returns. *)
Variable tm_revokeTokens : option string → TokenRequestOptions → Outcome unit.

(** [_refreshAppAuthAccessToken(options)]: returns the refresh promise. *)
Definition _refreshAppAuthAccessToken (options : TokenRequestOptions) : Sess nat :=
  current ← gets (λ w, _refreshPromise (session w));
  match current with
  | Some p => mret p
  | None =>
    p ← gets promiseSupply;
    modify (set_promiseSupply (S p));;
    s ← gets session;
    act (GrantCall (_type s) (_id s) options);;
    modify (λ w, set_chains (<[p := Granting]> (chains w)) w);;
    modify (set_refreshPromise (Some p));;
    mret p
  end.

(** Move chain [p] to another stage. *)
Definition advance (p : nat) (st : Stage) : Sess unit :=
  modify (λ w, set_chains (<[p := st]> (chains w)) w).

(** The grant of chain [p] settles: on success the [.then] callback
    runs, on failure it is skipped. *)
Definition refresh_granted (p : nat) (o : Outcome TokenInfo) : Sess unit :=
  st ← gets (λ w, chains w !! p);
  match st, o with
  | Some Granting, Resolved tokenInfo =>
    modify (set_tokenInfo (Some tokenInfo));;
    store ← gets (λ w, _tokenStore (session w));
    if store : bool
    then act (StoreWrite tokenInfo);; advance p (Writing tokenInfo)
    else advance p (Finishing (Resolved (accessToken tokenInfo)))
  | Some Granting, Rejected e => advance p (Finishing (Rejected e))
  | _, _ => mret tt
  end.

(** The store write of chain [p] settles:
    [.then(() => tokenInfo.accessToken)]. *)
Definition refresh_written (p : nat) (o : Outcome unit) : Sess unit :=
  st ← gets (λ w, chains w !! p);
  match st with
  | Some (Writing tokenInfo) =>
    advance p (Finishing (then_ o (λ _, Resolved (accessToken tokenInfo))))
  | _ => mret tt
  end.

(** The [.finally] callback of chain [p]: clear the marker; the refresh
    promise settles with the outcome of the then-stage. *)
Definition refresh_finally (p : nat) : Sess unit :=
  st ← gets (λ w, chains w !! p);
  match st with
  | Some (Finishing o) =>
    modify (set_refreshPromise None);;
    modify (λ w, set_chains (delete p (chains w))
                   (set_settled (<[p := o]> (settled w)) w))
  | _ => mret tt
  end.

(** [Math.max(expiredBufferMS, staleBufferMS)] *)
Definition expirationBuffer (c : Config) : Z :=
  Z.max (expiredBufferMS c) (staleBufferMS c).

(** [getAccessToken(options)], called when the clock reads [now], up to
    the store read if there is one. *)
Definition getAccessToken (now : Z) (options : TokenRequestOptions) : Sess Handle :=
  s ← gets session;
  let buffer := expirationBuffer (_config s) in
  let tokenInfo := _tokenInfo s in
  if negb (truthy tokenInfo) && _tokenStore s
  then act StoreRead;; mret (Reading options)
  else if negb (truthy tokenInfo) || negb (isAccessTokenValid now tokenInfo buffer)
  then p ← _refreshAppAuthAccessToken options; mret (Follows p)
  else
    match tokenInfo with
    | Some t => mret (Value (accessToken t))
    | None => mret (Failed typeError)
    end.

(** The callback on [readAsync()] in [getAccessToken], run when the
    clock reads [now]; [buffer] was computed by the call. *)
Definition getAccessToken_read (now : Z) (options : TokenRequestOptions)
    (tokenInfo : option TokenInfo) : Sess Handle :=
  s ← gets session;
  let buffer := expirationBuffer (_config s) in
  if negb (isAccessTokenValid now tokenInfo buffer)
  then p ← _refreshAppAuthAccessToken options; mret (Follows p)
  else
    modify (set_tokenInfo tokenInfo);;
    match tokenInfo with
    | Some t => mret (Value (accessToken t))
    | None => mret (Failed typeError)
    end.

(** [revokeTokens(options)] *)
Definition revokeTokens (options : TokenRequestOptions) : Sess (Outcome unit) :=
  tokenInfo ← gets (λ w, _tokenInfo (session w));
  let accessToken := accessToken <$> tokenInfo in
  modify (set_tokenInfo None);;
  act (RevokeCall accessToken options);;
  mret (tm_revokeTokens accessToken options).

(** How [handleExpiredTokensError(err)] ends. *)
Inductive Expired :=
| Settles (o : Outcome Error)   (* no store: Promise.resolve(err) *)
| Clearing.                     (* waits for tokenStore.clearAsync *)

(** [handleExpiredTokensError(err)], up to the store call. *)
Definition handleExpiredTokensError (err : Error) : Sess Expired :=
  store ← gets (λ w, _tokenStore (session w));
  if store : bool then act StoreClear;; mret Clearing
  else mret (Settles (Resolved err)).

(** The chain on [clearAsync()]:
    [.catch(e => errors.unwrapAndThrow(e)).then(() => { throw err })]. *)
Definition handleExpiredTokensError_cleared (err : Error) (cleared : Outcome unit)
  : Outcome Error :=
  then_ (catch_ cleared (λ e, unwrapAndThrow e)) (λ _, Rejected err).

(** *** The session driven by its callers and its collaborators *)

Inductive Input :=
| ICall (c : nat) (now : Z) (options : TokenRequestOptions)
    (* caller c calls getAccessToken *)
| IRead (c : nat) (now : Z) (o : Outcome (option TokenInfo))
    (* the store read of caller c settles *)
| IGrant (p : nat) (o : Outcome TokenInfo)   (* the grant of chain p settles *)
| IWrite (p : nat) (o : Outcome unit)        (* the store write of chain p settles *)
| IFinally (p : nat)                         (* the finally callback of chain p runs *)
| IRevoke (options : TokenRequestOptions).   (* revokeTokens is called *)

Definition hold (c : nat) (h : Handle) : Sess unit :=
  modify (λ w, set_handles (<[c := h]> (handles w)) w).

Definition handle (i : Input) : Sess unit :=
  match i with
  | ICall c now options => h ← getAccessToken now options; hold c h
  | IRead c now o =>
    h ← gets (λ w, handles w !! c);
    match h, o with
    | Some (Reading options), Resolved tokenInfo =>
      h' ← getAccessToken_read now options tokenInfo; hold c h'
    | Some (Reading _), Rejected e => hold c (Failed e)
    | _, _ => mret tt
    end
  | IGrant p o => refresh_granted p o
  | IWrite p o => refresh_written p o
  | IFinally p => refresh_finally p
  | IRevoke options => revokeTokens options;; mret tt
  end.

Fixpoint run (inputs : list Input) (w : World) : World * list Action :=
  match inputs with
  | [] => (w, [])
  | i :: rest =>
    let r := handle i w in
    let r' := run rest (state r) in
    (r'.1, actions r ++ r'.2)
  end.

(** What caller [c] has got: the value its promise settled with, if any. *)
Definition received (w : World) (c : nat) : option (Outcome string) :=
  match handles w !! c with
  | Some (Value a) => Some (Resolved a)
  | Some (Follows p) => settled w !! p
  | Some (Failed e) => Some (Rejected e)
  | Some (Reading _) => None
  | None => None
  end.

(** Whether a call of [getAccessToken] at [now] takes the refresh branch:
    no store read, and the token in memory is absent or not valid. *)
Definition refreshes (s : Session) (now : Z) : bool :=
  negb (negb (truthy (_tokenInfo s)) && _tokenStore s)
  && (negb (truthy (_tokenInfo s))
      || negb (isAccessTokenValid now (_tokenInfo s) (expirationBuffer (_config s)))).

(** A batch of calls of [getAccessToken]: caller, clock, options. *)
Definition callInputs (calls : list (nat * Z * TokenRequestOptions)) : list Input :=
  (λ x, ICall x.1.1 x.1.2 x.2) <$> calls.

End Methods.

(** Whether an input is a caller arriving: a call of [getAccessToken],
    or the answer of the store read of one. *)
Definition arrival (i : Input) : bool :=
  match i with
  | ICall _ _ _ | IRead _ _ _ => true
  | _ => false
  end.

(** Whether an input is the finally callback of a refresh. *)
Definition isFinally (i : Input) : bool :=
  match i with
  | IFinally _ => true
  | _ => false
  end.

(** The token a grant resolved with. *)
Definition granted_token (i : Input) : option TokenInfo :=
  match i with
  | IGrant _ (Resolved t) => Some t
  | _ => None
  end.

(** The world right after a refresh has been started in [w]. *)
Definition refreshing (w : World) : World :=
  set_refreshPromise (Some (promiseSupply w))
    (set_chains (<[promiseSupply w := Granting]> (chains w))
       (set_promiseSupply (S (promiseSupply w)) w)).

(** What [getAccessToken] returns when it refreshes. *)
Definition refreshed (options : TokenRequestOptions) (w : World)
  : Handle * World * list Action :=
  let r := _refreshAppAuthAccessToken options w in
  (Follows (result r), state r, actions r).

(** The handles after every caller of a batch has attached to [p]. *)
Definition attached (p : nat) (calls : list (nat * Z * TokenRequestOptions))
    (h : gmap nat Handle) : gmap nat Handle :=
  foldl (λ h x, <[x.1.1 := Follows p]> h) h calls.

(** What the then-stage of a chain hands to its finally callback, from
    the outcomes of the grant and of the store write. *)
Definition chainOutcome (store : bool) (granted : Outcome TokenInfo) (written : Outcome unit)
  : Outcome string :=
  then_ granted (λ t, if store then then_ written (λ _, Resolved (accessToken t))
                      else Resolved (accessToken t)).

(** Coherence of the refresh marker with the chains in flight. *)
Record coherent (w : World) : Prop := {
  coh_marker :
    match _refreshPromise (session w) with
    | None => chains w = ∅
    | Some p => ∃ st, chains w = {[p := st]}
    end;
  coh_chains : ∀ p, is_Some (chains w !! p) → (p < promiseSupply w)%nat;
  coh_settled : ∀ p, is_Some (settled w !! p) →
                     (p < promiseSupply w)%nat ∧ chains w !! p = None;
  coh_handles : ∀ c p, handles w !! c = Some (Follows p) →
                       is_Some (chains w !! p) ∨ is_Some (settled w !! p)
}.

(** *** Sample sessions *)

Definition enterprise : Session :=
  mkSession "enterprise" "12345" (mkConfig 60000 600000) false None None.

Definition stored : Session :=
  mkSession "enterprise" "12345" (mkConfig 60000 600000) true None None.

Definition token1 : TokenInfo := mkTokenInfo "T1" 3600000.
Definition token2 : TokenInfo := mkTokenInfo "T2" 7200000.

(** A session holding [token1] in memory. *)
Definition cached : Session :=
  mkSession "enterprise" "12345" (mkConfig 60000 600000) false (Some token1) None.

(** A token manager whose revocation succeeds. *)
Definition revokeOk (accessToken : option string) (options : TokenRequestOptions)
  : Outcome unit := Resolved tt.

Definition expiredErr : Error := mkError "Expired Auth" true.
Definition storeErr : Error := mkError "EIO" false.

(** A caller of a session with a store, waiting for the store read, while
    memory already holds [token1]. *)
Definition readingWorld : World :=
  set_handles {[1%nat := Reading None]} (set_tokenInfo (Some token1) (start stored)).

(** The number of calls to [getTokensJWTGrant] in a log. *)
Definition grantCalls (acts : list Action) : nat :=
  List.length (List.filter (λ a, match a with GrantCall _ _ _ => true | _ => false end) acts).

(** The store writes in a log. *)
Definition storeWrites (acts : list Action) : list TokenInfo :=
  omap (λ a, match a with StoreWrite t => Some t | _ => None end) acts.

End AppAuthSession.

(* ================================================================== *)
(** * Proofs *)
(* ================================================================== *)

(** ** Running method bodies *)

Ltac unfold_prog :=
  unfold mbind, mret, Prog_bind, Prog_ret, gets, modify, act, result, state, actions;
  cbn.

Lemma gets_bind {S Act A B} (f : S → A) (k : A → Prog S Act B) s :
  (gets f ≫= k) s = k (f s) s.
Proof. unfold_prog. by destruct (k (f s) s) as [[? ?] ?]. Qed.

Lemma modify_bind {S Act B} (f : S → S) (k : unit → Prog S Act B) s :
  (modify f ≫= k) s = k tt (f s).
Proof. unfold_prog. by destruct (k tt (f s)) as [[? ?] ?]. Qed.

Lemma act_bind {S Act B} (a : Act) (k : unit → Prog S Act B) s :
  (act a ≫= k) s = (result (k tt s), state (k tt s), a :: actions (k tt s)).
Proof. unfold_prog. by destruct (k tt s) as [[? ?] ?]. Qed.

Lemma discard_state {S Act A} (m : Prog S Act A) s :
  state ((m ;; mret tt) s) = state (m s).
Proof. unfold_prog. by destruct (m s) as [[? ?] ?]. Qed.

Lemma discard_actions {S Act A} (m : Prog S Act A) s :
  actions ((m ;; mret tt) s) = actions (m s).
Proof. unfold_prog. destruct (m s) as [[? ?] ?]. cbn. apply app_nil_r. Qed.

Ltac prog_step :=
  repeat first [rewrite gets_bind | rewrite modify_bind | rewrite act_bind]; cbv beta.

(* ================================================================== *)
(** ** EventStream *)
(* ================================================================== *)

Module EventStreamFacts.
Import EventStream.

Section Facts.
Variable qs_parse : string → Query.

Lemma retryPollInfo_eq s :
  retryPollInfo s =
  if destroyed s then (tt, s, [])
  else (tt,
        set_retryTimer (Some (timerSupply s)) (set_timerSupply (S (timerSupply s)) s),
        [SetTimeout (timerSupply s) (retryDelay (_options s))]).
Proof.
  unfold retryPollInfo. unfold_prog. destruct (destroyed s); reflexivity.
Qed.

Lemma getLongPollInfo_eq s :
  getLongPollInfo s =
  if destroyed s then (Fulfilled (Some false), s, [])
  else (Awaiting, s, [ReqLongPollInfo]).
Proof.
  unfold getLongPollInfo. unfold_prog. destruct (destroyed s); reflexivity.
Qed.

Lemma doLongPoll_eq s :
  doLongPoll qs_parse s =
  if destroyed s then (Fulfilled (Some false), s, [])
  else match _longPollInfo s with
       | None => (Thrown typeError, s, [])
       | Some info =>
         if _longPollRetries s >? max_retries info then (Awaiting, s, [ReqLongPollInfo])
         else (Awaiting,
               set_longPollRetries (_longPollRetries s + 1) s,
               [ReqGet (splitUrl qs_parse (url info)).1
                       (<["stream_position" := [_streamPosition s]]>
                          (splitUrl qs_parse (url info)).2)
                       (retry_timeout info * 1000)])
       end.
Proof.
  unfold doLongPoll. unfold_prog. destruct (destroyed s) eqn:Hd; [reflexivity|].
  destruct (_longPollInfo s) as [info|]; [|reflexivity].
  destruct (_ >? _).
  - rewrite getLongPollInfo_eq, Hd. reflexivity.
  - destruct (splitUrl qs_parse (url info)) as [u q]. reflexivity.
Qed.

(** *** The handlers *)

Lemma doLongPoll_catch_eq s :
  doLongPoll_catch s = (Fulfilled None, state (retryPollInfo s), actions (retryPollInfo s)).
Proof.
  unfold doLongPoll_catch. unfold_prog. destruct (retryPollInfo s) as [[[] ?] ?]. cbn.
  by rewrite app_nil_r.
Qed.

Lemma fetchEvents_catch_eq e s :
  fetchEvents_catch e s
  = if listening s
    then (Fulfilled None, state (retryPollInfo s), EmitError e :: actions (retryPollInfo s))
    else (Thrown e, s, [EmitError e]).
Proof.
  unfold fetchEvents_catch. prog_step. destruct (listening s); [|done].
  unfold_prog. destruct (retryPollInfo s) as [[[] ?] ?]. cbn. by rewrite app_nil_r.
Qed.

Lemma getLongPollInfo_catch_eq e s :
  getLongPollInfo_catch e s
  = if listening s
    then if authExpired e then (Fulfilled None, s, [EmitError e])
         else (Fulfilled None, state (retryPollInfo s), EmitError e :: actions (retryPollInfo s))
    else (Thrown e, s, [EmitError e]).
Proof.
  unfold getLongPollInfo_catch. prog_step. destruct (listening s); [|done].
  destruct (authExpired e); [done|].
  unfold_prog. destruct (retryPollInfo s) as [[[] ?] ?]. cbn. by rewrite app_nil_r.
Qed.

Lemma retryPollInfo_listening s : listening (state (retryPollInfo s)) = listening s.
Proof. rewrite retryPollInfo_eq. by destruct (destroyed s). Qed.

Lemma rejects_cons frame outer e s :
  rejects (frame :: outer) e s =
  match frame with
  | OfDoLongPoll => doLongPoll_catch s
  | _ =>
    if listening s
    then match frame with
         | OfGetLongPollInfo => getLongPollInfo_catch e s
         | _ => fetchEvents_catch e s
         end
    else (result (rejects outer e s), state (rejects outer e s),
          EmitError e :: actions (rejects outer e s))
  end.
Proof.
  cbn [rejects]. destruct frame.
  - unfold_prog. rewrite getLongPollInfo_catch_eq.
    destruct (listening s); [destruct (authExpired e)|]; cbn; rewrite ?app_nil_r; try done.
    by destruct (rejects outer e s) as [[? ?] ?].
  - unfold_prog. rewrite doLongPoll_catch_eq. cbn. by rewrite app_nil_r.
  - unfold_prog. rewrite fetchEvents_catch_eq.
    destruct (listening s); cbn; rewrite ?app_nil_r; try done.
    by destruct (rejects outer e s) as [[? ?] ?].
Qed.

(** A rejection on its way out is emitted by the handlers it passes,
    and at most one of them schedules the retry, which ends the way. *)
Lemma rejects_shape outer e : ∀ s,
  ∃ n,
    rejects outer e s = (Thrown e, s, replicate n (EmitError e))
    ∨ rejects outer e s = (Fulfilled None, s, replicate n (EmitError e))
    ∨ rejects outer e s
      = (Fulfilled None, state (retryPollInfo s),
         replicate n (EmitError e) ++ actions (retryPollInfo s)).
Proof.
  induction outer as [|frame outer IH]; intros s.
  - exists 0%nat. by left.
  - rewrite rejects_cons. destruct frame.
    + rewrite getLongPollInfo_catch_eq. destruct (listening s).
      * destruct (authExpired e); exists 1%nat; auto.
      * destruct (IH s) as [n [-> | [-> | ->]]]; exists (S n); auto.
    + rewrite doLongPoll_catch_eq. exists 0%nat. auto.
    + rewrite fetchEvents_catch_eq. destruct (listening s).
      * exists 1%nat; auto.
      * destruct (IH s) as [n [-> | [-> | ->]]]; exists (S n); auto.
Qed.

Lemma settles_eq outer (callback : Feed Completion) s :
  settles outer callback s =
  match result (callback s) with
  | Thrown e =>
    (result (rejects outer e (state (callback s))),
     state (rejects outer e (state (callback s))),
     actions (callback s) ++ actions (rejects outer e (state (callback s))))
  | _ => callback s
  end.
Proof.
  unfold settles. unfold_prog. destruct (callback s) as [[c s1] l1]. cbn.
  destruct c; cbn; rewrite ?app_nil_r; try done.
  by destruct (rejects outer e s1) as [[? ?] ?].
Qed.

Lemma catching_eq body handler s :
  catching body handler s =
  match result (body s) with
  | Thrown e =>
    (result (handler e (state (body s))),
     state (handler e (state (body s))),
     actions (body s) ++ actions (handler e (state (body s))))
  | _ => body s
  end.
Proof.
  unfold catching. unfold_prog. destruct (body s) as [[c s1] l1]. cbn.
  destruct c; cbn; rewrite ?app_nil_r; try done.
  by destruct (handler e s1) as [[? ?] ?].
Qed.

(** What a step leaves alone when [retryPollInfo] does. *)
Lemma rejects_frame {A} (f : EventStream → A) outer e s :
  (∀ s0, f (state (retryPollInfo s0)) = f s0) →
  f (state (rejects outer e s)) = f s.
Proof.
  intros Hf. destruct (rejects_shape outer e s) as [n [-> | [-> | ->]]]; cbn; auto.
Qed.


(** *** The dedup hash *)

Lemma set_dedupHash_id s : set_dedupHash (_dedupHash s) s = s.
Proof. by destruct s. Qed.

Lemma set_dedupHash_twice a b s : set_dedupHash a (set_dedupHash b s) = set_dedupHash a s.
Proof. by destruct s. Qed.

Lemma pushEvents_eq evs : ∀ s,
  pushEvents evs s = (tt, set_dedupHash (mark (_dedupHash s) evs) s, Push <$> evs).
Proof.
  induction evs as [|e evs IH]; intros s; cbn [pushEvents].
  - unfold_prog. unfold mark. cbn. by rewrite set_dedupHash_id.
  - unfold_prog. rewrite IH. unfold mark. cbn. by rewrite set_dedupHash_twice.
Qed.

Lemma record_lookup id (h : gmap string bool) k :
  record id h !! k
  = if decide (k = id ∧ (is_Some (h !! id) ∨ id ≠ "__proto__")) then Some true else h !! k.
Proof.
  unfold record. destruct (h !! id) as [b|] eqn:Hid.
  - destruct (decide (k = id)) as [->|Hne].
    + rewrite lookup_insert_eq, decide_True; [done|]. split; [done|]. left. by eexists.
    + rewrite lookup_insert_ne by done. rewrite decide_False; [done|]. by intros [? _].
  - case_bool_decide as Hp.
    + rewrite decide_False; [done|]. intros [_ [[? ?]|?]]; done.
    + destruct (decide (k = id)) as [->|Hne].
      * rewrite lookup_insert_eq, decide_True; [done|]. split; [done|]. by right.
      * rewrite lookup_insert_ne by done. rewrite decide_False; [done|]. by intros [? _].
Qed.

Lemma record_is_Some id (h : gmap string bool) k :
  is_Some (h !! k) → is_Some (record id h !! k).
Proof. rewrite record_lookup. case_decide; [by eexists | done]. Qed.

(** Marking a batch none of whose ids is a [__proto__] the hash does not
    hold records every id of the batch. *)
Lemma mark_lookup evs : ∀ (h : gmap string bool) id,
  (∀ e, e ∈ evs → event_id e = "__proto__" → is_Some (h !! "__proto__")) →
  mark h evs !! id = if decide (id ∈ event_id <$> evs) then Some true else h !! id.
Proof.
  induction evs as [|e evs IH]; intros h id Hp; cbn.
  - case_decide as H; [by apply elem_of_nil in H | done].
  - unfold mark in IH. rewrite IH.
    2:{ intros e' He' Hid. apply record_is_Some. apply (Hp e'); [by right | done]. }
    destruct (decide (id ∈ event_id <$> evs)) as [Hin|Hout].
    + rewrite decide_True; [done | by right].
    + rewrite record_lookup. destruct (decide (id = event_id e)) as [->|Hne].
      * rewrite decide_True.
        -- rewrite decide_True; [done | by left].
        -- split; [done|]. destruct (decide (event_id e = "__proto__")) as [Heq|Hneq]; [|by right].
           left. rewrite Heq. apply (Hp e); [by left | done].
      * rewrite decide_False by (by intros [? _]).
        rewrite decide_False; [done|]. intros [?|?]%elem_of_cons; congruence.
Qed.

Lemma fresh_unrecorded h es e :
  e ∈ fresh h es → dedupHit h (event_id e) = false.
Proof.
  unfold fresh. rewrite list_elem_of_In, List.filter_In. intros [_ H].
  by apply negb_true_iff in H.
Qed.

Lemma fresh_markable (h : gmap string bool) es e :
  e ∈ fresh h es → event_id e = "__proto__" → is_Some (h !! "__proto__").
Proof.
  intros Hin Hid. apply fresh_unrecorded in Hin. unfold dedupHit in Hin. rewrite Hid in Hin.
  destruct (h !! "__proto__"); [by eexists | done].
Qed.

Lemma mark_fresh_lookup (h : gmap string bool) es id :
  mark h (fresh h es) !! id
  = if decide (id ∈ event_id <$> fresh h es) then Some true else h !! id.
Proof. apply mark_lookup. intros e. apply fresh_markable. Qed.

Lemma isEventCleared_false latest id :
  isEventCleared latest id = false ↔ id ∈ event_id <$> latest.
Proof.
  unfold isEventCleared. induction latest as [|e l IH]; cbn.
  - split; [done | by intros ?%elem_of_nil].
  - case_bool_decide as He.
    + split; [intros _; subst; by left | done].
    + rewrite IH. split; [by right|]. intros [?|?]%elem_of_cons; congruence.
Qed.

Lemma cleanup_fold_lookup latest ks : ∀ (h : gmap string bool) id,
  foldl (λ h eventID, if isEventCleared latest eventID then delete eventID h else h) h ks !! id
  = if decide (id ∈ ks ∧ isEventCleared latest id = true) then None else h !! id.
Proof.
  induction ks as [|k ks IH]; intros h id; cbn.
  - rewrite decide_False; [done|]. intros [?%elem_of_nil _]. done.
  - rewrite IH. destruct (decide (id ∈ ks ∧ isEventCleared latest id = true)) as [[Hin Hc]|Hn].
    + rewrite decide_True; [done|]. split; [by right | done].
    + destruct (isEventCleared latest k) eqn:Hk.
      * destruct (decide (id = k)) as [->|Hne].
        -- rewrite lookup_delete_eq. rewrite decide_True; [done|]. split; [by left|done].
        -- rewrite lookup_delete_ne by done. rewrite decide_False; [done|].
           intros [[?|?]%elem_of_cons ?]; [congruence | tauto].
      * rewrite decide_False; [done|].
        intros [[?|?]%elem_of_cons ?]; [congruence | tauto].
Qed.

Lemma elem_of_dedupKeys (h : gmap string bool) id : id ∈ dedupKeys h ↔ is_Some (h !! id).
Proof.
  unfold dedupKeys. rewrite list_elem_of_fmap. split.
  - intros [[k v] [-> Hin]]. apply elem_of_map_to_list in Hin. by exists v.
  - intros [v Hv]. exists (id, v). split; [done|]. by apply elem_of_map_to_list.
Qed.

Lemma cleanupDedupFilter_lookup latest s id :
  _dedupHash (state (cleanupDedupFilter latest s)) !! id
  = if decide (id ∈ event_id <$> latest) then _dedupHash s !! id else None.
Proof.
  unfold cleanupDedupFilter. unfold_prog. cbn.
  rewrite cleanup_fold_lookup.
  destruct (decide (id ∈ event_id <$> latest)) as [Hin|Hout].
  - rewrite decide_False; [done|]. intros [_ Hc].
    apply isEventCleared_false in Hin. congruence.
  - destruct (_dedupHash s !! id) eqn:Hl.
    + rewrite decide_True; [done|]. split.
      * apply elem_of_dedupKeys. by rewrite Hl.
      * destruct (isEventCleared latest id) eqn:Hc; [done|].
        by apply isEventCleared_false in Hc.
    + by case_decide.
Qed.

(** *** The callback of a fetch *)

Lemma catching_doLongPoll handler s :
  is_Some (_longPollInfo s) →
  catching (doLongPoll qs_parse) handler s = doLongPoll qs_parse s.
Proof.
  intros [info Hi]. rewrite catching_eq, doLongPoll_eq, Hi.
  destruct (destroyed s); [done|].
  destruct (_ >? _); cbn; done.
Qed.

Lemma catching_gets {A} (f : EventStream → A) k handler s :
  catching (gets f ≫= k) handler s = catching (k (f s)) handler s.
Proof. by rewrite !catching_eq, gets_bind. Qed.

Lemma catching_modify f k handler s :
  catching (modify f ≫= k) handler s = catching (k tt) handler (f s).
Proof. by rewrite !catching_eq, modify_bind. Qed.

Lemma fetchEvents_then_invalid events s :
  entries events = None ∨ truthy_cursor (next_stream_position events) = None →
  fetchEvents_then qs_parse events s
  = catching (doLongPoll qs_parse) fetchEvents_catch (limited s).
Proof.
  intros H. unfold fetchEvents_then. rewrite catching_gets, catching_modify.
  unfold limited.
  destruct (entries events) as [es|], (truthy_cursor _) as [n|]; try done.
  destruct H; congruence.
Qed.

Lemma fetchEvents_then_stale events s es next :
  entries events = Some es →
  truthy_cursor (next_stream_position events) = Some next →
  fresh (_dedupHash s) es = [] →
  fetchEvents_then qs_parse events s
  = catching (doLongPoll qs_parse) fetchEvents_catch (set_streamPosition next (limited s)).
Proof.
  intros He Hn Hf. unfold fetchEvents_then. rewrite catching_gets, catching_modify.
  rewrite He, Hn. rewrite catching_modify, catching_gets. cbn.
  unfold fresh in Hf. rewrite Hf. done.
Qed.

Lemma fetchEvents_then_batch events s es next :
  entries events = Some es →
  truthy_cursor (next_stream_position events) = Some next →
  fresh (_dedupHash s) es ≠ [] →
  let batch := fresh (_dedupHash s) es in
  let s3 := delivered next batch s in
  fetchEvents_then qs_parse events s
  = (Fulfilled (Some true),
     (if Z.of_nat (size (_dedupHash s3)) >=? deduplicationFilterSize (_options s)
      then state (cleanupDedupFilter es s3) else s3),
     Pause :: (Push <$> batch) ++ (if paused s then [] else [Resume])).
Proof.
  intros He Hn Hf batch s3.
  assert (Hlen : (List.length batch =? 0)%nat = false).
  { subst batch. destruct (fresh _ _); [by destruct Hf | done]. }
  unfold fetchEvents_then, catching. unfold_prog.
  rewrite He, Hn. cbn. fold (fresh (_dedupHash s) es). fold batch.
  rewrite Hlen. cbn. rewrite pushEvents_eq. cbn.
  subst s3. unfold delivered, limited.
  destruct (paused s) eqn:Hp; cbn.
  - destruct (_ >=? _); unfold cleanupDedupFilter; unfold_prog;
      rewrite ?app_nil_r; reflexivity.
  - destruct (_ >=? _); unfold cleanupDedupFilter; unfold_prog;
      rewrite ?app_nil_r; reflexivity.
Qed.

(** The poll that follows a response without news, with the [.catch] of
    [fetchEvents] around it. *)
Lemma catching_doLongPoll_eq (handler : Error → Feed Completion) s :
  catching (doLongPoll qs_parse) handler s =
  if destroyed s then (Fulfilled (Some false), s, [])
  else match _longPollInfo s with
       | Some _ => doLongPoll qs_parse s
       | None => handler typeError s
       end.
Proof.
  rewrite catching_eq, doLongPoll_eq. destruct (destroyed s); [done|].
  destruct (_longPollInfo s) as [info|]; [by destruct (_ >? _)|]. cbn.
  by destruct (handler typeError s) as [[? ?] ?].
Qed.

(** The ways the callback of a fetch can go. *)
Lemma fetchEvents_then_cases events s :
  (∃ s1, (s1 = limited s ∨ ∃ next, s1 = set_streamPosition next (limited s))
         ∧ fetchEvents_then qs_parse events s
           = catching (doLongPoll qs_parse) fetchEvents_catch s1)
  ∨ (∃ es next,
       entries events = Some es
       ∧ truthy_cursor (next_stream_position events) = Some next
       ∧ fresh (_dedupHash s) es ≠ []
       ∧ fetchEvents_then qs_parse events s
         = (Fulfilled (Some true),
            (if Z.of_nat (size (_dedupHash (delivered next (fresh (_dedupHash s) es) s)))
                >=? deduplicationFilterSize (_options s)
             then state (cleanupDedupFilter es (delivered next (fresh (_dedupHash s) es) s))
             else delivered next (fresh (_dedupHash s) es) s),
            Pause :: (Push <$> fresh (_dedupHash s) es)
              ++ (if paused s then [] else [Resume]))).
Proof.
  destruct (entries events) as [es|] eqn:He;
    [destruct (truthy_cursor (next_stream_position events)) as [next|] eqn:Hn|].
  - destruct (decide (fresh (_dedupHash s) es = [])) as [Hf|Hf].
    + left. eexists. split; [right; by eexists|]. by apply (fetchEvents_then_stale _ _ es).
    + right. exists es, next. repeat split; try done.
      by apply fetchEvents_then_batch.
  - left. eexists. split; [by left|]. apply fetchEvents_then_invalid. auto.
  - left. eexists. split; [by left|]. apply fetchEvents_then_invalid. auto.
Qed.

(** *** What the callbacks leave alone *)

Lemma retryPollInfo_position s :
  _streamPosition (state (retryPollInfo s)) = _streamPosition s.
Proof. rewrite retryPollInfo_eq. by destruct (destroyed s). Qed.

Lemma doLongPoll_position s :
  _streamPosition (state (doLongPoll qs_parse s)) = _streamPosition s.
Proof.
  rewrite doLongPoll_eq. destruct (destroyed s); [done|].
  destruct (_longPollInfo s); [|done]. by destruct (_ >? _).
Qed.

Lemma catching_state_frame {A} (f : EventStream → A) body handler :
  (∀ s, f (state (body s)) = f s) →
  (∀ e s, f (state (handler e s)) = f s) →
  ∀ s, f (state (catching body handler s)) = f s.
Proof.
  intros Hb Hh s. rewrite catching_eq. specialize (Hb s).
  destruct (result (body s)); try done. cbn. by rewrite Hh.
Qed.

Lemma settles_state_frame {A} (f : EventStream → A) outer callback :
  (∀ s, f (state (callback s)) = f s) →
  (∀ s, f (state (retryPollInfo s)) = f s) →
  ∀ s, f (state (settles outer callback s)) = f s.
Proof.
  intros Hb Hh s. rewrite settles_eq. specialize (Hb s).
  destruct (result (callback s)); try done. cbn. by rewrite rejects_frame.
Qed.

Lemma fetchEvents_catch_frame {A} (f : EventStream → A) e s :
  (∀ s0, f (state (retryPollInfo s0)) = f s0) →
  f (state (fetchEvents_catch e s)) = f s.
Proof. intros Hf. rewrite fetchEvents_catch_eq. destruct (listening s); cbn; auto. Qed.

Lemma getLongPollInfo_catch_frame {A} (f : EventStream → A) e s :
  (∀ s0, f (state (retryPollInfo s0)) = f s0) →
  f (state (getLongPollInfo_catch e s)) = f s.
Proof.
  intros Hf. rewrite getLongPollInfo_catch_eq.
  destruct (listening s); [destruct (authExpired e)|]; cbn; auto.
Qed.

Lemma doLongPoll_catch_frame {A} (f : EventStream → A) s :
  (∀ s0, f (state (retryPollInfo s0)) = f s0) →
  f (state (doLongPoll_catch s)) = f s.
Proof. intros Hf. rewrite doLongPoll_catch_eq. cbn. auto. Qed.

Lemma cleanupDedupFilter_position latest s :
  _streamPosition (state (cleanupDedupFilter latest s)) = _streamPosition s.
Proof. reflexivity. Qed.

Lemma delivered_position next batch s :
  _streamPosition (delivered next batch s) = next.
Proof. unfold delivered. by destruct (paused s). Qed.

Lemma delivered_dedupHash next batch s :
  _dedupHash (delivered next batch s) = mark (_dedupHash s) batch.
Proof. unfold delivered. by destruct (paused s). Qed.

(** *** Logs *)

Lemma pushed_app a b : pushed (a ++ b) = pushed a ++ pushed b.
Proof. apply omap_app. Qed.

Lemma pushed_Push evs : pushed (Push <$> evs) = evs.
Proof. induction evs as [|e evs IH]; cbn; [done | by f_equal]. Qed.

Lemma quiet_catching_doLongPoll s :
  pushed (actions (catching (doLongPoll qs_parse) fetchEvents_catch s)) = [].
Proof.
  rewrite catching_doLongPoll_eq, doLongPoll_eq.
  destruct (destroyed s) eqn:Hd; [done|].
  destruct (_longPollInfo s).
  - by destruct (_ >? _).
  - rewrite fetchEvents_catch_eq, retryPollInfo_eq, Hd. by destruct (listening s).
Qed.


(** *** The steps of the stream *)

Lemma getLongPollInfo_then_eq info s :
  getLongPollInfo_then qs_parse info s
  = doLongPoll qs_parse (set_longPollRetries 0 (set_longPollInfo (Some info) s)).
Proof.
  unfold getLongPollInfo_then. rewrite !catching_modify.
  apply catching_doLongPoll. by eexists.
Qed.

Lemma doLongPoll_not_thrown s e :
  is_Some (_longPollInfo s) → result (doLongPoll qs_parse s) ≠ Thrown e.
Proof.
  intros [info Hi]. rewrite doLongPoll_eq, Hi. destruct (destroyed s); [done|].
  by destruct (_ >? _).
Qed.

Lemma handle_discovered outer info s :
  handle qs_parse (ILongPollInfo outer (Resolved info)) s
  = doLongPoll qs_parse (set_longPollRetries 0 (set_longPollInfo (Some info) s)).
Proof.
  cbn [handle]. rewrite settles_eq, getLongPollInfo_then_eq.
  pose proof (doLongPoll_not_thrown
                (set_longPollRetries 0 (set_longPollInfo (Some info) s))) as H.
  destruct (result (doLongPoll qs_parse _)) eqn:Hr; try done.
  edestruct H; [by eexists | done].
Qed.

Lemma handle_discovery_failed outer err s :
  handle qs_parse (ILongPollInfo outer (Rejected err)) s
  = if listening s
    then if authExpired err then (Fulfilled None, s, [EmitError err])
         else (Fulfilled None, state (retryPollInfo s),
               EmitError err :: actions (retryPollInfo s))
    else (result (rejects outer err s), state (rejects outer err s),
          EmitError err :: actions (rejects outer err s)).
Proof.
  cbn [handle]. rewrite settles_eq, getLongPollInfo_catch_eq.
  destruct (listening s); [by destruct (authExpired err) | done].
Qed.

(** Whether the listener hears it or not, a failed fetch ends with the
    retry scheduled: by the handler of [fetchEvents] when [emit] returns,
    by the handler of [doLongPoll] around it when [emit] throws. *)
Lemma handle_fetch_failed err s :
  handle qs_parse (IEvents (Rejected err)) s
  = (Fulfilled None, state (retryPollInfo s), EmitError err :: actions (retryPollInfo s)).
Proof.
  cbn [handle]. rewrite settles_eq, fetchEvents_catch_eq.
  destruct (listening s) eqn:Hl; [done|]. cbn [result state actions fst snd].
  rewrite rejects_cons, doLongPoll_catch_eq. done.
Qed.

Lemma settles_polled s :
  settles [OfDoLongPoll] (catching (doLongPoll qs_parse) fetchEvents_catch) s
  = if destroyed s then (Fulfilled (Some false), s, [])
    else match _longPollInfo s with
         | Some _ => doLongPoll qs_parse s
         | None => (Fulfilled None, state (retryPollInfo s),
                    EmitError typeError :: actions (retryPollInfo s))
         end.
Proof.
  rewrite settles_eq, catching_doLongPoll_eq.
  destruct (destroyed s) eqn:Hd; [done|].
  destruct (_longPollInfo s) as [info|] eqn:Hi.
  - pose proof (doLongPoll_not_thrown s) as H.
    destruct (result (doLongPoll qs_parse s)) eqn:Hr; try done.
    edestruct H; [by eexists | done].
  - rewrite fetchEvents_catch_eq. destruct (listening s); [done|].
    cbn [result state actions fst snd]. rewrite rejects_cons, doLongPoll_catch_eq. done.
Qed.

(** The ways the response of a fetch can go. *)
Lemma handle_fetched_cases events s :
  (∃ s1, (s1 = limited s ∨ ∃ next, s1 = set_streamPosition next (limited s))
         ∧ handle qs_parse (IEvents (Resolved events)) s
           = settles [OfDoLongPoll] (catching (doLongPoll qs_parse) fetchEvents_catch) s1)
  ∨ (∃ es next,
       entries events = Some es
       ∧ truthy_cursor (next_stream_position events) = Some next
       ∧ fresh (_dedupHash s) es ≠ []
       ∧ handle qs_parse (IEvents (Resolved events)) s
         = (Fulfilled (Some true),
            (if Z.of_nat (size (_dedupHash (delivered next (fresh (_dedupHash s) es) s)))
                >=? deduplicationFilterSize (_options s)
             then state (cleanupDedupFilter es (delivered next (fresh (_dedupHash s) es) s))
             else delivered next (fresh (_dedupHash s) es) s),
            Pause :: (Push <$> fresh (_dedupHash s) es)
              ++ (if paused s then [] else [Resume]))).
Proof.
  cbn [handle].
  destruct (fetchEvents_then_cases events s)
    as [(s1 & Hs1 & Heq)|(es & next & He & Hn & Hf & Heq)].
  - left. exists s1. split; [done|]. by rewrite !settles_eq, Heq.
  - right. exists es, next. repeat split; try done. by rewrite settles_eq, Heq.
Qed.

Lemma doLongPoll_then_eq data s :
  doLongPoll_then qs_parse data s =
  if destroyed s then (Fulfilled (Some false), s, [])
  else if bool_decide (poll_message data = "reconnect") then getLongPollInfo s
  else if bool_decide (poll_message data = "new_change")
       then (Awaiting, s, [AwaitRateLimiter (_rateLimiter s) (_streamPosition s) 500])
  else match _longPollInfo s with
       | Some _ => doLongPoll qs_parse s
       | None => (Fulfilled None, state (retryPollInfo s), actions (retryPollInfo s))
       end.
Proof.
  unfold doLongPoll_then. rewrite catching_gets.
  destruct (destroyed s) eqn:Hd; [done|].
  case_bool_decide as Hr.
  - rewrite catching_eq, getLongPollInfo_eq, Hd. done.
  - case_bool_decide as Hn; cbn [negb].
    + rewrite catching_eq. unfold fetchEvents. prog_step. by rewrite Hd.
    + rewrite catching_doLongPoll_eq, Hd. destruct (_longPollInfo s); [done|].
      apply doLongPoll_catch_eq.
Qed.

Lemma destroy_eq s :
  destroy s =
  if destroyed s then (tt, s, [])
  else (tt, set_retryTimer None (set_destroyed true s),
        [EmitCloseNextTick; ClearTimeout (_retryTimer s)]).
Proof. unfold destroy, _destroy. unfold_prog. by destruct (destroyed s). Qed.

Lemma handle_read s :
  handle qs_parse IRead s
  = (Fulfilled None, s, if destroyed s then [] else [ReqLongPollInfo]).
Proof.
  cbn [handle]. unfold _read. unfold_prog. rewrite getLongPollInfo_eq.
  by destruct (destroyed s).
Qed.

Lemma handle_destroy s :
  handle qs_parse IDestroy s
  = (Fulfilled None, state (destroy s), actions (destroy s)).
Proof.
  cbn [handle]. unfold_prog. destruct (destroy s) as [[[] ?] ?]. cbn. by rewrite app_nil_r.
Qed.

Lemma handle_listen on s :
  handle qs_parse (IListen on) s = (Fulfilled None, set_listening on s, []).
Proof. reflexivity. Qed.


(** C2 (as amended).  A fetch pushes exactly the entries for which
    [_dedupHash[event_id]] is falsy when the response arrives, in the
    order of the response.  For an id that is not the name of a property
    every object has, that is: exactly the entries whose id is not
    recorded.  An id recorded before is never pushed again, while an entry
    repeated inside one response is pushed each time it occurs, so the
    response [A, B, A, C] with none of the ids in the hash is delivered
    as A, B, A, C. *)
Theorem fetch_pushes_unrecorded_entries events s es next :
  entries events = Some es →
  truthy_cursor (next_stream_position events) = Some next →
  let out := pushed (actions (fetchEvents_then qs_parse events s)) in
  out = fresh (_dedupHash s) es
  ∧ (∀ e, e ∈ out ↔ e ∈ es ∧ dedupHit (_dedupHash s) (event_id e) = false)
  ∧ (∀ e, inherited (event_id e) = false →
          (e ∈ out ↔ e ∈ es ∧ _dedupHash s !! event_id e ≠ Some true))
  ∧ (∀ e, e ∈ es → _dedupHash s !! event_id e = Some true → e ∉ out)
  ∧ (∀ A B C, es = [A; B; A; C] →
       dedupHit (_dedupHash s) (event_id A) = false →
       dedupHit (_dedupHash s) (event_id B) = false →
       dedupHit (_dedupHash s) (event_id C) = false →
       out = [A; B; A; C]).
Proof.
  intros He Hn out.
  assert (Hout : out = fresh (_dedupHash s) es).
  { subst out. destruct (fresh (_dedupHash s) es) as [|b bs] eqn:Hf.
    - rewrite (fetchEvents_then_stale _ _ es next) by done.
      apply quiet_catching_doLongPoll.
    - rewrite (fetchEvents_then_batch _ _ es next) by (done || by rewrite Hf).
      cbn [actions snd]. rewrite Hf.
      change (Pause :: ?l) with ([Pause] ++ l).
      rewrite !pushed_app, pushed_Push. cbn. destruct (paused s); cbn; by rewrite app_nil_r. }
  assert (Hin : ∀ e, e ∈ out ↔ e ∈ es ∧ dedupHit (_dedupHash s) (event_id e) = false).
  { intros e. rewrite Hout. unfold fresh.
    rewrite !list_elem_of_In, List.filter_In, negb_true_iff. done. }
  split; [done|]. split; [done|]. split; [|split].
  - intros e Hi. rewrite Hin. unfold dedupHit. rewrite Hi.
    destruct (_dedupHash s !! event_id e) as [[|]|]; split; intros [? ?]; split; done.
  - intros e _ Hrec [_ Hhit]%Hin. unfold dedupHit in Hhit. by rewrite Hrec in Hhit.
  - intros A B C -> HA HB HC. rewrite Hout. unfold fresh. cbn. by rewrite HA, HB, HC.
Qed.

(** C7.  After a batch has been pushed, if the number of tracked ids has
    reached [deduplicationFilterSize] the filter keeps exactly the tracked
    ids that occur as [event_id] in the fetched entries and forgets every
    other one; below the threshold the filter is left as it is. *)
Theorem dedup_filter_pruned_at_threshold events s es next :
  entries events = Some es →
  truthy_cursor (next_stream_position events) = Some next →
  fresh (_dedupHash s) es ≠ [] →
  let tracked := mark (_dedupHash s) (fresh (_dedupHash s) es) in
  let after := _dedupHash (state (fetchEvents_then qs_parse events s)) in
  (Z.of_nat (size tracked) >= deduplicationFilterSize (_options s) →
     (∀ id, after !! id = if decide (id ∈ event_id <$> es) then tracked !! id else None)
     ∧ dom after = filter (λ id, id ∈ event_id <$> es) (dom tracked))
  ∧ (Z.of_nat (size tracked) < deduplicationFilterSize (_options s) → after = tracked).
Proof.
  intros He Hn Hf tracked after. subst after.
  rewrite (fetchEvents_then_batch _ _ es next) by done.
  cbn [state fst snd]. rewrite delivered_dedupHash. fold tracked.
  split.
  - intros Hge.
    assert (Hb : (Z.of_nat (size tracked) >=? deduplicationFilterSize (_options s)) = true)
      by (apply Z.geb_le; lia).
    rewrite Hb.
    assert (Hl : ∀ id,
      _dedupHash (state (cleanupDedupFilter es
        (delivered next (fresh (_dedupHash s) es) s))) !! id
      = if decide (id ∈ event_id <$> es) then tracked !! id else None).
    { intros id. rewrite cleanupDedupFilter_lookup, delivered_dedupHash. done. }
    split; [done|].
    apply set_eq. intros id. rewrite elem_of_filter, !elem_of_dom, Hl.
    case_decide as Hin; [tauto|]. split; [by intros [? ?] | tauto].
  - intros Hlt. destruct (_ >=? _) eqn:Hb; [|by rewrite delivered_dedupHash].
    apply Z.geb_le in Hb. lia.
Qed.

Lemma settles_frame {A} (f : EventStream → A) outer callback s :
  (∀ s0, f (state (retryPollInfo s0)) = f s0) →
  f (state (settles outer callback s)) = f (state (callback s)).
Proof.
  intros Hf. rewrite settles_eq. destruct (result (callback s)); try done.
  cbn. by rewrite rejects_frame.
Qed.

Lemma fetchEvents_then_position events s :
  _streamPosition (state (fetchEvents_then qs_parse events s))
  = default (_streamPosition s) (cursor_of (IEvents (Resolved events))).
Proof.
  cbn [cursor_of].
  assert (Hc : ∀ e s0, _streamPosition (state (fetchEvents_catch e s0)) = _streamPosition s0)
    by (intros e s0; apply (fetchEvents_catch_frame _streamPosition), retryPollInfo_position).
  destruct (entries events) as [es|] eqn:He;
    [destruct (truthy_cursor (next_stream_position events)) as [next|] eqn:Hn|].
  - cbn [default]. destruct (fresh (_dedupHash s) es) as [|b bs] eqn:Hf.
    + rewrite (fetchEvents_then_stale _ _ es next) by done.
      rewrite (catching_state_frame _streamPosition); auto using doLongPoll_position.
    + rewrite (fetchEvents_then_batch _ _ es next) by (done || by rewrite Hf).
      cbn [state fst snd]. destruct (_ >=? _).
      * rewrite cleanupDedupFilter_position. apply delivered_position.
      * apply delivered_position.
  - rewrite fetchEvents_then_invalid by auto.
    rewrite (catching_state_frame _streamPosition); auto using doLongPoll_position.
  - rewrite fetchEvents_then_invalid by auto.
    rewrite (catching_state_frame _streamPosition); auto using doLongPoll_position.
Qed.

Lemma handle_position i s :
  _streamPosition (state (handle qs_parse i s))
  = default (_streamPosition s) (cursor_of i).
Proof.
  destruct i as [| |outer [info|err]|[data|err]|pos limit|[events|err]| |on];
    cbn [cursor_of default].
  - by rewrite handle_read.
  - rewrite handle_destroy, destroy_eq. by destruct (destroyed s).
  - rewrite handle_discovered. by rewrite doLongPoll_position.
  - cbn [handle]. rewrite (settles_frame _streamPosition) by apply retryPollInfo_position.
    apply (getLongPollInfo_catch_frame _streamPosition), retryPollInfo_position.
  - cbn [handle]. rewrite doLongPoll_then_eq. destruct (destroyed s) eqn:Hd; [done|].
    case_bool_decide; [by rewrite getLongPollInfo_eq, Hd|].
    case_bool_decide; [done|].
    destruct (_longPollInfo s); [apply doLongPoll_position | apply retryPollInfo_position].
  - cbn [handle]. rewrite doLongPoll_catch_eq. apply retryPollInfo_position.
  - reflexivity.
  - cbn [handle]. rewrite (settles_frame _streamPosition) by apply retryPollInfo_position.
    apply fetchEvents_then_position.
  - rewrite handle_fetch_failed. apply retryPollInfo_position.
  - cbn [handle]. rewrite getLongPollInfo_eq. by destruct (destroyed s).
  - reflexivity.
Qed.

Lemma last_cons_any_default {A} (x : A) l d d' :
  List.last (x :: l) d = List.last (x :: l) d'.
Proof.
  revert x. induction l as [|y l IH]; intros x; [done|].
  change (List.last (y :: l) d = List.last (y :: l) d'). apply IH.
Qed.

Lemma run_position inputs : ∀ s,
  _streamPosition (run qs_parse inputs s).1
  = List.last (omap cursor_of inputs) (_streamPosition s).
Proof.
  induction inputs as [|i inputs IH]; intros s; [done|].
  cbn [run fst]. rewrite IH, handle_position. cbn [omap list_omap].
  destruct (cursor_of i) as [c|]; cbn [default]; [|done].
  destruct (omap cursor_of inputs) as [|c' cs]; [done|].
  change (List.last (c :: c' :: cs) (_streamPosition s))
    with (List.last (c' :: cs) (_streamPosition s)).
  apply last_cons_any_default.
Qed.

Lemma emittedErrors_doLongPoll s :
  is_Some (_longPollInfo s) → emittedErrors (actions (doLongPoll qs_parse s)) = [].
Proof.
  intros [info Hi]. rewrite doLongPoll_eq, Hi. destruct (destroyed s); [done|].
  by destruct (_ >? _).
Qed.

Lemma pushed_doLongPoll s : pushed (actions (doLongPoll qs_parse s)) = [].
Proof.
  rewrite doLongPoll_eq. destruct (destroyed s); [done|].
  destruct (_longPollInfo s); [|done]. by destruct (_ >? _).
Qed.

(** C5.  The stream position is set only from the cursor of a validated
    fetch response: handling any input leaves it unchanged unless the
    input is a fetch response with an entry list and a usable cursor, in
    which case it becomes that cursor; a response lacking either is a
    no-op that goes back to long polling, keeps the position, emits no
    error and pushes nothing. *)
Theorem position_set_only_by_validated_fetch :
  (∀ i s, _streamPosition (state (handle qs_parse i s)) = _streamPosition s
          ∨ ∃ events es next,
              i = IEvents (Resolved events) ∧ entries events = Some es
              ∧ truthy_cursor (next_stream_position events) = Some next
              ∧ _streamPosition (state (handle qs_parse i s)) = next)
  ∧ (∀ inputs s, _streamPosition (run qs_parse inputs s).1
                 = List.last (omap cursor_of inputs) (_streamPosition s))
  ∧ (∀ events s,
       is_Some (_longPollInfo s) →
       entries events = None ∨ truthy_cursor (next_stream_position events) = None →
       let r := fetchEvents_then qs_parse events s in
       r = doLongPoll qs_parse (limited s)
       ∧ _streamPosition (state r) = _streamPosition s
       ∧ emittedErrors (actions r) = []
       ∧ pushed (actions r) = []).
Proof.
  split; [|split].
  - intros i s. rewrite handle_position.
    destruct (cursor_of i) as [c|] eqn:Hc; [right|by left].
    destruct i as [| |? [?|?]|[?|?]|? ?|[events|?]| |?]; try discriminate.
    cbn in Hc. destruct (entries events) as [es|] eqn:He; [|discriminate].
    by exists events, es, c.
  - apply run_position.
  - intros events s Hi Hbad r. subst r.
    rewrite fetchEvents_then_invalid by done.
    rewrite catching_doLongPoll by done.
    split; [done|]. split; [by rewrite doLongPoll_position|].
    split; [by apply emittedErrors_doLongPoll | apply pushed_doLongPoll].
Qed.

(** *** Failures *)

Lemma retryPollInfo_log s :
  emittedErrors (actions (retryPollInfo s)) = []
  ∧ scheduled (actions (retryPollInfo s))
    = if destroyed s then [] else [(timerSupply s, retryDelay (_options s))].
Proof. rewrite retryPollInfo_eq. by destruct (destroyed s). Qed.

Lemma rejects_thrown outer e : ∀ s e',
  result (rejects outer e s) = Thrown e' →
  e' = e ∧ (OfDoLongPoll ∉ outer) ∧ (outer = [] ∨ listening s = false).
Proof.
  induction outer as [|frame outer IH]; intros s e'.
  - cbn. intros [= <-]. split; [done|]. split; [by intros ?%elem_of_nil | by left].
  - rewrite rejects_cons. destruct frame.
    + rewrite getLongPollInfo_catch_eq. destruct (listening s) eqn:Hl.
      * by destruct (authExpired e).
      * cbn. intros (-> & Hn & _)%IH. split; [done|]. split; [|by right].
        intros [?|?]%elem_of_cons; done.
    + by rewrite doLongPoll_catch_eq.
    + rewrite fetchEvents_catch_eq. destruct (listening s) eqn:Hl; [done|].
      cbn. intros (-> & Hn & _)%IH. split; [done|]. split; [|by right].
      intros [?|?]%elem_of_cons; done.
Qed.

(** The only step that ends in a rejection nothing handles: a failed
    discovery on a stream without a listener for ['error'], its chain not
    started under the callback of [doLongPoll]. *)
Lemma handle_thrown i s e :
  result (handle qs_parse i s) = Thrown e →
  listening s = false
  ∧ ∃ outer, i = ILongPollInfo outer (Rejected e) ∧ (OfDoLongPoll ∉ outer).
Proof.
  destruct i as [| |outer [info|err]|[data|err]|pos limit|[events|err]| |on].
  - by rewrite handle_read.
  - by rewrite handle_destroy.
  - rewrite handle_discovered. intros H. by apply doLongPoll_not_thrown in H; [|eexists].
  - rewrite handle_discovery_failed. destruct (listening s) eqn:Hl.
    + by destruct (authExpired err).
    + cbn. intros (-> & Hn & _)%rejects_thrown. split; [done|]. by exists outer.
  - cbn [handle]. rewrite doLongPoll_then_eq. destruct (destroyed s) eqn:Hd; [done|].
    case_bool_decide as Hr; [by rewrite getLongPollInfo_eq, Hd|].
    case_bool_decide as Hn; [done|].
    destruct (_longPollInfo s) eqn:Hi; [|done].
    intros H. by apply doLongPoll_not_thrown in H; [|eexists].
  - cbn [handle]. by rewrite doLongPoll_catch_eq.
  - done.
  - destruct (handle_fetched_cases events s)
      as [(s1 & _ & ->)|(es & next & _ & _ & _ & ->)]; [|done].
    rewrite settles_polled. destruct (destroyed s1); [done|].
    destruct (_longPollInfo s1) eqn:Hi; [|done].
    intros H. by apply doLongPoll_not_thrown in H; [|eexists].
  - by rewrite handle_fetch_failed.
  - cbn [handle]. rewrite getLongPollInfo_eq. by destruct (destroyed s).
  - done.
Qed.

(** C3 (as amended).  On a stream with a listener for ['error'], a failed
    discovery and a failed fetch emit the error and, unless the stream is
    destroyed, schedule one retry after [retryDelay] ms; a discovery
    error carrying the auth-expired marker is emitted and schedules
    nothing.  A failed long-poll wait is not emitted: it only schedules
    the retry.  None of this throws out of [_read], which only issues the
    discovery request, and with a listener no callback of the cycle ends
    in a rejection.  With no listener [emit] throws the error: a failed
    discovery whose chain was started by [_read] or by the timer then
    schedules nothing and leaves a rejection nothing handles; under the
    callback of [doLongPoll], and for a failed fetch, the handler of
    [doLongPoll] schedules the retry. *)
Theorem cycle_errors_emitted_and_retried err s :
  let retry := if destroyed s then [] else [(timerSupply s, retryDelay (_options s))] in
  (listening s = true →
     (∀ outer,
        let r := handle qs_parse (ILongPollInfo outer (Rejected err)) s in
        emittedErrors (actions r) = [err]
        ∧ scheduled (actions r) = (if authExpired err then [] else retry)
        ∧ result r = Fulfilled None)
     ∧ (let r := handle qs_parse (IEvents (Rejected err)) s in
        emittedErrors (actions r) = [err]
        ∧ scheduled (actions r) = retry
        ∧ result r = Fulfilled None)
     ∧ (∀ i e, result (handle qs_parse i s) ≠ Thrown e))
  ∧ (let r := handle qs_parse (ILongPoll (Rejected err)) s in
     emittedErrors (actions r) = [] ∧ scheduled (actions r) = retry
     ∧ result r = Fulfilled None)
  ∧ handle qs_parse IRead s
    = (Fulfilled None, s, if destroyed s then [] else [ReqLongPollInfo])
  ∧ (listening s = false →
     handle qs_parse (ILongPollInfo [] (Rejected err)) s = (Thrown err, s, [EmitError err])
     ∧ (∀ outer,
          let r := handle qs_parse (ILongPollInfo (OfDoLongPoll :: outer) (Rejected err)) s in
          emittedErrors (actions r) = [err] ∧ scheduled (actions r) = retry
          ∧ result r = Fulfilled None)
     ∧ (let r := handle qs_parse (IEvents (Rejected err)) s in
        emittedErrors (actions r) = [err] ∧ scheduled (actions r) = retry
        ∧ result r = Fulfilled None))
  ∧ (∀ i e, result (handle qs_parse i s) = Thrown e →
            listening s = false
            ∧ ∃ outer, i = ILongPollInfo outer (Rejected e) ∧ (OfDoLongPoll ∉ outer)).
Proof.
  intros retry. subst retry.
  assert (Hfetch : let r := handle qs_parse (IEvents (Rejected err)) s in
            emittedErrors (actions r) = [err]
            ∧ scheduled (actions r)
              = (if destroyed s then [] else [(timerSupply s, retryDelay (_options s))])
            ∧ result r = Fulfilled None).
  { cbv zeta. rewrite handle_fetch_failed, retryPollInfo_eq. by destruct (destroyed s). }
  split; [|split; [|split; [|split]]].
  - intros Hl. split; [|split; [done|]].
    + intros outer. cbv zeta. rewrite handle_discovery_failed, Hl, retryPollInfo_eq.
      by destruct (authExpired err), (destroyed s).
    + intros i e H. apply handle_thrown in H as [H _]. congruence.
  - cbn [handle]. rewrite doLongPoll_catch_eq, retryPollInfo_eq. by destruct (destroyed s).
  - apply handle_read.
  - intros Hl. split; [|split; [|done]].
    + by rewrite handle_discovery_failed, Hl.
    + intros outer. cbv zeta.
      rewrite handle_discovery_failed, Hl, rejects_cons, doLongPoll_catch_eq, retryPollInfo_eq.
      by destruct (destroyed s).
  - intros i e. apply handle_thrown.
Qed.

(** C8.  A long-poll wait is requested at the URL of the current
    long-poll info cut at its [?], with the query parameters already in
    that URL kept as they are and [stream_position] set to the current
    stream position, and with a timeout of [retry_timeout * 1000] ms; the
    attempt counter is incremented with the request; when the counter
    exceeds [max_retries] the stream re-discovers instead, without a wait
    request. *)
Theorem long_poll_request s info :
  destroyed s = false →
  _longPollInfo s = Some info →
  let r := doLongPoll qs_parse s in
  let parts := splitUrl qs_parse (url info) in
  (_longPollRetries s > max_retries info →
     actions r = [ReqLongPollInfo] ∧ state r = s)
  ∧ (_longPollRetries s <= max_retries info →
     ∃ q, actions r = [ReqGet parts.1 q (retry_timeout info * 1000)]
          ∧ q !! "stream_position" = Some [_streamPosition s]
          ∧ (∀ k, k ≠ "stream_position" → q !! k = parts.2 !! k)
          ∧ _longPollRetries (state r) = _longPollRetries s + 1)
  ∧ (∀ n, indexOf "?" (url info) = Some (S n) →
          parts = (substr_to (S n) (url info),
                   qs_parse (substr_from (S n + 1) (url info))))
  ∧ (indexOf "?" (url info) = None ∨ indexOf "?" (url info) = Some 0%nat →
     parts = (url info, ∅)).
Proof.
  intros Hd Hi r parts. subst r. rewrite doLongPoll_eq, Hd, Hi.
  split; [|split; [|split]].
  - intros Hgt. apply Z.gt_lt, Z.gtb_lt in Hgt. by rewrite Hgt.
  - intros Hle. destruct (_ >? _) eqn:Hc; [apply Z.gtb_lt in Hc; lia|].
    eexists. split; [reflexivity|]. split; [apply lookup_insert_eq|].
    split; [|done]. intros k Hk. by rewrite lookup_insert_ne.
  - intros n Hn. subst parts. unfold splitUrl. by rewrite Hn.
  - intros [Hn|Hn]; subst parts; unfold splitUrl; by rewrite Hn.
Qed.

(** *** Destruction *)

Lemma destroy_idempotent s :
  destroy (state (destroy s)) = (tt, state (destroy s), []).
Proof. rewrite !destroy_eq. by destruct (destroyed s) eqn:Hd; cbn; rewrite ?Hd. Qed.

Lemma destroyed_steps_short_circuit s data :
  destroyed s = true →
  getLongPollInfo s = (Fulfilled (Some false), s, [])
  ∧ doLongPoll qs_parse s = (Fulfilled (Some false), s, [])
  ∧ fetchEvents s = (Fulfilled (Some false), s, [])
  ∧ retryPollInfo s = (tt, s, [])
  ∧ doLongPoll_then qs_parse data s = (Fulfilled (Some false), s, []).
Proof.
  intros Hd. rewrite getLongPollInfo_eq, doLongPoll_eq, retryPollInfo_eq, Hd.
  repeat split.
  - unfold fetchEvents. unfold_prog. by rewrite Hd.
  - by rewrite doLongPoll_then_eq, Hd.
Qed.

End Facts.

(** *** The theorems at sample streams *)

Lemma fetch_pushes_unrecorded_entries_witness :
  (entries (mkEvents (Some [evA; evB; evA; evC]) (Some "200")) = Some [evA; evB; evA; evC]
   ∧ truthy_cursor (next_stream_position (mkEvents (Some [evA; evB; evA; evC]) (Some "200")))
     = Some "200")
  ∧ pushed (actions (fetchEvents_then qs_parse_plain
                       (mkEvents (Some [evA; evB; evA; evC]) (Some "200")) polling))
    = fresh (_dedupHash polling) [evA; evB; evA; evC].
Proof.
  split; [split; reflexivity|].
  apply (fetch_pushes_unrecorded_entries qs_parse_plain
           (mkEvents (Some [evA; evB; evA; evC]) (Some "200")) polling
           [evA; evB; evA; evC] "200"); reflexivity.
Defined.

(** Claim C2 as stated fails: the response [A, B, A, C] with no id
    recorded is delivered as A, B, A, C, not as A, B, C. *)
Lemma repeated_entry_pushed_twice :
  pushed (actions (fetchEvents_then qs_parse_plain
                     (mkEvents (Some [evA; evB; evA; evC]) (Some "200")) polling))
  = [evA; evB; evA; evC]
  ∧ pushed (actions (fetchEvents_then qs_parse_plain
                       (mkEvents (Some [evA; evB; evA; evC]) (Some "200")) polling))
    ≠ [evA; evB; evC].
Proof.
  assert (H : pushed (actions (fetchEvents_then qs_parse_plain
                (mkEvents (Some [evA; evB; evA; evC]) (Some "200")) polling))
              = [evA; evB; evA; evC]) by (vm_compute; reflexivity).
  split; [exact H|]. rewrite H. discriminate.
Qed.

(** An entry whose id is [constructor] is held back although the hash is
    empty, and its id is not recorded. *)
Lemma inherited_name_held_back :
  let r := fetchEvents_then qs_parse_plain
             (mkEvents (Some [evCtor; evA]) (Some "200")) polling in
  pushed (actions r) = [evA]
  ∧ _dedupHash (state r) !! "constructor" = None
  ∧ _dedupHash (state r) !! "A" = Some true.
Proof. vm_compute. repeat split. Qed.

Lemma dedup_filter_pruned_at_threshold_witness :
  let after := _dedupHash (state (fetchEvents_then qs_parse_plain
                 (mkEvents (Some [evA; mkEvent "old1" "ITEM_MOVE"]) (Some "200")) crowded)) in
  after !! "old2" = None ∧ after !! "old1" = Some true ∧ after !! "A" = Some true.
Proof.
  destruct (dedup_filter_pruned_at_threshold qs_parse_plain
              (mkEvents (Some [evA; mkEvent "old1" "ITEM_MOVE"]) (Some "200")) crowded
              [evA; mkEvent "old1" "ITEM_MOVE"] "200" eq_refl eq_refl) as [Hprune _].
  { vm_compute. discriminate. }
  destruct Hprune as [Hl _].
  { vm_compute. discriminate. }
  cbv zeta. rewrite !Hl. vm_compute. repeat split.
Defined.

Lemma position_set_only_by_validated_fetch_witness :
  _streamPosition (state (fetchEvents_then qs_parse_plain
                            (mkEvents None (Some "200")) polling)) = "100"
  ∧ emittedErrors (actions (fetchEvents_then qs_parse_plain
                              (mkEvents None (Some "200")) polling)) = [].
Proof.
  destruct (proj2 (proj2 (position_set_only_by_validated_fetch qs_parse_plain))
              (mkEvents None (Some "200")) polling) as (_ & Hp & He & _).
  - by eexists.
  - by left.
  - split; [exact Hp | exact He].
Defined.

Lemma cycle_errors_emitted_and_retried_witness :
  (listening polling = true
   ∧ emittedErrors (actions (handle qs_parse_plain (IEvents (Rejected timedOut)) polling))
     = [timedOut]
   ∧ scheduled (actions (handle qs_parse_plain (IEvents (Rejected timedOut)) polling))
     = [(0%nat, 1000)])
  ∧ (listening unheard = false
     ∧ handle qs_parse_plain (ILongPollInfo [] (Rejected timedOut)) unheard
       = (Thrown timedOut, unheard, [EmitError timedOut])).
Proof.
  split.
  - split; [reflexivity|].
    destruct (proj1 (cycle_errors_emitted_and_retried qs_parse_plain timedOut polling)
                eq_refl) as (_ & (He & Hs & _) & _).
    split; [exact He | exact Hs].
  - split; [reflexivity|].
    exact (proj1 (proj1 (proj2 (proj2 (proj2
             (cycle_errors_emitted_and_retried qs_parse_plain timedOut unheard))))
             eq_refl)).
Defined.

(** Claim C3 as stated fails: a failed long-poll wait emits nothing; it
    only schedules the retry. *)
Lemma wait_error_not_emitted :
  emittedErrors (actions (handle qs_parse_plain (ILongPoll (Rejected timedOut)) polling)) = []
  ∧ scheduled (actions (handle qs_parse_plain (ILongPoll (Rejected timedOut)) polling))
    = [(0%nat, 1000)].
Proof. vm_compute. split; reflexivity. Qed.

Lemma long_poll_request_witness :
  ∃ q, actions (doLongPoll qs_parse_plain polling)
       = [ReqGet "https://rt.box.com/subscribe" q 610000]
       ∧ q !! "stream_position" = Some ["100"]
       ∧ q !! "channel" = Some ["c1"]
       ∧ q !! "stream_type" = Some ["all"].
Proof.
  destruct (long_poll_request qs_parse_plain polling
              (mkLongPollInfo 10 610 "https://rt.box.com/subscribe?channel=c1&stream_type=all")
              eq_refl eq_refl) as (_ & Hreq & _).
  destruct Hreq as (q & Ha & Hp & Hk & _).
  { vm_compute. discriminate. }
  exists q. split; [exact Ha|]. split; [exact Hp|].
  split; (rewrite Hk; [vm_compute; reflexivity | discriminate]).
Defined.

(** The one parameter that is set rather than kept: a [stream_position]
    the long-poll URL itself carries gives way to the current position,
    the other parameters of that URL stay. *)
Lemma url_stream_position_overwritten :
  actions (doLongPoll qs_parse_plain carrying)
  = [ReqGet "https://rt.box.com/subscribe"
       (<["stream_position" := ["42"]]> (qs_parse_plain "channel=c1&stream_position=7"))
       610000]
  ∧ qs_parse_plain "channel=c1&stream_position=7" !! "stream_position" = Some ["7"]
  ∧ <["stream_position" := ["42"]]> (qs_parse_plain "channel=c1&stream_position=7")
      !! "stream_position" = Some ["42"]
  ∧ <["stream_position" := ["42"]]> (qs_parse_plain "channel=c1&stream_position=7")
      !! "channel" = Some ["c1"].
Proof. vm_compute. repeat split. Qed.

(** Claim C9, the code at the failing input.  After [destroy()], the
    response of a fetch that was in flight is still processed: the event
    is pushed and the position advances; a discovery that fails after
    [destroy()] still emits its error; and a fetch waiting on the rate
    limiter still issues its request. *)
Theorem destroyed_stream_still_delivers :
  let fetched := run qs_parse_plain
                   [IDestroy; IEvents (Resolved (mkEvents (Some [evA]) (Some "200")))]
                   polling in
  destroyed fetched.1 = true
  ∧ pushed fetched.2 = [evA]
  ∧ _streamPosition fetched.1 = "200"
  ∧ emittedErrors (run qs_parse_plain [IDestroy; ILongPollInfo [] (Rejected timedOut)] polling).2
    = [timedOut]
  ∧ (run qs_parse_plain [IDestroy; IRateLimiter "100" 500] polling).2
    = [EmitCloseNextTick; ClearTimeout None; ReqEvents "100" 500].
Proof. vm_compute. repeat split. Qed.


End EventStreamFacts.

(* ================================================================== *)
(** ** AppAuthSession *)
(* ================================================================== *)

Module AppAuthSessionFacts.
Import AppAuthSession.

Section Facts.
Variable isAccessTokenValid : Z → option TokenInfo → Z → bool.
Variable tm_revokeTokens : option string → TokenRequestOptions → Outcome unit.


Lemma _refreshAppAuthAccessToken_eq options w :
  _refreshAppAuthAccessToken options w =
  match _refreshPromise (session w) with
  | Some p => (p, w, [])
  | None => (promiseSupply w, refreshing w,
             [GrantCall (_type (session w)) (_id (session w)) options])
  end.
Proof.
  unfold _refreshAppAuthAccessToken. prog_step.
  destruct (_refreshPromise (session w)); reflexivity.
Qed.


Lemma follow_refresh options w :
  (p ← _refreshAppAuthAccessToken options; mret (Follows p)) w = refreshed options w.
Proof.
  unfold refreshed. unfold_prog.
  destruct (_refreshAppAuthAccessToken options w) as [[? ?] ?]. cbn.
  by rewrite app_nil_r.
Qed.

Lemma getAccessToken_eq now options w :
  getAccessToken isAccessTokenValid now options w =
  let s := session w in
  let buffer := Z.max (expiredBufferMS (_config s)) (staleBufferMS (_config s)) in
  match _tokenInfo s with
  | None => if _tokenStore s then (Reading options, w, [StoreRead])
            else refreshed options w
  | Some t => if isAccessTokenValid now (Some t) buffer
              then (Value (accessToken t), w, [])
              else refreshed options w
  end.
Proof.
  unfold getAccessToken. prog_step. cbv zeta.
  destruct (_tokenInfo (session w)) as [t|]; cbn.
  - unfold expirationBuffer. destruct (isAccessTokenValid _ _ _); cbn; [done|].
    apply follow_refresh.
  - destruct (_tokenStore _); cbn; [done|]. apply follow_refresh.
Qed.

Lemma getAccessToken_read_eq now options stored w :
  getAccessToken_read isAccessTokenValid now options stored w =
  let s := session w in
  let buffer := Z.max (expiredBufferMS (_config s)) (staleBufferMS (_config s)) in
  if isAccessTokenValid now stored buffer
  then match stored with
       | Some t => (Value (accessToken t), set_tokenInfo (Some t) w, [])
       | None => (Failed typeError, set_tokenInfo None w, [])
       end
  else refreshed options w.
Proof.
  unfold getAccessToken_read. prog_step. cbv zeta. unfold expirationBuffer.
  destruct (isAccessTokenValid _ _ _); cbn; [|apply follow_refresh].
  prog_step. by destruct stored.
Qed.


(** *** The refresh chain *)

Lemma refresh_granted_eq p o w :
  refresh_granted p o w =
  match chains w !! p, o with
  | Some Granting, Resolved tokenInfo =>
    if _tokenStore (session w)
    then (tt, set_chains (<[p := Writing tokenInfo]> (chains w))
                (set_tokenInfo (Some tokenInfo) w),
          [StoreWrite tokenInfo])
    else (tt, set_chains (<[p := Finishing (Resolved (accessToken tokenInfo))]> (chains w))
                (set_tokenInfo (Some tokenInfo) w),
          [])
  | Some Granting, Rejected e =>
    (tt, set_chains (<[p := Finishing (Rejected e)]> (chains w)) w, [])
  | _, _ => (tt, w, [])
  end.
Proof.
  unfold refresh_granted, advance. prog_step.
  destruct (chains w !! p) as [[]|]; try done. destruct o; [|done].
  prog_step. cbn. destruct (_tokenStore (session w)); [|done]. by prog_step.
Qed.

Lemma refresh_written_eq p o w :
  refresh_written p o w =
  match chains w !! p with
  | Some (Writing tokenInfo) =>
    (tt, set_chains (<[p := Finishing (then_ o (λ _, Resolved (accessToken tokenInfo)))]>
                       (chains w)) w, [])
  | _ => (tt, w, [])
  end.
Proof.
  unfold refresh_written, advance. prog_step. by destruct (chains w !! p) as [[]|].
Qed.

Lemma refresh_finally_eq p w :
  refresh_finally p w =
  match chains w !! p with
  | Some (Finishing o) =>
    (tt, set_chains (delete p (chains w))
           (set_settled (<[p := o]> (settled w)) (set_refreshPromise None w)), [])
  | _ => (tt, w, [])
  end.
Proof.
  unfold refresh_finally. prog_step. by destruct (chains w !! p) as [[]|].
Qed.

Lemma hold_bind (m : Sess Handle) c w :
  (h ← m; hold c h) w
  = (tt, set_handles (<[c := result (m w)]> (handles (state (m w)))) (state (m w)),
     actions (m w)).
Proof.
  unfold hold. unfold_prog. destruct (m w) as [[h w1] a]. cbn. by rewrite app_nil_r.
Qed.


Lemma coherent_start s : _refreshPromise s = None → coherent (start s).
Proof.
  intros H. split; cbn.
  - by rewrite H.
  - intros p [? Hp]. by rewrite lookup_empty in Hp.
  - intros p [? Hp]. by rewrite lookup_empty in Hp.
  - intros c p Hc. by rewrite lookup_empty in Hc.
Qed.

Lemma coherent_in_flight w p :
  coherent w → _refreshPromise (session w) = Some p → is_Some (chains w !! p).
Proof.
  intros [Hm _ _ _] Hp. rewrite Hp in Hm. destruct Hm as [st ->].
  rewrite lookup_singleton_eq. by eexists.
Qed.

Lemma coherent_chain_marker w p st :
  coherent w → chains w !! p = Some st →
  _refreshPromise (session w) = Some p ∧ chains w = {[p := st]}.
Proof.
  intros [Hm _ _ _] Hp. destruct (_refreshPromise (session w)) as [q|].
  - destruct Hm as [st' Hc]. rewrite Hc in Hp.
    apply lookup_singleton_Some in Hp as [-> ->]. done.
  - rewrite Hm, lookup_empty in Hp. done.
Qed.

Lemma coherent_refresh options w :
  coherent w →
  coherent (state (_refreshAppAuthAccessToken options w))
  ∧ is_Some (chains (state (_refreshAppAuthAccessToken options w))
               !! result (_refreshAppAuthAccessToken options w)).
Proof.
  intros Hw. rewrite _refreshAppAuthAccessToken_eq.
  destruct (_refreshPromise (session w)) as [p|] eqn:Hp; cbn.
  - split; [done|]. by apply coherent_in_flight.
  - destruct Hw as [Hm Hc Hs Hh]. rewrite Hp in Hm.
    split; [split; cbn|].
    + exists Granting. by rewrite Hm, insert_empty.
    + intros p. rewrite Hm, insert_empty. intros [? [-> _]%lookup_singleton_Some]. lia.
    + intros p Hsp. destruct (Hs p Hsp) as [Hlt _]. split; [lia|].
      rewrite Hm, insert_empty. apply lookup_singleton_ne. lia.
    + intros c p Hcp. destruct (Hh c p Hcp) as [Hin|Hin]; [|by right].
      rewrite Hm, lookup_empty in Hin. by destruct Hin.
    + cbn. rewrite lookup_insert_eq. by eexists.
Qed.

Lemma coherent_hold c h w :
  coherent w →
  (∀ p, h = Follows p → is_Some (chains w !! p)) →
  coherent (set_handles (<[c := h]> (handles w)) w).
Proof.
  intros [Hm Hc Hs Hh] Hp. split; cbn; try done.
  intros c' p. destruct (decide (c = c')) as [->|Hne].
  - rewrite lookup_insert_eq. intros [= ->]. left. by apply Hp.
  - rewrite lookup_insert_ne by done. apply Hh.
Qed.

Lemma coherent_set_tokenInfo t w : coherent w → coherent (set_tokenInfo t w).
Proof. intros [Hm Hc Hs Hh]. by split. Qed.

Lemma coherent_advance p st st' w :
  coherent w → chains w !! p = Some st →
  coherent (set_chains (<[p := st']> (chains w)) w).
Proof.
  intros Hw Hp. destruct (coherent_chain_marker _ _ _ Hw Hp) as [Hmk Hch].
  destruct Hw as [Hm Hc Hs Hh]. split; cbn.
  - rewrite Hmk. exists st'. by rewrite Hch, insert_singleton_eq.
  - intros q [x Hq]. apply Hc. destruct (decide (p = q)) as [->|Hne].
    + by rewrite Hp.
    + rewrite lookup_insert_ne in Hq by done. by rewrite Hq.
  - intros q Hq. destruct (Hs q Hq) as [Hlt Hn]. split; [done|].
    rewrite lookup_insert_ne; [done|]. intros ->. congruence.
  - intros c q Hcq. destruct (Hh c q Hcq) as [[x Hin]|Hin]; [left|by right].
    destruct (decide (p = q)) as [->|Hne].
    + rewrite lookup_insert_eq. by eexists.
    + rewrite lookup_insert_ne by done. by rewrite Hin.
Qed.

Lemma coherent_finally p o w :
  coherent w → chains w !! p = Some (Finishing o) →
  coherent (set_chains (delete p (chains w))
              (set_settled (<[p := o]> (settled w)) (set_refreshPromise None w))).
Proof.
  intros Hw Hp. destruct (coherent_chain_marker _ _ _ Hw Hp) as [Hmk Hch].
  destruct Hw as [Hm Hc Hs Hh]. split; cbn.
  - by rewrite Hch, delete_singleton_eq.
  - intros q [x Hq]. apply Hc. rewrite Hch, delete_singleton_eq, lookup_empty in Hq. done.
  - intros q. rewrite Hch, delete_singleton_eq, lookup_empty.
    destruct (decide (p = q)) as [->|Hne].
    + intros _. split; [|done]. apply Hc. by rewrite Hp.
    + rewrite lookup_insert_ne by done. intros Hq. split; [|done]. by apply Hs.
  - intros c q Hcq. right. destruct (decide (p = q)) as [->|Hne].
    + rewrite lookup_insert_eq. by eexists.
    + rewrite lookup_insert_ne by done.
      destruct (Hh c q Hcq) as [[x Hin]|Hin]; [|done].
      rewrite Hch in Hin. apply lookup_singleton_Some in Hin as [? _]. done.
Qed.


Lemma coherent_hold_refreshed c options w :
  coherent w →
  coherent (set_handles (<[c := result (refreshed options w)]>
                           (handles (state (refreshed options w))))
                        (state (refreshed options w))).
Proof.
  intros Hw. destruct (coherent_refresh options w Hw) as [Hc Hin].
  unfold refreshed. cbn. apply coherent_hold; [done|].
  intros p [= <-]. done.
Qed.

Lemma handle_coherent i w :
  coherent w → coherent (state (handle isAccessTokenValid tm_revokeTokens i w)).
Proof.
  intros Hw. destruct i as [c now options|c now o|p o|p o|p|options]; cbn [handle].
  - rewrite hold_bind, getAccessToken_eq. cbv zeta.
    destruct (_tokenInfo (session w)) as [t|].
    + destruct (isAccessTokenValid _ _ _).
      * by apply coherent_hold.
      * by apply coherent_hold_refreshed.
    + destruct (_tokenStore _).
      * by apply coherent_hold.
      * by apply coherent_hold_refreshed.
  - prog_step. destruct (handles w !! c) as [[| | |options]|]; try done.
    destruct o as [stored|e].
    + rewrite hold_bind, getAccessToken_read_eq. cbv zeta.
      destruct (isAccessTokenValid _ _ _).
      * destruct stored; (apply coherent_hold; [by apply coherent_set_tokenInfo | done]).
      * by apply coherent_hold_refreshed.
    + unfold hold, modify. cbn. by apply coherent_hold.
  - rewrite refresh_granted_eq. destruct (chains w !! p) as [[]|] eqn:Hp; try done.
    destruct o as [t|e].
    + destruct (_tokenStore _); cbn;
        apply (coherent_advance p Granting _ (set_tokenInfo (Some t) w));
        auto using coherent_set_tokenInfo.
    + by apply (coherent_advance p Granting).
  - rewrite refresh_written_eq. destruct (chains w !! p) as [[]|] eqn:Hp; try done.
    by eapply coherent_advance.
  - rewrite refresh_finally_eq. destruct (chains w !! p) as [[]|] eqn:Hp; try done.
    by apply coherent_finally.
  - unfold revokeTokens. prog_step. cbn. by apply coherent_set_tokenInfo.
Qed.

Lemma run_coherent inputs : ∀ w,
  coherent w → coherent (run isAccessTokenValid tm_revokeTokens inputs w).1.
Proof.
  induction inputs as [|i inputs IH]; intros w Hw; [done|].
  cbn [run fst]. apply IH. by apply handle_coherent.
Qed.

Lemma coherent_one_chain w :
  coherent w →
  (size (chains w) ≤ 1)%nat
  ∧ (_refreshPromise (session w) = None ↔ chains w = ∅).
Proof.
  intros [Hm _ _ _]. destruct (_refreshPromise (session w)) as [p|].
  - destruct Hm as [st ->]. rewrite map_size_singleton. split; [lia|].
    split; [done|]. intros H. by apply map_non_empty_singleton in H.
  - rewrite Hm, map_size_empty. split; [lia | done].
Qed.



Lemma getAccessToken_refreshes now options w :
  refreshes isAccessTokenValid (session w) now = true →
  getAccessToken isAccessTokenValid now options w = refreshed options w.
Proof.
  unfold refreshes. rewrite getAccessToken_eq. cbv zeta. unfold expirationBuffer.
  destruct (_tokenInfo (session w)) as [t|]; cbn.
  - by destruct (isAccessTokenValid _ _ _).
  - by destruct (_tokenStore _).
Qed.

Lemma refreshed_in_flight options w p :
  _refreshPromise (session w) = Some p → refreshed options w = (Follows p, w, []).
Proof. intros Hp. unfold refreshed. by rewrite _refreshAppAuthAccessToken_eq, Hp. Qed.

Lemma refreshed_idle options w :
  _refreshPromise (session w) = None →
  refreshed options w
  = (Follows (promiseSupply w), refreshing w,
     [GrantCall (_type (session w)) (_id (session w)) options]).
Proof. intros Hp. unfold refreshed. by rewrite _refreshAppAuthAccessToken_eq, Hp. Qed.

(** A call that needs a token while a refresh is in flight attaches to it. *)
Lemma call_attaches w p c now options :
  _refreshPromise (session w) = Some p →
  refreshes isAccessTokenValid (session w) now = true →
  handle isAccessTokenValid tm_revokeTokens (ICall c now options) w
  = (tt, set_handles (<[c := Follows p]> (handles w)) w, []).
Proof.
  intros Hp Hr. cbn [handle].
  rewrite hold_bind, getAccessToken_refreshes, (refreshed_in_flight _ _ p) by done.
  done.
Qed.

Lemma read_attaches w p c now options stored :
  _refreshPromise (session w) = Some p →
  handles w !! c = Some (Reading options) →
  isAccessTokenValid now stored (expirationBuffer (_config (session w))) = false →
  handle isAccessTokenValid tm_revokeTokens (IRead c now (Resolved stored)) w
  = (tt, set_handles (<[c := Follows p]> (handles w)) w, []).
Proof.
  intros Hp Hc Hv. cbn [handle]. prog_step. rewrite Hc.
  rewrite hold_bind, getAccessToken_read_eq. cbv zeta.
  unfold expirationBuffer in Hv. rewrite Hv.
  by rewrite (refreshed_in_flight _ _ p).
Qed.

Lemma grantCalls_app a b : grantCalls (a ++ b) = (grantCalls a + grantCalls b)%nat.
Proof. unfold grantCalls. by rewrite List.filter_app, length_app. Qed.

(** While the marker is set, only the finally callback of that refresh
    clears it, and nothing calls the grant. *)
Lemma in_flight_step w p i :
  coherent w →
  _refreshPromise (session w) = Some p →
  i ≠ IFinally p →
  let r := handle isAccessTokenValid tm_revokeTokens i w in
  _refreshPromise (session (state r)) = Some p ∧ grantCalls (actions r) = 0%nat.
Proof.
  intros Hw Hp Hi. cbv zeta.
  destruct i as [c now options|c now o|q o|q o|q|options]; cbn [handle].
  - rewrite hold_bind, getAccessToken_eq. cbv zeta.
    rewrite !(refreshed_in_flight _ _ p) by done.
    destruct (_tokenInfo (session w)) as [t|].
    + by destruct (isAccessTokenValid _ _ _).
    + by destruct (_tokenStore _).
  - prog_step. destruct (handles w !! c) as [[| | |options]|]; try done.
    destruct o as [stored|e]; [|done].
    rewrite hold_bind, getAccessToken_read_eq. cbv zeta.
    rewrite !(refreshed_in_flight _ _ p) by done.
    destruct (isAccessTokenValid _ _ _); [|done]. by destruct stored.
  - rewrite refresh_granted_eq. destruct (chains w !! q) as [[]|]; try done.
    destruct o; [|done]. by destruct (_tokenStore _).
  - rewrite refresh_written_eq. by destruct (chains w !! q) as [[]|].
  - rewrite refresh_finally_eq. destruct (chains w !! q) as [[]|] eqn:Hq; try done.
    destruct (coherent_chain_marker _ _ _ Hw Hq) as [Hm _]. congruence.
  - unfold revokeTokens. prog_step. done.
Qed.

Lemma in_flight_run inputs : ∀ w p,
  coherent w →
  _refreshPromise (session w) = Some p →
  IFinally p ∉ inputs →
  let r := run isAccessTokenValid tm_revokeTokens inputs w in
  _refreshPromise (session r.1) = Some p ∧ grantCalls r.2 = 0%nat.
Proof.
  induction inputs as [|i inputs IH]; intros w p Hw Hp Hn; [done|].
  cbn [run fst snd]. apply not_elem_of_cons in Hn as [Hi Hn].
  destruct (in_flight_step w p i Hw Hp) as [Hp' Hg]; [done|].
  destruct (IH _ p (handle_coherent i w Hw) Hp' Hn) as [Hp'' Hg'].
  split; [done|]. cbv zeta in Hg, Hg'. by rewrite grantCalls_app, Hg, Hg'.
Qed.




Lemma attached_lookup p calls : ∀ h x,
  x ∈ calls → attached p calls h !! x.1.1 = Some (Follows p).
Proof.
  induction calls as [|y calls IH] using rev_ind; intros h x Hx.
  - by apply elem_of_nil in Hx.
  - unfold attached in *. rewrite foldl_app. cbn.
    destruct (decide (y.1.1 = x.1.1)) as [->|Hne]; [apply lookup_insert_eq|].
    rewrite lookup_insert_ne by done. apply IH.
    apply elem_of_app in Hx as [Hx|Hx%list_elem_of_singleton]; [done|by subst].
Qed.

Lemma set_handles_twice a b w : set_handles a (set_handles b w) = set_handles a w.
Proof. done. Qed.

Lemma attach_all calls : ∀ w p,
  _refreshPromise (session w) = Some p →
  (∀ x, x ∈ calls → refreshes isAccessTokenValid (session w) x.1.2 = true) →
  run isAccessTokenValid tm_revokeTokens (callInputs calls) w
  = (set_handles (attached p calls (handles w)) w, []).
Proof.
  induction calls as [|x calls IH]; intros w p Hp Hr.
  - by destruct w.
  - cbn [callInputs fmap list_fmap run].
    rewrite (call_attaches w p) by (done || apply Hr; by left).
    cbn [state actions fst snd]. fold (callInputs calls).
    rewrite (IH _ p); [done|done|]. intros y Hy. apply Hr. by right.
Qed.

Lemma first_call_refreshes w c now options :
  _refreshPromise (session w) = None →
  refreshes isAccessTokenValid (session w) now = true →
  handle isAccessTokenValid tm_revokeTokens (ICall c now options) w
  = (tt, set_handles (<[c := Follows (promiseSupply w)]> (handles w)) (refreshing w),
     [GrantCall (_type (session w)) (_id (session w)) options]).
Proof.
  intros Hp Hr. cbn [handle].
  by rewrite hold_bind, getAccessToken_refreshes, refreshed_idle.
Qed.


Lemma granted_stage w p o :
  chains w = {[p := Granting]} →
  let w' := state (handle isAccessTokenValid tm_revokeTokens (IGrant p o) w) in
  chains w' = {[p := match o with
                     | Resolved t => if _tokenStore (session w) then Writing t
                                     else Finishing (Resolved (accessToken t))
                     | Rejected e => Finishing (Rejected e)
                     end]}
  ∧ handles w' = handles w ∧ settled w' = settled w
  ∧ _tokenStore (session w') = _tokenStore (session w)
  ∧ _refreshPromise (session w') = _refreshPromise (session w)
  ∧ grantCalls (actions (handle isAccessTokenValid tm_revokeTokens (IGrant p o) w)) = 0%nat.
Proof.
  intros Hc. cbn [handle]. rewrite refresh_granted_eq, Hc, lookup_singleton_eq.
  destruct o as [t|e]; [destruct (_tokenStore (session w)) eqn:Hst|]; cbn;
    by rewrite ?Hc, ?Hst, insert_singleton_eq.
Qed.

Lemma written_stage w p t o :
  chains w = {[p := Writing t]} →
  let w' := state (handle isAccessTokenValid tm_revokeTokens (IWrite p o) w) in
  chains w' = {[p := Finishing (then_ o (λ _, Resolved (accessToken t)))]}
  ∧ handles w' = handles w ∧ settled w' = settled w
  ∧ session w' = session w
  ∧ actions (handle isAccessTokenValid tm_revokeTokens (IWrite p o) w) = [].
Proof.
  intros Hc. cbn [handle]. rewrite refresh_written_eq, Hc, lookup_singleton_eq. cbn.
  by rewrite ?Hc, insert_singleton_eq.
Qed.

Lemma written_skipped w p st o :
  chains w = {[p := Finishing st]} →
  handle isAccessTokenValid tm_revokeTokens (IWrite p o) w = (tt, w, []).
Proof.
  intros Hc. cbn [handle]. by rewrite refresh_written_eq, Hc, lookup_singleton_eq.
Qed.

Lemma finally_clears w p o :
  chains w = {[p := Finishing o]} →
  let w' := state (handle isAccessTokenValid tm_revokeTokens (IFinally p) w) in
  _refreshPromise (session w') = None
  ∧ chains w' = ∅
  ∧ settled w' !! p = Some o
  ∧ handles w' = handles w
  ∧ actions (handle isAccessTokenValid tm_revokeTokens (IFinally p) w) = [].
Proof.
  intros Hc. cbn [handle]. rewrite refresh_finally_eq, Hc, lookup_singleton_eq. cbn.
  by rewrite ?Hc, delete_singleton_eq, lookup_insert_eq.
Qed.

(** Whatever the grant and the store write answer, the chain ends with
    the marker cleared and the refresh promise settled. *)
Lemma chain_completes w p granted written :
  chains w = {[p := Granting]} →
  let r := run isAccessTokenValid tm_revokeTokens
             [IGrant p granted; IWrite p written; IFinally p] w in
  _refreshPromise (session r.1) = None
  ∧ chains r.1 = ∅
  ∧ settled r.1 !! p = Some (chainOutcome (_tokenStore (session w)) granted written)
  ∧ handles r.1 = handles w
  ∧ grantCalls r.2 = 0%nat.
Proof.
  intros Hc. cbn [run fst snd].
  destruct (granted_stage w p granted Hc) as (Hc1 & Hh1 & Hs1 & Hst1 & _ & Hg1).
  cbv zeta in *. set (w1 := state (handle _ _ (IGrant p granted) w)) in *.
  rewrite !grantCalls_app, Hg1. unfold chainOutcome.
  destruct granted as [t|e]; [destruct (_tokenStore (session w))|]; cbn [then_].
  - destruct (written_stage w1 p t written Hc1) as (Hc2 & Hh2 & Hs2 & _ & Ha2).
    cbv zeta in *. set (w2 := state (handle _ _ (IWrite p written) w1)) in *.
    destruct (finally_clears w2 p _ Hc2) as (Hm3 & Hc3 & Hs3 & Hh3 & Ha3).
    cbv zeta in *. rewrite Ha2, Ha3. repeat split; try done. congruence.
  - rewrite (written_skipped w1 p _ written Hc1). cbn [state actions fst snd].
    destruct (finally_clears w1 p _ Hc1) as (Hm3 & Hc3 & Hs3 & Hh3 & Ha3).
    cbv zeta in *. rewrite Ha3. repeat split; try done. congruence.
  - rewrite (written_skipped w1 p _ written Hc1). cbn [state actions fst snd].
    destruct (finally_clears w1 p _ Hc1) as (Hm3 & Hc3 & Hs3 & Hh3 & Ha3).
    cbv zeta in *. rewrite Ha3. repeat split; try done. congruence.
Qed.

(** The callers of a batch that finds no refresh in flight: the first
    starts the grant, the others attach to it. *)
Lemma batch_shares_one_grant w calls :
  coherent w →
  _refreshPromise (session w) = None →
  calls ≠ [] →
  (∀ x, x ∈ calls → refreshes isAccessTokenValid (session w) x.1.2 = true) →
  let p := promiseSupply w in
  let r := run isAccessTokenValid tm_revokeTokens (callInputs calls) w in
  grantCalls r.2 = 1%nat
  ∧ _refreshPromise (session r.1) = Some p
  ∧ chains r.1 = {[p := Granting]}
  ∧ _tokenStore (session r.1) = _tokenStore (session w)
  ∧ (∀ x, x ∈ calls → handles r.1 !! x.1.1 = Some (Follows p)).
Proof.
  intros Hw Hp Hne Hr. cbv zeta.
  destruct calls as [|x calls]; [done|].
  destruct Hw as [Hm _ _ _]. rewrite Hp in Hm.
  cbn [callInputs fmap list_fmap run]. fold (callInputs calls).
  rewrite first_call_refreshes by (done || apply Hr; by left).
  cbn [state actions fst snd].
  rewrite (attach_all calls _ (promiseSupply w)); [|done|];
    [|intros y Hy; apply (Hr y); by right].
  cbn [fst snd]. rewrite set_handles_twice. cbn.
  rewrite Hm, insert_empty. repeat split; try done.
  intros y Hy. apply (attached_lookup _ (x :: calls) (handles w) y Hy).
Qed.



Lemma refreshed_eq options w :
  refreshed options w =
  match _refreshPromise (session w) with
  | Some p => (Follows p, w, [])
  | None => (Follows (promiseSupply w), refreshing w,
             [GrantCall (_type (session w)) (_id (session w)) options])
  end.
Proof. unfold refreshed. rewrite _refreshAppAuthAccessToken_eq. by destruct (_refreshPromise _). Qed.

(** What holding the outcome of a refresh step does to the handles. *)
Lemma held_refreshed c options w c' q :
  handles (set_handles (<[c := result (refreshed options w)]>
                          (handles (state (refreshed options w))))
                       (state (refreshed options w))) !! c' = Some (Follows q) →
  handles w !! c' = Some (Follows q)
  ∨ _refreshPromise (session (state (refreshed options w))) = Some q.
Proof.
  rewrite refreshed_eq. destruct (_refreshPromise (session w)) as [p|] eqn:Hp; cbn.
  - destruct (decide (c = c')) as [->|Hne].
    + rewrite lookup_insert_eq. intros [= ->]. by right.
    + rewrite lookup_insert_ne by done. by left.
  - destruct (decide (c = c')) as [->|Hne].
    + rewrite lookup_insert_eq. intros [= <-]. by right.
    + rewrite lookup_insert_ne by done. by left.
Qed.

Lemma held_other c (h : Handle) w c' q :
  (∀ p, h ≠ Follows p) →
  <[c := h]> (handles w) !! c' = Some (Follows q) → handles w !! c' = Some (Follows q).
Proof.
  intros Hh. destruct (decide (c = c')) as [->|Hne].
  - rewrite lookup_insert_eq. intros [= ->]. by destruct (Hh q).
  - by rewrite lookup_insert_ne.
Qed.

Lemma grantCalls_refreshed options w :
  grantCalls (actions (refreshed options w))
  = match _refreshPromise (session w) with Some _ => 0%nat | None => 1%nat end
  ∧ is_Some (_refreshPromise (session (state (refreshed options w)))).
Proof.
  rewrite refreshed_eq. destruct (_refreshPromise (session w)) eqn:Hp; cbn.
  - rewrite Hp. by split; [|eexists].
  - by split; [|eexists].
Qed.

(** A step other than a finally callback calls the grant at most once,
    and only to set the marker; a caller that comes to follow a promise
    in it follows the marked one. *)
Lemma follow_step i w :
  coherent w →
  isFinally i = false →
  let r := handle isAccessTokenValid tm_revokeTokens i w in
  (grantCalls (actions r) ≤ 1)%nat
  ∧ (grantCalls (actions r) = 1%nat → is_Some (_refreshPromise (session (state r))))
  ∧ (∀ c q, handles (state r) !! c = Some (Follows q) →
            handles w !! c = Some (Follows q)
            ∨ _refreshPromise (session (state r)) = Some q).
Proof.
  intros Hw Hi. cbv zeta.
  destruct i as [c now options|c now o|p o|p o|p|options]; cbn [handle]; try done.
  - rewrite hold_bind, getAccessToken_eq. cbv zeta.
    destruct (grantCalls_refreshed options w) as [Hg Hm].
    assert (Hr : (grantCalls (actions (refreshed options w)) ≤ 1)%nat)
      by (rewrite Hg; destruct (_refreshPromise (session w)); lia).
    destruct (_tokenInfo (session w)) as [t|].
    + destruct (isAccessTokenValid _ _ _); cbn [state actions fst snd].
      * split; [cbn; lia|]. split; [done|]. intros c' q H. left. cbn in H. by apply held_other in H.
      * split; [done|]. split; [done|]. intros c' q. apply held_refreshed.
    + destruct (_tokenStore _); cbn [state actions fst snd].
      * split; [cbn; lia|]. split; [done|]. intros c' q H. left. cbn in H. by apply held_other in H.
      * split; [done|]. split; [done|]. intros c' q. apply held_refreshed.
  - prog_step. destruct (handles w !! c) as [[| | |options]|];
      try (cbn; split; [lia|]; split; [done|]; by auto).
    destruct o as [stored|e].
    + rewrite hold_bind, getAccessToken_read_eq. cbv zeta.
      destruct (grantCalls_refreshed options w) as [Hg Hm].
      assert (Hr : (grantCalls (actions (refreshed options w)) ≤ 1)%nat)
        by (rewrite Hg; destruct (_refreshPromise (session w)); lia).
      destruct (isAccessTokenValid _ _ _).
      * destruct stored; cbn; (split; [lia|]; split; [done|]);
          intros c' q H; left; cbn in H; by apply held_other in H.
      * split; [done|]. split; [done|]. intros c' q. apply held_refreshed.
    + cbn. split; [lia|]. split; [done|]. intros c' q H. left. cbn in H. by apply held_other in H.
  - rewrite refresh_granted_eq. destruct (chains w !! p) as [[]|], o as [t|e];
      try (cbn; split; [lia|]; split; [done|]; by auto).
    destruct (_tokenStore _); cbn; (split; [lia|]; split; [done|]; by auto).
  - rewrite refresh_written_eq.
    destruct (chains w !! p) as [[]|]; cbn; (split; [lia|]; split; [done|]; by auto).
  - rewrite discard_state, discard_actions. unfold revokeTokens. prog_step. cbn.
    split; [lia|]. split; [done|]. by auto.
Qed.

Lemma isFinally_false i : isFinally i = false → ∀ p, i ≠ IFinally p.
Proof. by destruct i. Qed.

(** As long as no refresh completes, the grant is called at most once,
    whatever arrives, and not at all when a refresh is in flight from the
    start; every caller that comes to follow a promise follows the
    marked one. *)
Lemma follow_run inputs : ∀ w,
  coherent w →
  existsb isFinally inputs = false →
  let r := run isAccessTokenValid tm_revokeTokens inputs w in
  (grantCalls r.2 ≤ 1)%nat
  ∧ (∀ p, _refreshPromise (session w) = Some p →
          _refreshPromise (session r.1) = Some p ∧ grantCalls r.2 = 0%nat)
  ∧ (∀ c q, handles r.1 !! c = Some (Follows q) →
            handles w !! c = Some (Follows q) ∨ _refreshPromise (session r.1) = Some q).
Proof.
  induction inputs as [|i inputs IH]; intros w Hw Hf; cbv zeta.
  - cbn. split; [lia|]. split; [done|]. by auto.
  - cbn [existsb] in Hf. apply orb_false_iff in Hf as [Hi Hf].
    cbn [run fst snd].
    destruct (follow_step i w Hw Hi) as (Hg & Hm & Hh). cbv zeta in Hg, Hm, Hh.
    destruct (IH _ (handle_coherent i w Hw) Hf) as (Hg' & Hm' & Hh'). cbv zeta in Hg', Hm', Hh'.
    rewrite grantCalls_app.
    assert (Hbusy : ∀ p, _refreshPromise (session w) = Some p →
              _refreshPromise (session (state (handle isAccessTokenValid tm_revokeTokens i w)))
              = Some p
              ∧ grantCalls (actions (handle isAccessTokenValid tm_revokeTokens i w)) = 0%nat).
    { intros p Hp. apply (in_flight_step w p i Hw Hp). by apply isFinally_false. }
    split; [|split].
    + destruct (decide (grantCalls (actions (handle isAccessTokenValid tm_revokeTokens i w))
                        = 1%nat)) as [H1|H1]; [|lia].
      destruct (Hm H1) as [p Hp]. destruct (Hm' p Hp) as [_ H0]. lia.
    + intros p Hp. destruct (Hbusy p Hp) as [Hp1 H0].
      destruct (Hm' p Hp1) as [Hp2 H0']. split; [done | lia].
    + intros c q Hc. destruct (Hh' c q Hc) as [Hc1|Hq]; [|by right].
      destruct (Hh c q Hc1) as [Hc0|Hq]; [by left|]. right.
      by destruct (Hm' q Hq).
Qed.

(** An arriving caller leaves the refresh alone or, when none is in
    flight, may start one. *)
Lemma arrival_step i w :
  arrival i = true →
  let r := handle isAccessTokenValid tm_revokeTokens i w in
  settled (state r) = settled w
  ∧ _tokenStore (session (state r)) = _tokenStore (session w)
  ∧ ((chains (state r) = chains w
      ∧ _refreshPromise (session (state r)) = _refreshPromise (session w)
      ∧ promiseSupply (state r) = promiseSupply w
      ∧ grantCalls (actions r) = 0%nat)
     ∨ (_refreshPromise (session w) = None
        ∧ chains (state r) = <[promiseSupply w := Granting]> (chains w)
        ∧ _refreshPromise (session (state r)) = Some (promiseSupply w)
        ∧ grantCalls (actions r) = 1%nat)).
Proof.
  intros Hi. cbv zeta.
  assert (Href : ∀ c options,
    let v := set_handles (<[c := result (refreshed options w)]>
                            (handles (state (refreshed options w))))
                         (state (refreshed options w)) in
    settled v = settled w
    ∧ _tokenStore (session v) = _tokenStore (session w)
    ∧ ((chains v = chains w
        ∧ _refreshPromise (session v) = _refreshPromise (session w)
        ∧ promiseSupply v = promiseSupply w
        ∧ grantCalls (actions (refreshed options w)) = 0%nat)
       ∨ (_refreshPromise (session w) = None
          ∧ chains v = <[promiseSupply w := Granting]> (chains w)
          ∧ _refreshPromise (session v) = Some (promiseSupply w)
          ∧ grantCalls (actions (refreshed options w)) = 1%nat))).
  { intros c options. cbv zeta. rewrite refreshed_eq.
    destruct (_refreshPromise (session w)) eqn:Hp; cbn; auto 10. }
  destruct i as [c now options|c now o| | | |]; try done; cbn [handle].
  - rewrite hold_bind, getAccessToken_eq. cbv zeta.
    destruct (_tokenInfo (session w)) as [t|].
    + destruct (isAccessTokenValid _ _ _); [cbn; auto 10 | apply Href].
    + destruct (_tokenStore (session w)) eqn:Hst; [cbn; rewrite ?Hst; auto 10 | apply Href].
  - prog_step. destruct (handles w !! c) as [[| | |options]|]; try (cbn; by auto 10).
    destruct o as [stored|e]; [|cbn; by auto 10].
    rewrite hold_bind, getAccessToken_read_eq. cbv zeta.
    destruct (isAccessTokenValid _ _ _); [|apply Href].
    destruct stored; cbn; auto 10.
Qed.

Lemma arrivals_run inputs : ∀ w,
  forallb arrival inputs = true →
  let r := run isAccessTokenValid tm_revokeTokens inputs w in
  settled r.1 = settled w
  ∧ _tokenStore (session r.1) = _tokenStore (session w)
  ∧ ((chains r.1 = chains w
      ∧ _refreshPromise (session r.1) = _refreshPromise (session w)
      ∧ promiseSupply r.1 = promiseSupply w
      ∧ grantCalls r.2 = 0%nat)
     ∨ (_refreshPromise (session w) = None
        ∧ chains r.1 = <[promiseSupply w := Granting]> (chains w)
        ∧ _refreshPromise (session r.1) = Some (promiseSupply w)
        ∧ grantCalls r.2 = 1%nat)).
Proof.
  induction inputs as [|i inputs IH]; intros w Ha; cbv zeta.
  - cbn. auto 10.
  - cbn [forallb] in Ha. apply andb_true_iff in Ha as [Hi Ha].
    cbn [run fst snd]. rewrite grantCalls_app.
    destruct (arrival_step i w Hi) as (Hs & Hst & Hcase). cbv zeta in Hs, Hst, Hcase.
    destruct (IH (state (handle isAccessTokenValid tm_revokeTokens i w)) Ha)
      as (Hs' & Hst' & Hcase'). cbv zeta in Hs', Hst', Hcase'.
    split; [congruence|]. split; [congruence|].
    destruct Hcase as [(Hc & Hm & Hp & Hg)|(Hn & Hc & Hm & Hg)].
    + destruct Hcase' as [(Hc' & Hm' & Hp' & Hg')|(Hn' & Hc' & Hm' & Hg')].
      * left. repeat split; try congruence. lia.
      * right. rewrite Hm in Hn'. rewrite Hp, Hc in Hc'. rewrite Hp in Hm'.
        repeat split; try done. lia.
    + destruct Hcase' as [(Hc' & Hm' & Hp' & Hg')|(Hn' & _)]; [|congruence].
      right. repeat split; try congruence. lia.
Qed.

(** C1 (as amended).  At most one refresh is in flight: in every world
    reached from a new session the chains in flight are none when the
    marker is clear and exactly the marked one otherwise.  A call that
    reaches the refresh step while the marker is set, directly or after
    reading an invalid token from the store, gets that same promise and
    no grant is called; a call in a session with a store and no token in
    memory reads the store first, marker or not.  As long as the finally
    callback of the refresh has not run the marker stays and the grant is
    not called again; and as long as no refresh completes the grant is
    called at most once whatever arrives, every caller that comes to
    follow a promise following the marked one.  The callers that arrive
    while no refresh completes, reading the store or not, thus share at
    most one grant call and all receive the same outcome, and the marker
    is cleared when the chain completes, whether the grant or the store
    write succeeded or failed.  A store read that answers with an invalid
    token when no refresh is in flight, be it that one has just
    completed, starts a new grant. *)
Theorem refresh_is_coalesced :
  (∀ s0 inputs,
     _refreshPromise s0 = None →
     let w := (run isAccessTokenValid tm_revokeTokens inputs (start s0)).1 in
     coherent w
     ∧ (size (chains w) ≤ 1)%nat
     ∧ (_refreshPromise (session w) = None ↔ chains w = ∅))
  ∧ (∀ w p c now options,
       _refreshPromise (session w) = Some p →
       (refreshes isAccessTokenValid (session w) now = true →
        handle isAccessTokenValid tm_revokeTokens (ICall c now options) w
        = (tt, set_handles (<[c := Follows p]> (handles w)) w, []))
       ∧ (∀ stored,
            handles w !! c = Some (Reading options) →
            isAccessTokenValid now stored (expirationBuffer (_config (session w))) = false →
            handle isAccessTokenValid tm_revokeTokens (IRead c now (Resolved stored)) w
            = (tt, set_handles (<[c := Follows p]> (handles w)) w, []))
       ∧ (_tokenInfo (session w) = None → _tokenStore (session w) = true →
          handle isAccessTokenValid tm_revokeTokens (ICall c now options) w
          = (tt, set_handles (<[c := Reading options]> (handles w)) w, [StoreRead])))
  ∧ (∀ w p inputs,
       coherent w →
       _refreshPromise (session w) = Some p →
       IFinally p ∉ inputs →
       let r := run isAccessTokenValid tm_revokeTokens inputs w in
       _refreshPromise (session r.1) = Some p ∧ grantCalls r.2 = 0%nat)
  ∧ (∀ w inputs,
       coherent w →
       existsb isFinally inputs = false →
       let r := run isAccessTokenValid tm_revokeTokens inputs w in
       (grantCalls r.2 ≤ 1)%nat
       ∧ (∀ c q, handles r.1 !! c = Some (Follows q) →
                 handles w !! c ≠ Some (Follows q) →
                 _refreshPromise (session r.1) = Some q))
  ∧ (∀ w calls granted written,
       coherent w →
       _refreshPromise (session w) = None →
       calls ≠ [] →
       (∀ x, x ∈ calls → refreshes isAccessTokenValid (session w) x.1.2 = true) →
       let p := promiseSupply w in
       let r1 := run isAccessTokenValid tm_revokeTokens (callInputs calls) w in
       let r2 := run isAccessTokenValid tm_revokeTokens
                   [IGrant p granted; IWrite p written; IFinally p] r1.1 in
       grantCalls (r1.2 ++ r2.2) = 1%nat
       ∧ (∀ x, x ∈ calls → handles r1.1 !! x.1.1 = Some (Follows p))
       ∧ _refreshPromise (session r2.1) = None
       ∧ chains r2.1 = ∅
       ∧ (∀ x, x ∈ calls →
            received r2.1 x.1.1
            = Some (chainOutcome (_tokenStore (session w)) granted written)))
  ∧ (∀ w inputs granted written,
       coherent w →
       _refreshPromise (session w) = None →
       forallb arrival inputs = true →
       let p := promiseSupply w in
       let r1 := run isAccessTokenValid tm_revokeTokens inputs w in
       let r2 := run isAccessTokenValid tm_revokeTokens
                   [IGrant p granted; IWrite p written; IFinally p] r1.1 in
       (_refreshPromise (session r1.1) = None ∧ grantCalls r1.2 = 0%nat
        ∧ ∀ c q, handles r1.1 !! c = Some (Follows q) → handles w !! c = Some (Follows q))
       ∨ (_refreshPromise (session r1.1) = Some p
          ∧ grantCalls (r1.2 ++ r2.2) = 1%nat
          ∧ _refreshPromise (session r2.1) = None
          ∧ chains r2.1 = ∅
          ∧ (∀ c q, handles r1.1 !! c = Some (Follows q) →
                    handles w !! c = Some (Follows q) ∨ q = p)
          ∧ (∀ c, handles r1.1 !! c = Some (Follows p) →
                  received r2.1 c
                  = Some (chainOutcome (_tokenStore (session w)) granted written))))
  ∧ (∀ w c1 c2 p,
       handles w !! c1 = Some (Follows p) →
       handles w !! c2 = Some (Follows p) →
       received w c1 = received w c2)
  ∧ (∀ w c now options stored,
       _refreshPromise (session w) = None →
       handles w !! c = Some (Reading options) →
       isAccessTokenValid now stored (expirationBuffer (_config (session w))) = false →
       handle isAccessTokenValid tm_revokeTokens (IRead c now (Resolved stored)) w
       = (tt, set_handles (<[c := Follows (promiseSupply w)]> (handles w)) (refreshing w),
          [GrantCall (_type (session w)) (_id (session w)) options])).
Proof.
  split; [|split; [|split; [|split; [|split; [|split; [|split]]]]]].
  - intros s0 inputs H0 w.
    assert (Hw : coherent w) by (apply run_coherent; by apply coherent_start).
    split; [done|]. by apply coherent_one_chain.
  - intros w p c now options Hp. split; [|split].
    + intros Hr. by apply call_attaches.
    + intros stored Hc Hv. by eapply read_attaches.
    + intros Ht Hs. cbn [handle]. rewrite hold_bind, getAccessToken_eq. cbv zeta.
      by rewrite Ht, Hs.
  - intros w p inputs Hw Hp Hn. by apply in_flight_run.
  - intros w inputs Hw Hf r. destruct (follow_run inputs w Hw Hf) as (Hg & _ & Hh).
    split; [done|]. intros c q Hc Hn. by destruct (Hh c q Hc).
  - intros w calls granted written Hw Hp Hne Hr p r1 r2.
    destruct (batch_shares_one_grant w calls Hw Hp Hne Hr)
      as (Hg1 & Hm1 & Hc1 & Hst1 & Hh1).
    cbv zeta in *. fold p in Hg1, Hm1, Hc1, Hh1. fold r1 in Hg1, Hm1, Hc1, Hst1, Hh1.
    destruct (chain_completes r1.1 p granted written Hc1)
      as (Hm2 & Hc2 & Hs2 & Hh2 & Hg2).
    cbv zeta in *. fold r2 in Hm2, Hc2, Hs2, Hh2, Hg2.
    rewrite grantCalls_app, Hg1, Hg2. repeat split; try done.
    intros x Hx. unfold received. rewrite Hh2, (Hh1 x Hx), Hs2. by rewrite Hst1.
  - intros w inputs granted written Hw Hp Ha p r1 r2.
    assert (Hf : existsb isFinally inputs = false).
    { clear -Ha. induction inputs as [|i inputs IH]; [done|].
      cbn in *. apply andb_true_iff in Ha as [Hi Ha]. rewrite (IH Ha).
      by destruct i. }
    destruct (follow_run inputs w Hw Hf) as (_ & _ & Hh). cbv zeta in Hh. fold r1 in Hh.
    destruct (arrivals_run inputs w Ha) as (Hs & Hst & Hcase). cbv zeta in Hs, Hst, Hcase.
    fold r1 in Hs, Hst, Hcase.
    assert (He : chains w = ∅) by (destruct Hw as [Hm _ _ _]; by rewrite Hp in Hm).
    destruct Hcase as [(Hc & Hm & Hsup & Hg)|(_ & Hc & Hm & Hg)].
    + left. rewrite Hm, Hp. split; [done|]. split; [done|].
      intros c q Hcq. destruct (Hh c q Hcq) as [?|Hq]; [done|]. congruence.
    + right. fold p in Hc, Hm. rewrite He, insert_empty in Hc.
      destruct (chain_completes r1.1 p granted written Hc)
        as (Hm2 & Hc2 & Hs2 & Hh2 & Hg2).
      cbv zeta in *. fold r2 in Hm2, Hc2, Hs2, Hh2, Hg2.
      rewrite grantCalls_app, Hg, Hg2. repeat split; try done.
      * intros c q Hcq. destruct (Hh c q Hcq) as [?|Hq]; [by left|]. right. congruence.
      * intros c Hcp. unfold received. rewrite Hh2, Hcp, Hs2. by rewrite Hst.
  - intros w c1 c2 p H1 H2. unfold received. by rewrite H1, H2.
  - intros w c now options stored Hp Hc Hv. cbn [handle]. prog_step. rewrite Hc.
    rewrite hold_bind, getAccessToken_read_eq. cbv zeta.
    unfold expirationBuffer in Hv. rewrite Hv. by rewrite refreshed_idle.
Qed.

(** C10.  [revokeTokens] on a session that holds no token still calls
    the token manager, with an absent access token; the token field stays
    clear, and the call returns what the token manager returns. *)
Theorem revoke_without_token options w :
  _tokenInfo (session w) = None →
  let r := revokeTokens tm_revokeTokens options w in
  result r = tm_revokeTokens None options
  ∧ actions r = [RevokeCall None options]
  ∧ _tokenInfo (session (state r)) = None
  ∧ state r = w.
Proof.
  intros Ht. unfold revokeTokens. prog_step. rewrite Ht. cbn.
  repeat split. destruct w as [[ty id cfg st ti rp] ch se ps hs]. cbn in *. by subst.
Qed.

(** C6.  Without a token store [handleExpiredTokensError] settles at
    once with the error it was given and calls no store.  With a store
    it first calls the store's clear; when that succeeds the promise
    rejects with the original error, when it fails the promise rejects
    with the error of the store, not with the original one. *)
Theorem expired_tokens_error_clears_store err w :
  (_tokenStore (session w) = false →
     handleExpiredTokensError err w = (Settles (Resolved err), w, []))
  ∧ (_tokenStore (session w) = true →
     handleExpiredTokensError err w = (Clearing, w, [StoreClear]))
  ∧ handleExpiredTokensError_cleared err (Resolved tt) = Rejected err
  ∧ (∀ e, handleExpiredTokensError_cleared err (Rejected e) = Rejected e).
Proof.
  unfold handleExpiredTokensError. prog_step. repeat split.
  - by intros ->.
  - intros ->. by prog_step.
Qed.

End Facts.

(** C4.  [getAccessToken] checks validity against the larger of the two
    buffers.  With no token in memory and a store it reads the store;
    the token read is refreshed when it fails the check and is otherwise
    cached and its access token returned.  Otherwise a token that is
    absent or fails the check is refreshed, and a token that passes is
    returned at once: the world is unchanged and nothing is called.
    Where a refresh is performed, the caller gets the promise of the
    refresh in flight, with nothing called, or, when there is none,
    [getTokensJWTGrant] is called with the type and id of the session and
    the options of the call, the new promise becomes the marked one and
    the caller gets it.  The check passes exactly when
    [now < expiresAt - buffer]. *)
Theorem getAccessToken_algorithm now options w :
  let s := session w in
  let buffer := Z.max (expiredBufferMS (_config s)) (staleBufferMS (_config s)) in
  let call := getAccessToken spec_isAccessTokenValid now options w in
  let refresh := λ (v : World) (r : Handle * World * list Action),
    match _refreshPromise (session v) with
    | Some p => r = (Follows p, v, [])
    | None =>
      result r = Follows (promiseSupply v)
      ∧ actions r = [GrantCall (_type (session v)) (_id (session v)) options]
      ∧ _refreshPromise (session (state r)) = Some (promiseSupply v)
      ∧ chains (state r) = <[promiseSupply v := Granting]> (chains v)
      ∧ promiseSupply (state r) = S (promiseSupply v)
      ∧ _tokenInfo (session (state r)) = _tokenInfo (session v)
      ∧ handles (state r) = handles v
      ∧ settled (state r) = settled v
    end in
  (_tokenInfo s = None → _tokenStore s = true →
     call = (Reading options, w, [StoreRead]))
  ∧ (∀ now' w',
       _config (session w') = _config s →
       (∀ stored,
          spec_isAccessTokenValid now' stored buffer = false →
          refresh w' (getAccessToken_read spec_isAccessTokenValid now' options stored w'))
       ∧ (∀ t,
            spec_isAccessTokenValid now' (Some t) buffer = true →
            getAccessToken_read spec_isAccessTokenValid now' options (Some t) w'
            = (Value (accessToken t), set_tokenInfo (Some t) w', [])))
  ∧ (_tokenInfo s = None → _tokenStore s = false → refresh w call)
  ∧ (∀ t, _tokenInfo s = Some t →
       spec_isAccessTokenValid now (Some t) buffer = false →
       refresh w call)
  ∧ (∀ t, _tokenInfo s = Some t →
       spec_isAccessTokenValid now (Some t) buffer = true →
       call = (Value (accessToken t), w, [])
       ∧ grantCalls (actions call) = 0%nat ∧ storeWrites (actions call) = [])
  ∧ (∀ t b, spec_isAccessTokenValid now (Some t) b = true ↔ now < expiresAt t - b)
  ∧ (∀ b, spec_isAccessTokenValid now None b = false).
Proof.
  intros s buffer call refresh.
  assert (Hrefresh : ∀ v, refresh v (refreshed options v)).
  { intros v. subst refresh. cbv beta. rewrite refreshed_eq.
    destruct (_refreshPromise (session v)); [done|]. by cbn. }
  subst call. rewrite getAccessToken_eq. cbv zeta. fold s buffer.
  split; [|split; [|split; [|split; [|split; [|split]]]]].
  - by intros -> ->.
  - intros now' w' Hcfg. split.
    + intros stored Hv. rewrite getAccessToken_read_eq. cbv zeta.
      rewrite Hcfg. fold buffer. rewrite Hv. apply Hrefresh.
    + intros t Hv. rewrite getAccessToken_read_eq. cbv zeta.
      rewrite Hcfg. fold buffer. by rewrite Hv.
  - intros -> ->. apply Hrefresh.
  - intros t -> ->. apply Hrefresh.
  - intros t -> ->. done.
  - intros t b. cbn. apply Z.ltb_lt.
  - done.
Qed.

(** *** The theorems at sample sessions *)

Lemma refresh_is_coalesced_witness :
  (let calls := [(1%nat, 0, None); (2%nat, 5, None); (3%nat, 9, None)] in
   let r1 := run spec_isAccessTokenValid revokeOk (callInputs calls) (start enterprise) in
   let r2 := run spec_isAccessTokenValid revokeOk
               [IGrant 0 (Resolved token1); IWrite 0 (Resolved tt); IFinally 0] r1.1 in
   grantCalls (r1.2 ++ r2.2) = 1%nat
   ∧ received r2.1 1 = Some (Resolved "T1")
   ∧ received r2.1 2 = Some (Resolved "T1")
   ∧ received r2.1 3 = Some (Resolved "T1")
   ∧ _refreshPromise (session r2.1) = None)
  ∧ (let arrivals := [ICall 1 0 None; ICall 2 5 None;
                      IRead 1 6 (Resolved None); IRead 2 7 (Resolved None)] in
     let r1 := run spec_isAccessTokenValid revokeOk arrivals (start stored) in
     let r2 := run spec_isAccessTokenValid revokeOk
                 [IGrant 0 (Resolved token1); IWrite 0 (Resolved tt); IFinally 0] r1.1 in
     grantCalls (r1.2 ++ r2.2) = 1%nat
     ∧ received r2.1 1 = Some (Resolved "T1")
     ∧ received r2.1 2 = Some (Resolved "T1")).
Proof.
  split.
  - intros calls r1 r2.
    destruct (proj1 (proj2 (proj2 (proj2 (proj2
                (refresh_is_coalesced spec_isAccessTokenValid revokeOk)))))
                (start enterprise) calls (Resolved token1) (Resolved tt))
      as (Hg & _ & Hm & _ & Hr).
    + by apply coherent_start.
    + reflexivity.
    + discriminate.
    + intros x Hx. repeat (apply elem_of_cons in Hx as [->|Hx]; [reflexivity|]).
      by apply elem_of_nil in Hx.
    + split; [exact Hg|].
      split; [exact (Hr (1%nat, 0, None) ltac:(by left))|].
      split; [exact (Hr (2%nat, 5, None) ltac:(by right; left))|].
      split; [exact (Hr (3%nat, 9, None) ltac:(by right; right; left))|].
      exact Hm.
  - intros arrivals r1 r2.
    destruct (proj1 (proj2 (proj2 (proj2 (proj2 (proj2
                (refresh_is_coalesced spec_isAccessTokenValid revokeOk))))))
                (start stored) arrivals (Resolved token1) (Resolved tt))
      as [(Hn & _)|(_ & Hg & _ & _ & _ & Hr)].
    + by apply coherent_start.
    + reflexivity.
    + reflexivity.
    + discriminate Hn.
    + split; [exact Hg|]. split; [exact (Hr 1%nat eq_refl) | exact (Hr 2%nat eq_refl)].
Defined.

(** Claim C1 as stated fails in a session with a token store: caller 2
    calls while refresh 0 is in flight and memory is still empty, so it
    reads the store instead of following the refresh; its read answers
    after the refresh has completed, with no usable token, and starts a
    second grant.  The grant is called twice and the two callers receive
    different access tokens. *)
Lemma late_store_read_starts_second_grant :
  let early := run spec_isAccessTokenValid revokeOk
                 [ICall 1 0 None; IRead 1 1 (Resolved None)] (start stored) in
  let r := run spec_isAccessTokenValid revokeOk
             [ICall 1 0 None; IRead 1 1 (Resolved None);
              ICall 2 2 None;
              IGrant 0 (Resolved token1); IWrite 0 (Resolved tt); IFinally 0;
              IRead 2 3 (Resolved None);
              IGrant 1 (Resolved token2); IWrite 1 (Resolved tt); IFinally 1]
             (start stored) in
  _refreshPromise (session early.1) = Some 0%nat
  ∧ _tokenInfo (session early.1) = None
  ∧ actions (handle spec_isAccessTokenValid revokeOk (ICall 2 2 None) early.1) = [StoreRead]
  ∧ grantCalls r.2 = 2%nat
  ∧ received r.1 1 = Some (Resolved "T1")
  ∧ received r.1 2 = Some (Resolved "T2")
  ∧ received r.1 1 ≠ received r.1 2.
Proof. vm_compute. repeat split. discriminate. Qed.

Lemma getAccessToken_algorithm_witness :
  getAccessToken spec_isAccessTokenValid 0 None (start cached)
  = (Value "T1", start cached, [])
  ∧ actions (getAccessToken spec_isAccessTokenValid 3000000 None (start cached))
    = [GrantCall "enterprise" "12345" None]
  ∧ _refreshPromise (session (state (getAccessToken spec_isAccessTokenValid 3000000 None
                                       (start cached))))
    = Some 0%nat.
Proof.
  destruct (getAccessToken_algorithm 0 None (start cached)) as (_ & _ & _ & _ & Hv & _).
  destruct (getAccessToken_algorithm 3000000 None (start cached)) as (_ & _ & _ & Hr & _).
  split; [exact (proj1 (Hv token1 eq_refl eq_refl))|].
  destruct (Hr token1 eq_refl eq_refl) as (_ & Ha & Hm & _).
  split; [exact Ha | exact Hm].
Defined.

Lemma expired_tokens_error_clears_store_witness :
  handleExpiredTokensError expiredErr (start stored) = (Clearing, start stored, [StoreClear])
  ∧ handleExpiredTokensError expiredErr (start enterprise)
    = (Settles (Resolved expiredErr), start enterprise, [])
  ∧ handleExpiredTokensError_cleared expiredErr (Rejected storeErr) = Rejected storeErr.
Proof.
  split; [|split].
  - exact (proj1 (proj2 (expired_tokens_error_clears_store expiredErr (start stored))) eq_refl).
  - exact (proj1 (expired_tokens_error_clears_store expiredErr (start enterprise)) eq_refl).
  - exact (proj2 (proj2 (proj2 (expired_tokens_error_clears_store expiredErr (start stored))))
             storeErr).
Defined.

Lemma revoke_without_token_witness :
  _tokenInfo (session (start enterprise)) = None
  ∧ actions (revokeTokens revokeOk None (start enterprise)) = [RevokeCall None None].
Proof.
  split; [reflexivity|].
  exact (proj1 (proj2 (revoke_without_token revokeOk None (start enterprise) eq_refl))).
Defined.


End AppAuthSessionFacts.

(* ================================================================== *)
(** ** EventStream: the cycle over whole runs *)
(* ================================================================== *)

Module EventStreamMore.
Import EventStream EventStreamFacts.

Section More.
Variable qs_parse : string → Query.

Lemma catching_quiet body handler s :
  (∀ e, result (body s) ≠ Thrown e) → catching body handler s = body s.
Proof.
  intros H. rewrite catching_eq. destruct (result (body s)) eqn:Hr; try done.
  by destruct (H e).
Qed.

Lemma fetchEvents_eq s :
  fetchEvents s =
  if destroyed s then (Fulfilled (Some false), s, [])
  else (Awaiting, s, [AwaitRateLimiter (_rateLimiter s) (_streamPosition s) 500]).
Proof. unfold fetchEvents. prog_step. by destruct (destroyed s). Qed.

Lemma control_limited s : control (limited s) = control s.
Proof. done. Qed.

Lemma control_delivered next batch s : control (delivered next batch s) = control s.
Proof. unfold delivered. by destruct (paused s). Qed.

Lemma control_cleanup latest s : control (state (cleanupDedupFilter latest s)) = control s.
Proof. done. Qed.

Lemma filter_Push (f : Action → bool) evs :
  (∀ e, f (Push e) = false) → List.filter f (Push <$> evs) = [].
Proof. intros Hf. induction evs as [|e evs IH]; cbn; [done|]. by rewrite Hf. Qed.

Lemma filter_emits (f : Action → bool) n e :
  f (EmitError e) = false → List.filter f (replicate n (EmitError e)) = [].
Proof. intros Hf. induction n as [|n IH]; cbn; [done|]. by rewrite Hf. Qed.

Lemma scheduled_emits n e : scheduled (replicate n (EmitError e)) = [].
Proof. by induction n. Qed.

Lemma emittedErrors_emits n e : emittedErrors (replicate n (EmitError e)) = replicate n e.
Proof. induction n as [|n IH]; cbn; [done|]. by f_equal. Qed.

Lemma scheduled_app a b : scheduled (a ++ b) = scheduled a ++ scheduled b.
Proof. apply omap_app. Qed.

Lemma emittedErrors_app a b : emittedErrors (a ++ b) = emittedErrors a ++ emittedErrors b.
Proof. apply omap_app. Qed.

(** Every way a failed discovery can go: the error is emitted once or
    more, and then the retry is scheduled or it is not. *)
Lemma handle_discovery_failed_shape outer err s :
  ∃ n c (retry : bool),
    handle qs_parse (ILongPollInfo outer (Rejected err)) s
    = (c, (if retry then state (retryPollInfo s) else s),
       replicate (S n) (EmitError err)
         ++ (if retry then actions (retryPollInfo s) else [])).
Proof.
  rewrite handle_discovery_failed. destruct (listening s).
  - destruct (authExpired err).
    + by exists 0%nat, (Fulfilled None), false.
    + by exists 0%nat, (Fulfilled None), true.
  - destruct (rejects_shape outer err s) as [n [-> | [-> | ->]]].
    + exists n, (Thrown err), false. cbn. by rewrite app_nil_r.
    + exists n, (Fulfilled None), false. cbn. by rewrite app_nil_r.
    + by exists n, (Fulfilled None), true.
Qed.

Ltac split_ifs :=
  repeat match goal with
         | |- context [if ?b then _ else _] => destruct b eqn:?
         | |- context [match ?o with Some _ => _ | None => _ end] => destruct o eqn:?
         end.

Ltac step_eqs :=
  rewrite ?handle_read, ?handle_destroy, ?handle_discovered, ?handle_fetch_failed,
    ?handle_listen;
  cbn [handle]; unfold fetchEvents_limited;
  rewrite ?doLongPoll_then_eq, ?doLongPoll_catch_eq, ?destroy_eq, ?settles_polled;
  rewrite ?doLongPoll_eq, ?getLongPollInfo_eq, ?retryPollInfo_eq.

Lemma destroyed_step i s :
  destroyed s = true →
  destroyed (state (handle qs_parse i s)) = true
  ∧ List.filter keepsPolling (actions (handle qs_parse i s)) = [].
Proof.
  intros Hd.
  destruct i as [| |outer [info|err]|[data|err]|pos limit|[events|err]| |on];
    try (step_eqs; cbn; rewrite ?Hd; by split_ifs).
  - destruct (handle_discovery_failed_shape outer err s) as (n & c & retry & ->).
    cbn [state actions fst snd]. rewrite retryPollInfo_eq, Hd.
    rewrite List.filter_app, filter_emits by done. by destruct retry.
  - destruct (handle_fetched_cases qs_parse events s)
      as [(s1 & Hs1 & ->)|(es & next & _ & _ & _ & ->)].
    + assert (Hd1 : destroyed s1 = true) by (by destruct Hs1 as [->|[n ->]]).
      rewrite settles_polled, Hd1. done.
    + cbn [state actions fst snd]. split.
      * assert (H : ∀ s', control s' = control s → destroyed s' = true)
          by (intros s' Hc; unfold control in Hc; congruence).
        destruct (_ >=? _); apply H; by rewrite ?control_cleanup, control_delivered.
      * cbn. rewrite List.filter_app, filter_Push by done. by destruct (paused s).
Qed.


(** X1.  Once the stream is destroyed it stays destroyed, and whatever
    arrives afterwards it schedules no retry timer and issues neither a
    discovery nor a long-poll request. *)
Theorem destroyed_stream_stops_polling inputs : ∀ s,
  destroyed s = true →
  destroyed (run qs_parse inputs s).1 = true
  ∧ List.filter keepsPolling (run qs_parse inputs s).2 = [].
Proof.
  induction inputs as [|i inputs IH]; intros s Hd; [done|].
  cbn [run fst snd]. destruct (destroyed_step i s Hd) as [Hd' Hq].
  destruct (IH _ Hd') as [Hd'' Hq'].
  split; [done|]. by rewrite List.filter_app, Hq, Hq'.
Qed.

Lemma timer_step i s :
  i ≠ IDestroy →
  let r := handle qs_parse i s in
  _options (state r) = _options s
  ∧ destroyed (state r) = destroyed s
  ∧ ((scheduled (actions r) = []
      ∧ timerSupply (state r) = timerSupply s
      ∧ _retryTimer (state r) = _retryTimer s)
     ∨ (scheduled (actions r) = [(timerSupply s, retryDelay (_options s))]
        ∧ timerSupply (state r) = S (timerSupply s)
        ∧ _retryTimer (state r) = Some (timerSupply s))).
Proof.
  intros Hi. cbv zeta.
  destruct i as [| |outer [info|err]|[data|err]|pos limit|[events|err]| |on];
    try done;
    try (step_eqs; cbn; split_ifs; cbn; by auto 10).
  - destruct (handle_discovery_failed_shape outer err s) as (n & c & retry & ->).
    cbn [state actions fst snd]. rewrite retryPollInfo_eq, scheduled_app, scheduled_emits.
    destruct retry, (destroyed s) eqn:Hd; cbn; auto 10.
  - destruct (handle_fetched_cases qs_parse events s)
      as [(s1 & Hs1 & ->)|(es & next & _ & _ & _ & ->)].
    + assert (Hc : control s1 = control s) by (by destruct Hs1 as [->|[n ->]]).
      unfold control in Hc. injection Hc as Hd Ho Ht Hts Hin Hr Hl.
      rewrite <- Ho, <- Hd, <- Ht, <- Hts.
      step_eqs. cbn. split_ifs; cbn; by auto 10.
    + cbn [state actions fst snd].
      assert (H : ∀ s', control s' = control s →
                  _options s' = _options s ∧ destroyed s' = destroyed s
                  ∧ timerSupply s' = timerSupply s ∧ _retryTimer s' = _retryTimer s)
        by (intros s' Hc; unfold control in Hc; by injection Hc as -> -> -> -> _ _ _).
      assert (Hs : scheduled (Pause :: (Push <$> fresh (_dedupHash s) es)
                     ++ (if paused s then [] else [Resume])) = []).
      { unfold scheduled. cbn. rewrite omap_app.
        assert (Hp : ∀ l, omap (λ a, match a with SetTimeout h d => Some (h, d) | _ => None end)
                            (Push <$> l) = []) by (induction l; by cbn).
        rewrite Hp. by destruct (paused s). }
      rewrite Hs.
      destruct (_ >=? _);
        [destruct (H (state (cleanupDedupFilter es (delivered next (fresh (_dedupHash s) es) s))))
           as (? & ? & ? & ?); [by rewrite control_cleanup, control_delivered|]
        |destruct (H (delivered next (fresh (_dedupHash s) es) s))
           as (? & ? & ? & ?); [by rewrite control_delivered|]];
        auto 10.
Qed.

Lemma timer_run inputs : ∀ s,
  IDestroy ∉ inputs →
  let r := run qs_parse inputs s in
  _options r.1 = _options s
  ∧ destroyed r.1 = destroyed s
  ∧ scheduled r.2
    = (λ h, (h, retryDelay (_options s)))
        <$> seq (timerSupply s) (List.length (scheduled r.2))
  ∧ timerSupply r.1 = (timerSupply s + List.length (scheduled r.2))%nat
  ∧ _retryTimer r.1
    = match last (scheduled r.2) with
      | Some (h, _) => Some h
      | None => _retryTimer s
      end.
Proof.
  induction inputs as [|i inputs IH]; intros s Hn; cbv zeta.
  - cbn. repeat split; lia.
  - apply not_elem_of_cons in Hn as [Hi Hn]. cbn [run fst snd].
    destruct (timer_step i s) as (Ho & Hd & Hcase); [done|]. cbv zeta in Ho, Hd, Hcase.
    specialize (IH (state (handle qs_parse i s)) Hn). cbv zeta in IH.
    destruct IH as (Ho' & Hd' & Hs' & Hts' & Ht').
    rewrite scheduled_app.
    destruct Hcase as [(Hs & Hts & Ht)|(Hs & Hts & Ht)]; rewrite Hs.
    + cbn [app]. rewrite Ho', Hd', Ho, Hd, Hts', Ht', Hts, Ht.
      repeat split; try done. rewrite Ho, Hts in Hs'. exact Hs'.
    + cbn [app List.length]. rewrite Ho', Hd', Ho, Hd, Hts', Ht', Hts, Ht.
      repeat split; try done.
      * cbn [seq fmap list_fmap]. f_equal. rewrite Ho, Hts in Hs'. exact Hs'.
      * lia.
      * destruct (scheduled _) as [|[h d] l] eqn:Hl; [done|].
        rewrite last_cons_cons.
        destruct (last ((h, d) :: l)) as [[h' d']|] eqn:Hlast; [done|].
        by apply last_None in Hlast.
Qed.

(** X2.  In a stream that has not been destroyed, [_retryTimer] holds
    the handle of the retry timer scheduled last; [destroy()] cancels
    that timer, forgets it and marks the stream destroyed, and a second
    [destroy()] changes nothing and logs nothing.  The timers are all
    scheduled with [retryDelay] and with fresh handles. *)
Theorem destroy_cancels_latest_timer inputs s :
  destroyed s = false →
  IDestroy ∉ inputs →
  let r := run qs_parse inputs s in
  let d := destroy r.1 in
  actions d = [EmitCloseNextTick; ClearTimeout (_retryTimer r.1)]
  ∧ _retryTimer r.1
    = match last (scheduled r.2) with
      | Some (h, _) => Some h
      | None => _retryTimer s
      end
  ∧ scheduled r.2
    = (λ h, (h, retryDelay (_options s)))
        <$> seq (timerSupply s) (List.length (scheduled r.2))
  ∧ _retryTimer (state d) = None
  ∧ destroyed (state d) = true
  ∧ destroy (state d) = (tt, state d, []).
Proof.
  intros Hd Hn r d. destruct (timer_run inputs s Hn) as (_ & Hd' & Hs & _ & Ht).
  cbv zeta in *. fold r in Hd', Hs, Ht. subst d.
  rewrite destroy_eq, Hd', Hd. cbn [actions state fst snd].
  by repeat split.
Qed.



Lemma retryPollInfo_keeps s :
  _longPollInfo (state (retryPollInfo s)) = _longPollInfo s
  ∧ _longPollRetries (state (retryPollInfo s)) = _longPollRetries s.
Proof. rewrite retryPollInfo_eq. by destruct (destroyed s). Qed.






Lemma info_step i s :
  is_Some (_longPollInfo s) → is_Some (_longPollInfo (state (handle qs_parse i s))).
Proof.
  intros [info0 Hi0].
  destruct i as [| |outer [info|err]|[data|err]|pos limit|[events|err]| |on];
    try (step_eqs; cbn; rewrite ?Hi0; split_ifs; cbn; rewrite ?Hi0; by eauto).
  - destruct (handle_discovery_failed_shape outer err s) as (n & c & retry & ->).
    cbn [state fst snd]. destruct retry; [|by eauto].
    destruct (retryPollInfo_keeps s) as [-> _]. by eauto.
  - destruct (handle_fetched_cases qs_parse events s)
      as [(s1 & Hs1 & ->)|(es & next & _ & _ & _ & ->)].
    + assert (Hc : control s1 = control s) by (by destruct Hs1 as [->|[n ->]]).
      unfold control in Hc. injection Hc as Hd Ho Ht Hts Hin Hr Hl.
      rewrite settles_polled, doLongPoll_eq, Hin, Hi0.
      split_ifs; cbn; rewrite ?Hin, ?Hi0; by eauto.
    + cbn [state fst snd].
      assert (H : ∀ s', control s' = control s → is_Some (_longPollInfo s')).
      { intros s' Hc. unfold control in Hc. injection Hc as _ _ _ _ -> _ _. by eexists. }
      destruct (_ >=? _); apply H; by rewrite ?control_cleanup, control_delivered.
Qed.

Lemma listening_step i s :
  listening (state (handle qs_parse i s))
  = match i with IListen on => on | _ => listening s end.
Proof.
  destruct i as [| |outer [info|err]|[data|err]|pos limit|[events|err]| |on];
    try (step_eqs; cbn; split_ifs; cbn; by eauto).
  - destruct (handle_discovery_failed_shape outer err s) as (n & c & retry & ->).
    cbn [state fst snd]. destruct retry; [apply retryPollInfo_listening | done].
  - destruct (handle_fetched_cases qs_parse events s)
      as [(s1 & Hs1 & ->)|(es & next & _ & _ & _ & ->)].
    + assert (Hc : control s1 = control s) by (by destruct Hs1 as [->|[n ->]]).
      unfold control in Hc. injection Hc as Hd Ho Ht Hts Hin Hr Hl.
      rewrite <- Hl. step_eqs. split_ifs; by cbn.
    + cbn [state fst snd].
      assert (H : ∀ s', control s' = control s → listening s' = listening s).
      { intros s' Hc. unfold control in Hc. by injection Hc as _ _ _ _ _ _ ->. }
      destruct (_ >=? _); apply H; by rewrite ?control_cleanup, control_delivered.
Qed.

Lemma emittedErrors_batch (batch : list Event) (tail : list Action) :
  emittedErrors (Pause :: (Push <$> batch) ++ tail) = emittedErrors tail.
Proof.
  unfold emittedErrors. cbn. rewrite omap_app.
  assert (Hp : ∀ l, omap (λ a, match a with EmitError e => Some e | _ => None end)
                      (Push <$> l) = []) by (induction l; by cbn).
  by rewrite Hp.
Qed.

(** With a listener, a step emits the error its input carries, once. *)
Lemma errors_step i s :
  is_Some (_longPollInfo s) →
  listening s = true →
  emittedErrors (actions (handle qs_parse i s))
  = match error_of i with Some e => [e] | None => [] end.
Proof.
  intros [info0 Hi0] Hl.
  destruct i as [| |outer [info|err]|[data|err]|pos limit|[events|err]| |on];
    try (step_eqs; cbn; rewrite ?Hi0; split_ifs; cbn; rewrite ?Hi0; by eauto).
  - rewrite handle_discovery_failed, Hl, retryPollInfo_eq. cbn.
    by destruct (authExpired err), (destroyed s).
  - cbn [error_of].
    destruct (handle_fetched_cases qs_parse events s)
      as [(s1 & Hs1 & ->)|(es & next & _ & _ & _ & ->)].
    + assert (Hc : control s1 = control s) by (by destruct Hs1 as [->|[n ->]]).
      unfold control in Hc. injection Hc as Hd Ho Ht Hts Hin Hr Hl'.
      rewrite settles_polled, doLongPoll_eq, Hin, Hi0. split_ifs; by cbn.
    + cbn [actions snd]. rewrite emittedErrors_batch. by destruct (paused s).
Qed.

(** Listener or not, a step emits nothing but the error its input
    carries. *)
Lemma errors_sound_step i s e :
  is_Some (_longPollInfo s) →
  e ∈ emittedErrors (actions (handle qs_parse i s)) → error_of i = Some e.
Proof.
  intros [info0 Hi0].
  destruct i as [| |outer [info|err]|[data|err]|pos limit|[events|err]| |on];
    try (step_eqs; cbn; rewrite ?Hi0; split_ifs; cbn; rewrite ?Hi0;
         try (by intros ?%elem_of_nil);
         by intros [->|?%elem_of_nil]%elem_of_cons).
  - destruct (handle_discovery_failed_shape outer err s) as (n & c & retry & ->).
    cbn [actions snd error_of]. rewrite emittedErrors_app, emittedErrors_emits.
    assert (Hr : emittedErrors (if retry then actions (retryPollInfo s) else []) = []).
    { destruct retry; [|done]. rewrite retryPollInfo_eq. by destruct (destroyed s). }
    rewrite Hr, app_nil_r. by intros [-> _]%elem_of_replicate.
  - cbn [error_of].
    destruct (handle_fetched_cases qs_parse events s)
      as [(s1 & Hs1 & ->)|(es & next & _ & _ & _ & ->)].
    + assert (Hc : control s1 = control s) by (by destruct Hs1 as [->|[n ->]]).
      unfold control in Hc. injection Hc as Hd Ho Ht Hts Hin Hr Hl'.
      rewrite settles_polled, doLongPoll_eq, Hin, Hi0.
      split_ifs; cbn; by intros ?%elem_of_nil.
    + cbn [actions snd]. rewrite emittedErrors_batch.
      destruct (paused s); cbn; by intros ?%elem_of_nil.
Qed.

(** X4.  Over any run of a stream that has its long-poll info and whose
    consumer keeps listening for ['error'], [emit] is called exactly with
    the errors of the failed discovery and failed fetch requests, once
    each, in the order they arrived: a failed wait, an unexpected
    long-poll message or a malformed fetch response emits nothing,
    destroyed or not.  Listener or not, nothing else is ever emitted; but
    with no listener an error is emitted again by every handler it
    passes on its way out: twice when the discovery was started by the
    callback of a fetch. *)
Theorem emitted_errors_are_request_failures :
  (∀ inputs s,
     is_Some (_longPollInfo s) →
     listening s = true →
     existsb unlistens inputs = false →
     emittedErrors (run qs_parse inputs s).2 = omap error_of inputs)
  ∧ (∀ inputs s e,
       is_Some (_longPollInfo s) →
       e ∈ emittedErrors (run qs_parse inputs s).2 →
       Some e ∈ error_of <$> inputs)
  ∧ (∀ err s,
       listening s = false →
       emittedErrors
         (actions (handle qs_parse
                     (ILongPollInfo [OfFetchEvents; OfDoLongPoll] (Rejected err)) s))
       = [err; err]).
Proof.
  split; [|split].
  - induction inputs as [|i inputs IH]; intros s Hs Hl Hu; [done|].
    cbn [existsb] in Hu. apply orb_false_iff in Hu as [Hi Hu].
    cbn [run snd]. rewrite emittedErrors_app, errors_step by done.
    rewrite IH; [cbn; by destruct (error_of i) | by apply info_step | | done].
    rewrite listening_step. destruct i as [| |? ?|?|? ?|?| |[|]]; done.
  - induction inputs as [|i inputs IH]; intros s e Hs; [by intros ?%elem_of_nil|].
    cbn [run snd]. rewrite emittedErrors_app. intros [Hin|Hin]%elem_of_app.
    + apply errors_sound_step in Hin; [|done]. rewrite fmap_cons, Hin. by left.
    + rewrite fmap_cons. right. apply (IH (state (handle qs_parse i s))); [|done].
      by apply info_step.
  - intros err s Hl. rewrite handle_discovery_failed, Hl.
    rewrite !rejects_cons, Hl, doLongPoll_catch_eq, retryPollInfo_eq.
    by destruct (destroyed s).
Qed.

Lemma limiter_step i s :
  _options (state (handle qs_parse i s)) = _options s
  ∧ _rateLimiter (state (handle qs_parse i s))
    = if isResponse i then RL_delay (fetchInterval (_options s)) else _rateLimiter s.
Proof.
  destruct i as [| |outer [info|err]|[data|err]|pos limit|[events|err]| |on];
    try (step_eqs; cbn; split_ifs; cbn; by eauto).
  - destruct (handle_discovery_failed_shape outer err s) as (n & c & retry & ->).
    cbn [state fst snd isResponse]. rewrite retryPollInfo_eq.
    by destruct retry, (destroyed s).
  - cbn [isResponse].
    destruct (handle_fetched_cases qs_parse events s)
      as [(s1 & Hs1 & ->)|(es & next & _ & _ & _ & ->)].
    + rewrite settles_polled, doLongPoll_eq, retryPollInfo_eq.
      destruct Hs1 as [->|[n ->]]; cbn; split_ifs; cbn; by eauto.
    + cbn [state fst snd]. unfold delivered, limited.
      destruct (_ >=? _), (paused s); by cbn.
Qed.

(** X5.  Every fetch response that arrives, well-formed or not, resets
    the rate limiter to a delay of [fetchInterval]; nothing else touches
    it, in particular not a failed fetch. *)
Theorem rate_limiter_reset_by_responses inputs : ∀ s,
  _rateLimiter (run qs_parse inputs s).1
  = if existsb isResponse inputs then RL_delay (fetchInterval (_options s))
    else _rateLimiter s.
Proof.
  induction inputs as [|i inputs IH]; intros s; [done|].
  cbn [run fst existsb]. rewrite IH. destruct (limiter_step i s) as [-> ->].
  by destruct (isResponse i), (existsb isResponse inputs).
Qed.

Lemma paused_step i s : paused (state (handle qs_parse i s)) = paused s.
Proof.
  destruct i as [| |outer [info|err]|[data|err]|pos limit|[events|err]| |on];
    try (step_eqs; cbn; split_ifs; cbn; by eauto).
  - destruct (handle_discovery_failed_shape outer err s) as (n & c & retry & ->).
    cbn [state fst snd]. rewrite retryPollInfo_eq. by destruct retry, (destroyed s).
  - destruct (handle_fetched_cases qs_parse events s)
      as [(s1 & Hs1 & ->)|(es & next & _ & _ & _ & ->)].
    + rewrite settles_polled, doLongPoll_eq, retryPollInfo_eq.
      destruct Hs1 as [->|[n ->]]; cbn; split_ifs; cbn; by eauto.
    + cbn [state fst snd]. unfold delivered, limited.
      destruct (_ >=? _), (paused s); by cbn.
Qed.


Lemma pauses_app a b : pauses (a ++ b) = (pauses a + pauses b)%nat.
Proof. unfold pauses. by rewrite List.filter_app, length_app. Qed.

Lemma resumes_app a b : resumes (a ++ b) = (resumes a + resumes b)%nat.
Proof. unfold resumes. by rewrite List.filter_app, length_app. Qed.

Lemma resumes_step i s :
  resumes (actions (handle qs_parse i s))
  = if paused s then 0%nat else pauses (actions (handle qs_parse i s)).
Proof.
  destruct i as [| |outer [info|err]|[data|err]|pos limit|[events|err]| |on];
    try (step_eqs; cbn; split_ifs; cbn; by eauto).
  - destruct (handle_discovery_failed_shape outer err s) as (n & c & retry & ->).
    cbn [actions snd]. rewrite resumes_app, pauses_app. unfold resumes, pauses.
    rewrite !filter_emits by done. rewrite retryPollInfo_eq.
    by destruct retry, (destroyed s), (paused s).
  - destruct (handle_fetched_cases qs_parse events s)
      as [(s1 & Hs1 & ->)|(es & next & _ & _ & _ & ->)].
    + rewrite settles_polled, doLongPoll_eq, retryPollInfo_eq.
      destruct Hs1 as [->|[n ->]]; cbn; split_ifs; cbn; by eauto.
    + cbn [actions snd].
      change (Pause :: ?l) with ([Pause] ++ l).
      rewrite !resumes_app, !pauses_app. unfold resumes, pauses.
      rewrite !filter_Push by done. by destruct (paused s).
Qed.

(** X6.  The stream leaves the pause state of the Readable as it found
    it: a stream its consumer had paused is never resumed by the feed,
    and otherwise every pause taken to push a batch is undone by one
    resume. *)
Theorem pause_state_restored inputs : ∀ s,
  paused (run qs_parse inputs s).1 = paused s
  ∧ resumes (run qs_parse inputs s).2
    = if paused s then 0%nat else pauses (run qs_parse inputs s).2.
Proof.
  induction inputs as [|i inputs IH]; intros s.
  - cbn. by destruct (paused s).
  - cbn [run fst snd]. destruct (IH (state (handle qs_parse i s))) as [Hp Hr].
    rewrite paused_step in Hp, Hr. split; [done|].
    rewrite resumes_app, pauses_app, Hr, resumes_step. by destruct (paused s).
Qed.

Lemma wait_doLongPoll s u q t :
  ReqGet u q t ∈ actions (doLongPoll qs_parse s) →
  wait_in_force qs_parse (state (doLongPoll qs_parse s)) u q t.
Proof.
  unfold wait_in_force.
  rewrite doLongPoll_eq. destruct (destroyed s) eqn:Hd; [by intros ?%elem_of_nil|].
  destruct (_longPollInfo s) as [info|] eqn:Hi; [|by intros ?%elem_of_nil].
  destruct (_ >? _).
  - intros [?|?%elem_of_nil]%elem_of_cons; done.
  - intros [[= -> -> ->]|?%elem_of_nil]%elem_of_cons; [|done]. cbn.
    split; [apply lookup_insert_eq|]. split; [done|].
    exists info. repeat split; try done. intros k Hk. by rewrite lookup_insert_ne.
Qed.

Lemma retryPollInfo_no_wait s u q t : ReqGet u q t ∉ actions (retryPollInfo s).
Proof.
  rewrite retryPollInfo_eq. destruct (destroyed s); cbn.
  - by intros ?%elem_of_nil.
  - intros [?|?%elem_of_nil]%elem_of_cons; done.
Qed.

Lemma wait_polled s u q t :
  ReqGet u q t
    ∈ actions (settles [OfDoLongPoll]
                 (catching (doLongPoll qs_parse) fetchEvents_catch) s) →
  wait_in_force qs_parse
    (state (settles [OfDoLongPoll] (catching (doLongPoll qs_parse) fetchEvents_catch) s))
    u q t.
Proof.
  rewrite settles_polled. destruct (destroyed s) eqn:Hd; [by intros ?%elem_of_nil|].
  destruct (_longPollInfo s) eqn:Hi; [apply wait_doLongPoll|]. cbn.
  intros [?|H]%elem_of_cons; [done|]. by apply retryPollInfo_no_wait in H.
Qed.

(** X7.  Whenever the stream issues a long-poll wait, the request
    carries the stream position as it stands after that step (so the
    cursor of a fetch response handled in the same step is already in
    it), the URL and timeout of the long-poll info in force, and the
    stream is not destroyed. *)
Theorem wait_carries_current_position i s u q t :
  ReqGet u q t ∈ actions (handle qs_parse i s) →
  wait_in_force qs_parse (state (handle qs_parse i s)) u q t.
Proof.
  destruct i as [| |outer [info|err]|[data|err]|pos limit|[events|err]| |on].
  - rewrite handle_read. destruct (destroyed s); cbn;
      [by intros ?%elem_of_nil | intros [?|?%elem_of_nil]%elem_of_cons; done].
  - rewrite handle_destroy, destroy_eq. destruct (destroyed s); cbn;
      [by intros ?%elem_of_nil|].
    intros [?|[?|?%elem_of_nil]%elem_of_cons]%elem_of_cons; done.
  - rewrite handle_discovered. apply wait_doLongPoll.
  - destruct (handle_discovery_failed_shape outer err s) as (n & c & retry & ->).
    cbn [actions snd]. intros [[? _]%elem_of_replicate|H]%elem_of_app; [done|].
    destruct retry; [by apply retryPollInfo_no_wait in H | by apply elem_of_nil in H].
  - cbn [handle]. rewrite doLongPoll_then_eq.
    destruct (destroyed s) eqn:Hd; [by intros ?%elem_of_nil|].
    case_bool_decide as Hr.
    { rewrite getLongPollInfo_eq, Hd. intros [?|?%elem_of_nil]%elem_of_cons; done. }
    case_bool_decide as Hn.
    { intros [?|?%elem_of_nil]%elem_of_cons; done. }
    destruct (_longPollInfo s); [apply wait_doLongPoll|]. cbn.
    intros H. by apply retryPollInfo_no_wait in H.
  - cbn [handle]. rewrite doLongPoll_catch_eq. cbn.
    intros H. by apply retryPollInfo_no_wait in H.
  - intros [?|?%elem_of_nil]%elem_of_cons; done.
  - destruct (handle_fetched_cases qs_parse events s)
      as [(s1 & Hs1 & ->)|(es & next & _ & _ & _ & ->)].
    + apply wait_polled.
    + cbn [actions snd]. intros [?|H]%elem_of_cons; [done|].
      apply elem_of_app in H as [H|H].
      * apply list_elem_of_fmap in H as (? & ? & ?). done.
      * destruct (paused s); [by apply elem_of_nil in H|].
        apply elem_of_cons in H as [?|?%elem_of_nil]; done.
  - rewrite handle_fetch_failed. cbn.
    intros [?|H]%elem_of_cons; [done|]. by apply retryPollInfo_no_wait in H.
  - cbn [handle]. rewrite getLongPollInfo_eq. destruct (destroyed s); cbn;
      [by intros ?%elem_of_nil | intros [?|?%elem_of_nil]%elem_of_cons; done].
  - by intros ?%elem_of_nil.
Qed.


Lemma fresh_nil_recorded h es e :
  fresh h es = [] → e ∈ es → dedupHit h (event_id e) = true.
Proof.
  unfold fresh. intros Hf He.
  destruct (dedupHit h (event_id e)) eqn:Hd; [done|].
  assert (Hin : List.In e (List.filter (λ event, negb (dedupHit h (event_id event))) es)).
  { apply List.filter_In. split; [by apply list_elem_of_In | by rewrite Hd]. }
  by rewrite Hf in Hin.
Qed.

Lemma elem_of_fresh h es e :
  e ∈ fresh h es ↔ e ∈ es ∧ dedupHit h (event_id e) = false.
Proof. unfold fresh. by rewrite !list_elem_of_In, List.filter_In, negb_true_iff. Qed.

(** Once a batch is marked, the filter catches every entry of the
    response: those of the batch are recorded, the others were caught
    before. *)
Lemma mark_hit (h : gmap string bool) es e :
  e ∈ es → dedupHit (mark h (fresh h es)) (event_id e) = true.
Proof.
  intros He. unfold dedupHit at 1. rewrite mark_fresh_lookup.
  case_decide as Hin; [done|].
  destruct (dedupHit h (event_id e)) eqn:Hd; [exact Hd|].
  destruct Hin. apply list_elem_of_fmap. exists e. split; [done|].
  by apply elem_of_fresh.
Qed.

Lemma dedupHit_recorded (h : gmap string bool) id :
  dedupHit h id = true → inherited id = false → h !! id = Some true.
Proof. unfold dedupHit. destruct (h !! id) as [[|]|]; congruence. Qed.

Lemma catching_dedupHash s :
  _dedupHash (state (catching (doLongPoll qs_parse) fetchEvents_catch s)) = _dedupHash s.
Proof.
  rewrite catching_doLongPoll_eq, doLongPoll_eq, fetchEvents_catch_eq, retryPollInfo_eq.
  split_ifs; by cbn.
Qed.

Lemma entries_hit events s es next e :
  entries events = Some es →
  truthy_cursor (next_stream_position events) = Some next →
  e ∈ es →
  dedupHit (_dedupHash (state (fetchEvents_then qs_parse events s))) (event_id e) = true.
Proof.
  intros He Hn Hin.
  destruct (decide (fresh (_dedupHash s) es = [])) as [Hf|Hf].
  - rewrite (fetchEvents_then_stale _ _ _ es next) by done.
    rewrite catching_dedupHash. cbn. by eapply fresh_nil_recorded.
  - rewrite (fetchEvents_then_batch _ _ _ es next) by done. cbn [state fst snd].
    destruct (_ >=? _).
    + unfold dedupHit. rewrite (cleanupDedupFilter_lookup qs_parse), delivered_dedupHash.
      rewrite decide_True by (apply list_elem_of_fmap; by exists e).
      by apply mark_hit.
    + rewrite delivered_dedupHash. by apply mark_hit.
Qed.

Lemma pushed_fetch_unrecorded events s e :
  e ∈ pushed (actions (fetchEvents_then qs_parse events s)) →
  dedupHit (_dedupHash s) (event_id e) = false.
Proof.
  destruct (fetchEvents_then_cases qs_parse events s)
    as [(s1 & Hs1 & ->)|(es & next & _ & _ & _ & ->)].
  - rewrite quiet_catching_doLongPoll. by intros ?%elem_of_nil.
  - cbn [actions snd]. change (Pause :: ?l) with ([Pause] ++ l).
    rewrite !pushed_app, pushed_Push. cbn.
    replace (pushed (if paused s then [] else [Resume])) with (@nil Event)
      by (by destruct (paused s)).
    rewrite app_nil_r. apply fresh_unrecorded.
Qed.

(** X8.  After a fetch response with an entry list and a usable cursor
    has been handled, the filter catches every entry of that response,
    pruned or not: its id is recorded, or it is the name of an inherited
    property, which is caught without a record; hence the next fetch
    response pushes no event whose id occurred in it. *)
Theorem next_fetch_skips_previous_entries events1 events2 s es1 next1 :
  entries events1 = Some es1 →
  truthy_cursor (next_stream_position events1) = Some next1 →
  let s1 := state (fetchEvents_then qs_parse events1 s) in
  (∀ e, e ∈ es1 → dedupHit (_dedupHash s1) (event_id e) = true)
  ∧ (∀ e, e ∈ es1 → inherited (event_id e) = false →
          _dedupHash s1 !! event_id e = Some true)
  ∧ (∀ e2, e2 ∈ pushed (actions (fetchEvents_then qs_parse events2 s1)) →
           event_id e2 ∉ event_id <$> es1).
Proof.
  intros He Hn s1.
  assert (Hrec : ∀ e, e ∈ es1 → dedupHit (_dedupHash s1) (event_id e) = true)
    by (intros e; by apply (entries_hit events1 s es1 next1)).
  split; [done|]. split.
  - intros e Hin Hi. apply dedupHit_recorded; auto.
  - intros e2 Hp (e1 & Hid & Hin)%list_elem_of_fmap.
    apply pushed_fetch_unrecorded in Hp. apply Hrec in Hin. congruence.
Qed.

Lemma size_list_to_set_le (l : list string) :
  (size (list_to_set l : gset string) ≤ List.length l)%nat.
Proof.
  induction l as [|x l IH]; cbn.
  - by rewrite size_empty.
  - rewrite size_union_alt, size_singleton.
    assert (Hle : (size (list_to_set l ∖ {[x]} : gset string)
                   ≤ size (list_to_set l : gset string))%nat).
    { apply subseteq_size. intros y Hy. by apply elem_of_difference in Hy as [? _]. }
    lia.
Qed.

(** What the marked filter holds for the id of an entry. *)
Lemma mark_entry_lookup (h : gmap string bool) es id :
  id ∈ event_id <$> es →
  mark h (fresh h es) !! id
  = if decide (inherited id = false ∨ is_Some (h !! id)) then Some true else None.
Proof.
  intros (e & -> & He)%list_elem_of_fmap. rewrite mark_fresh_lookup.
  destruct (decide (event_id e ∈ event_id <$> fresh h es)) as [Hin|Hout].
  - apply list_elem_of_fmap in Hin as (e' & Hid & [_ Hhit]%elem_of_fresh).
    rewrite <- Hid in Hhit. unfold dedupHit in Hhit.
    rewrite decide_True; [done|].
    destruct (h !! event_id e); [right; by eexists | by left].
  - assert (Hhit : dedupHit h (event_id e) = true).
    { destruct (dedupHit h (event_id e)) eqn:Hd; [done|]. destruct Hout.
      apply list_elem_of_fmap. exists e. split; [done|]. by apply elem_of_fresh. }
    unfold dedupHit in Hhit. destruct (h !! event_id e) as [b|] eqn:Hl.
    + subst b. rewrite decide_True; [done|]. right. by eexists.
    + rewrite decide_False; [done|]. intros [?|[? ?]]; congruence.
Qed.

(** X9.  When the filter is pruned after a batch, it ends up tracking
    exactly the ids of the fetched entries, each mapped to [true], except
    the ids that are names of inherited properties and were never held:
    those are not recorded.  So it holds at most as many ids as the
    response had entries. *)
Theorem pruned_filter_is_latest_entries events s es next :
  entries events = Some es →
  truthy_cursor (next_stream_position events) = Some next →
  fresh (_dedupHash s) es ≠ [] →
  Z.of_nat (size (mark (_dedupHash s) (fresh (_dedupHash s) es)))
    >= deduplicationFilterSize (_options s) →
  let after := _dedupHash (state (fetchEvents_then qs_parse events s)) in
  (∀ id, after !! id
         = if decide (id ∈ event_id <$> es
                      ∧ (inherited id = false ∨ is_Some (_dedupHash s !! id)))
           then Some true else None)
  ∧ dom after ⊆ list_to_set (event_id <$> es)
  ∧ (∀ e, e ∈ es → inherited (event_id e) = false → event_id e ∈ dom after)
  ∧ (size after ≤ List.length es)%nat.
Proof.
  intros He Hn Hf Hge after.
  assert (Hl : ∀ id, after !! id
                     = if decide (id ∈ event_id <$> es
                                  ∧ (inherited id = false ∨ is_Some (_dedupHash s !! id)))
                       then Some true else None).
  { intros id. subst after. rewrite (fetchEvents_then_batch _ _ _ es next) by done.
    cbn [state fst snd]. rewrite delivered_dedupHash.
    assert (Hb : (Z.of_nat (size (mark (_dedupHash s) (fresh (_dedupHash s) es)))
                    >=? deduplicationFilterSize (_options s)) = true)
      by (apply Z.geb_le; lia).
    rewrite Hb, (cleanupDedupFilter_lookup qs_parse), delivered_dedupHash.
    destruct (decide (id ∈ event_id <$> es)) as [Hin|Hout].
    - rewrite mark_entry_lookup by done.
      destruct (decide (inherited id = false ∨ is_Some (_dedupHash s !! id))) as [Hk|Hk].
      + by rewrite decide_True.
      + rewrite decide_False; [done|]. by intros [_ ?].
    - rewrite decide_False; [done|]. by intros [? _]. }
  assert (Hdom : dom after ⊆ list_to_set (event_id <$> es)).
  { intros id. rewrite elem_of_dom, Hl, elem_of_list_to_set.
    case_decide as Hk; [by destruct Hk | by intros [? ?]]. }
  split; [done|]. split; [done|]. split.
  - intros e Hin Hi. apply elem_of_dom. rewrite Hl, decide_True; [by eexists|].
    split; [|by left]. apply list_elem_of_fmap. by exists e.
  - rewrite <- size_dom. etrans; [by apply subseteq_size|].
    etrans; [apply size_list_to_set_le|]. by rewrite length_fmap.
Qed.


Lemma substring_all s : String.substring 0 (String.length s) s = s.
Proof. induction s as [|c s IH]; cbn; [done | by rewrite IH]. Qed.

Lemma question_mark_prefix b s :
  String.prefix "?" (String b s) = bool_decide (b = "?"%char).
Proof.
  assert (H0 : ∀ s0, String.substring 0 0 s0 = "") by (by intros [|]).
  case_bool_decide as Hb.
  - subst b. apply String.prefix_correct. cbn. by rewrite H0.
  - destruct (String.prefix "?" (String b s)) eqn:Hp; [|done].
    apply String.prefix_correct in Hp. cbn in Hp. by injection Hp.
Qed.

Lemma indexOf_question_mark u : ∀ n,
  indexOf "?" u = Some n →
  String.append (substr_to n u) (String "?" (substr_from (n + 1) u)) = u
  ∧ indexOf "?" (substr_to n u) = None.
Proof.
  unfold indexOf, substr_to, substr_from.
  induction u as [|b u IH]; intros n; [done|].
  cbn [String.index]. rewrite question_mark_prefix.
  case_bool_decide as Hb.
  - intros [= <-]. subst b. cbn. rewrite Nat.sub_0_r, substring_all. done.
  - destruct (String.index 0 "?" u) as [m|] eqn:Hm; [|done].
    intros [= <-]. destruct (IH m eq_refl) as [Happ Hnone].
    cbn [String.substring String.append String.length].
    replace (S (String.length u) - (S m + 1))%nat with (String.length u - (m + 1))%nat by lia.
    replace (S m + 1)%nat with (S (m + 1)) by lia. cbn [String.substring].
    split; [by rewrite <- Happ at 4|].
    cbn [String.index]. rewrite question_mark_prefix, bool_decide_false by done.
    by rewrite Hnone.
Qed.

(** X10.  Cutting the long-poll URL at its first [?] loses nothing: the
    URL the request goes to, a [?] and the string handed to [qs.parse]
    make up the URL again, and the URL the request goes to has no [?]. *)
Theorem splitUrl_lossless u n :
  indexOf "?" u = Some (S n) →
  let rest := substr_from (S n + 1) u in
  String.append (splitUrl qs_parse u).1 (String "?" rest) = u
  ∧ (splitUrl qs_parse u).2 = qs_parse rest
  ∧ indexOf "?" (splitUrl qs_parse u).1 = None.
Proof.
  intros Hi rest. unfold splitUrl. rewrite Hi. cbn [fst snd].
  destruct (indexOf_question_mark u (S n) Hi) as [Happ Hnone]. done.
Qed.

Lemma cleanupDedupFilter_state latest s :
  cleanupDedupFilter latest s
  = (tt, set_dedupHash (_dedupHash (state (cleanupDedupFilter latest s))) s, []).
Proof. done. Qed.

(** X11.  [cleanupDedupFilter] only ever removes ids: it keeps the ids
    that occur in the list it is given, with their values, and removes
    all others, whatever the order of the keys; doing it twice is the same
    as once, an empty list clears the filter, and nothing else of the
    stream changes and nothing is logged. *)
Theorem cleanupDedupFilter_prunes latest s :
  let s' := state (cleanupDedupFilter latest s) in
  _dedupHash s' ⊆ _dedupHash s
  ∧ (∀ id, _dedupHash s' !! id
           = if decide (id ∈ event_id <$> latest) then _dedupHash s !! id else None)
  ∧ cleanupDedupFilter latest s' = (tt, s', [])
  ∧ (latest = [] → _dedupHash s' = ∅)
  ∧ s' = set_dedupHash (_dedupHash s') s
  ∧ actions (cleanupDedupFilter latest s) = [].
Proof.
  intros s'. pose proof (cleanupDedupFilter_lookup qs_parse latest s) as Hl. fold s' in Hl.
  split; [|split; [done|split; [|split; [|done]]]].
  - apply map_subseteq_spec. intros id v. rewrite Hl. by case_decide.
  - rewrite cleanupDedupFilter_state. f_equal. f_equal.
    assert (Heq : _dedupHash (state (cleanupDedupFilter latest s')) = _dedupHash s').
    { apply map_eq. intros id.
      rewrite (cleanupDedupFilter_lookup qs_parse), Hl. by case_decide. }
    rewrite Heq. subst s'. by rewrite (cleanupDedupFilter_state latest s).
  - intros ->. apply map_eq. intros id. rewrite Hl, lookup_empty.
    by rewrite decide_False by by intros ?%elem_of_nil.
Qed.

(** X12.  When a long poll answers [reconnect], the stream re-discovers;
    the info that then arrives replaces the old one and the wait against
    the new URL is the first attempt counted against it. *)
Theorem reconnect_rediscovers s info outer :
  destroyed s = false →
  0 <= max_retries info →
  run qs_parse [ILongPoll (Resolved (mkPollData "reconnect"));
                ILongPollInfo outer (Resolved info)] s
  = (set_longPollRetries 1 (set_longPollInfo (Some info) s),
     [ReqLongPollInfo;
      ReqGet (splitUrl qs_parse (url info)).1
        (<["stream_position" := [_streamPosition s]]> (splitUrl qs_parse (url info)).2)
        (retry_timeout info * 1000)]).
Proof.
  intros Hd Hm. cbn [run]. rewrite handle_discovered. cbn [handle].
  rewrite doLongPoll_then_eq, Hd, bool_decide_true by done.
  rewrite getLongPollInfo_eq, Hd. cbn [state actions fst snd].
  rewrite doLongPoll_eq. cbn.
  rewrite Hd. destruct (0 >? max_retries info) eqn:Hc.
  - rewrite Z.gtb_ltb in Hc. apply Z.ltb_lt in Hc. lia.
  - by destruct s.
Qed.

End More.

(** *** The theorems over runs at sample streams *)

Lemma destroyed_stream_stops_polling_witness :
  destroyed torn = true
  ∧ List.filter keepsPolling
      (run qs_parse_plain
         [ILongPollInfo [] (Rejected timedOut); ILongPoll (Rejected timedOut); ITimer; IRead]
         torn).2 = [].
Proof.
  split; [reflexivity|].
  apply (destroyed_stream_stops_polling qs_parse_plain
           [ILongPollInfo [] (Rejected timedOut); ILongPoll (Rejected timedOut); ITimer; IRead]
           torn).
  reflexivity.
Defined.

Lemma destroy_cancels_latest_timer_witness :
  actions (destroy (run qs_parse_plain
                      [ILongPoll (Rejected timedOut); IEvents (Rejected timedOut)]
                      polling).1)
  = [EmitCloseNextTick; ClearTimeout (Some 1%nat)].
Proof.
  destruct (destroy_cancels_latest_timer qs_parse_plain
              [ILongPoll (Rejected timedOut); IEvents (Rejected timedOut)] polling)
    as (Ha & Ht & _).
  - reflexivity.
  - intros H. repeat (apply elem_of_cons in H as [H|H]; [discriminate H|]).
    by apply elem_of_nil in H.
  - rewrite Ha, Ht. vm_compute. reflexivity.
Defined.

Lemma emitted_errors_are_request_failures_witness :
  emittedErrors (run qs_parse_plain
                   [ILongPoll (Rejected timedOut); IEvents (Rejected timedOut);
                    IEvents (Resolved (mkEvents None None))]
                   polling).2
  = [timedOut]
  ∧ emittedErrors
      (actions (handle qs_parse_plain
                  (ILongPollInfo [OfFetchEvents; OfDoLongPoll] (Rejected timedOut)) unheard))
    = [timedOut; timedOut].
Proof.
  split.
  - rewrite (proj1 (emitted_errors_are_request_failures qs_parse_plain));
      [reflexivity | by eexists | reflexivity | reflexivity].
  - exact (proj2 (proj2 (emitted_errors_are_request_failures qs_parse_plain))
             timedOut unheard eq_refl).
Defined.

Lemma wait_carries_current_position_witness :
  wait_in_force qs_parse_plain
    (state (handle qs_parse_plain
              (IEvents (Resolved (mkEvents (Some []) (Some "200")))) polling))
    "https://rt.box.com/subscribe"
    (<["stream_position" := ["200"]]> (qs_parse_plain "channel=c1&stream_type=all"))
    610000.
Proof.
  apply (wait_carries_current_position qs_parse_plain
           (IEvents (Resolved (mkEvents (Some []) (Some "200")))) polling).
  vm_compute. left.
Defined.

Lemma next_fetch_skips_previous_entries_witness :
  pushed (actions (fetchEvents_then qs_parse_plain
                     (mkEvents (Some [evB; evC]) (Some "300"))
                     (state (fetchEvents_then qs_parse_plain
                               (mkEvents (Some [evA; evB]) (Some "200")) polling))))
  = [evC]
  ∧ event_id evC ∉ event_id <$> [evA; evB].
Proof.
  split; [vm_compute; reflexivity|].
  apply (proj2 (proj2 (next_fetch_skips_previous_entries qs_parse_plain
                  (mkEvents (Some [evA; evB]) (Some "200"))
                  (mkEvents (Some [evB; evC]) (Some "300"))
                  polling [evA; evB] "200" eq_refl eq_refl)) evC).
  vm_compute. left.
Defined.

Lemma pruned_filter_is_latest_entries_witness :
  dom (_dedupHash (state (fetchEvents_then qs_parse_plain
                            (mkEvents (Some [evA; mkEvent "old1" "ITEM_MOVE"]) (Some "200"))
                            crowded)))
  ⊆ list_to_set (event_id <$> [evA; mkEvent "old1" "ITEM_MOVE"]).
Proof.
  apply (pruned_filter_is_latest_entries qs_parse_plain
           (mkEvents (Some [evA; mkEvent "old1" "ITEM_MOVE"]) (Some "200")) crowded
           [evA; mkEvent "old1" "ITEM_MOVE"] "200" eq_refl eq_refl).
  - vm_compute. discriminate.
  - vm_compute. discriminate.
Defined.

Lemma splitUrl_lossless_witness :
  String.append (splitUrl qs_parse_plain (url pollingInfo)).1
    (String "?" "channel=c1&stream_type=all")
  = url pollingInfo.
Proof.
  apply (proj1 (splitUrl_lossless qs_parse_plain (url pollingInfo) 27 eq_refl)).
Defined.

Lemma cleanupDedupFilter_prunes_witness :
  _dedupHash (state (cleanupDedupFilter [] crowded)) = ∅.
Proof.
  exact (proj1 (proj2 (proj2 (proj2 (cleanupDedupFilter_prunes qs_parse_plain [] crowded))))
           eq_refl).
Defined.

Lemma reconnect_rediscovers_witness :
  (run qs_parse_plain
     [ILongPoll (Resolved (mkPollData "reconnect"));
      ILongPollInfo [OfDoLongPoll] (Resolved pollingInfo)]
     polling).2
  = [ReqLongPollInfo;
     ReqGet "https://rt.box.com/subscribe"
       (<["stream_position" := ["100"]]> (qs_parse_plain "channel=c1&stream_type=all"))
       610000].
Proof.
  rewrite (reconnect_rediscovers qs_parse_plain polling pollingInfo [OfDoLongPoll]);
    [vm_compute; reflexivity | reflexivity | discriminate].
Defined.

End EventStreamMore.

(* ================================================================== *)
(** ** AppAuthSession: store, revocation and failures *)
(* ================================================================== *)

Module AppAuthSessionMore.
Import AppAuthSession AppAuthSessionFacts.

Section More.
Variable isAccessTokenValid : Z → option TokenInfo → Z → bool.
Variable tm_revokeTokens : option string → TokenRequestOptions → Outcome unit.

Local Abbreviation handle := (handle isAccessTokenValid tm_revokeTokens).
Local Abbreviation run := (run isAccessTokenValid tm_revokeTokens).

(** X13.  The callback on the store read decides on the stored token
    alone, never on the token in memory: an invalid stored token starts a
    new grant when no refresh is in flight, even if memory holds a token
    by then, and a valid stored token replaces the token in memory. *)
Theorem store_read_ignores_memory w c now options stored :
  handles w !! c = Some (Reading options) →
  (isAccessTokenValid now stored (expirationBuffer (_config (session w))) = false →
   _refreshPromise (session w) = None →
   handle (IRead c now (Resolved stored)) w
   = (tt, set_handles (<[c := Follows (promiseSupply w)]> (handles w)) (refreshing w),
      [GrantCall (_type (session w)) (_id (session w)) options]))
  ∧ (∀ t, stored = Some t →
       isAccessTokenValid now stored (expirationBuffer (_config (session w))) = true →
       handle (IRead c now (Resolved stored)) w
       = (tt, set_handles (<[c := Value (accessToken t)]> (handles w))
                (set_tokenInfo (Some t) w), [])).
Proof.
  intros Hc. split.
  - intros Hv Hp. cbn [AppAuthSession.handle]. prog_step. rewrite Hc.
    rewrite hold_bind, getAccessToken_read_eq. cbv zeta.
    unfold expirationBuffer in Hv. rewrite Hv. by rewrite refreshed_idle.
  - intros t -> Hv. cbn [AppAuthSession.handle]. prog_step. rewrite Hc.
    rewrite hold_bind, getAccessToken_read_eq. cbv zeta.
    unfold expirationBuffer in Hv. by rewrite Hv.
Qed.


Lemma revokeTokens_eq options w :
  revokeTokens tm_revokeTokens options w
  = (tm_revokeTokens (accessToken <$> _tokenInfo (session w)) options,
     set_tokenInfo None w,
     [RevokeCall (accessToken <$> _tokenInfo (session w)) options]).
Proof. unfold revokeTokens. by prog_step. Qed.

(** X14.  [revokeTokens] hands the token manager the access token held
    in memory and clears only the memory: it calls no store method and
    leaves a refresh in flight alone.  So after a revocation a session
    with a store reads the store on the next call and serves a stored
    token that still passes the validity check, without any grant. *)
Theorem revoke_leaves_store_alone w c now now' options options' t :
  _tokenStore (session w) = true →
  isAccessTokenValid now' (Some t) (expirationBuffer (_config (session w))) = true →
  let r := run [IRevoke options; ICall c now options'; IRead c now' (Resolved (Some t))] w in
  r.2 = [RevokeCall (accessToken <$> _tokenInfo (session w)) options; StoreRead]
  ∧ handles r.1 !! c = Some (Value (accessToken t))
  ∧ _tokenInfo (session r.1) = Some t
  ∧ chains r.1 = chains w
  ∧ _refreshPromise (session r.1) = _refreshPromise (session w).
Proof.
  intros Hs Hv. cbn [AppAuthSession.run AppAuthSession.handle].
  rewrite discard_state, discard_actions, revokeTokens_eq. cbn [state actions fst snd].
  rewrite hold_bind, getAccessToken_eq. cbn. rewrite Hs. cbn.
  prog_step. cbn. rewrite lookup_insert_eq.
  rewrite hold_bind, getAccessToken_read_eq. cbn.
  unfold expirationBuffer in Hv. rewrite Hv. cbn.
  rewrite lookup_insert_eq. done.
Qed.


(** X15.  When the grant succeeds but the store write fails, the refresh
    promise rejects with the error of the store, yet the granted token
    stays in memory: the marker is cleared and the next call at a time
    the token is valid returns it without a grant. *)
Theorem failed_store_write_keeps_token w p t e :
  chains w = {[p := Granting]} →
  _tokenStore (session w) = true →
  let r := run [IGrant p (Resolved t); IWrite p (Rejected e); IFinally p] w in
  r.2 = [StoreWrite t]
  ∧ settled r.1 !! p = Some (Rejected e)
  ∧ _tokenInfo (session r.1) = Some t
  ∧ _refreshPromise (session r.1) = None
  ∧ chains r.1 = ∅
  ∧ (∀ now options,
       isAccessTokenValid now (Some t) (expirationBuffer (_config (session w))) = true →
       getAccessToken isAccessTokenValid now options r.1
       = (Value (accessToken t), r.1, [])).
Proof.
  intros Hc Hs. cbn [AppAuthSession.run AppAuthSession.handle].
  rewrite refresh_granted_eq, Hc, lookup_singleton_eq, Hs. cbn [state actions fst snd].
  rewrite refresh_written_eq. cbn. rewrite ?Hc, insert_singleton_eq, lookup_singleton_eq.
  cbn [state actions fst snd]. rewrite refresh_finally_eq. cbn.
  rewrite insert_singleton_eq, lookup_singleton_eq. cbn.
  rewrite delete_singleton_eq, lookup_insert_eq.
  repeat split; try done.
  intros now options Hv. rewrite getAccessToken_eq. cbn.
  unfold expirationBuffer in Hv. by rewrite Hv.
Qed.

(** X16.  A failed grant rejects the refresh promise with the error of
    the grant, writes nothing to the store and leaves the token in memory
    as it was; the marker is cleared, so the next call that needs a token
    starts a new grant under a new promise. *)
Theorem failed_grant_can_be_retried w p e c now options :
  coherent w →
  chains w = {[p := Granting]} →
  refreshes isAccessTokenValid (session w) now = true →
  let r := run [IGrant p (Rejected e); IFinally p] w in
  r.2 = []
  ∧ settled r.1 !! p = Some (Rejected e)
  ∧ _tokenInfo (session r.1) = _tokenInfo (session w)
  ∧ _refreshPromise (session r.1) = None
  ∧ actions (handle (ICall c now options) r.1)
    = [GrantCall (_type (session w)) (_id (session w)) options]
  ∧ handles (state (handle (ICall c now options) r.1)) !! c
    = Some (Follows (promiseSupply w))
  ∧ promiseSupply w ≠ p.
Proof.
  intros Hw Hc Hr. cbn [AppAuthSession.run AppAuthSession.handle].
  rewrite refresh_granted_eq, Hc, lookup_singleton_eq. cbn [state actions fst snd].
  rewrite refresh_finally_eq. cbn. rewrite ?Hc, insert_singleton_eq, lookup_singleton_eq.
  cbn. rewrite lookup_insert_eq.
  repeat split; try done.
  - rewrite hold_bind, getAccessToken_refreshes by done. by rewrite refreshed_idle.
  - rewrite hold_bind, getAccessToken_refreshes by done. rewrite refreshed_idle by done.
    cbn. apply lookup_insert_eq.
  - destruct Hw as [_ Hlt _ _]. specialize (Hlt p). rewrite Hc, lookup_singleton_eq in Hlt.
    assert (p < promiseSupply w)%nat by (apply Hlt; by eexists). lia.
Qed.


Lemma refreshed_counts options w :
  promiseSupply (state (refreshed options w))
  = (promiseSupply w + grantCalls (actions (refreshed options w)))%nat
  ∧ storeWrites (actions (refreshed options w)) = [].
Proof.
  unfold refreshed. rewrite _refreshAppAuthAccessToken_eq.
  destruct (_refreshPromise (session w)); cbn; split; (done || lia).
Qed.

Lemma counts_step i w :
  let r := handle i w in
  promiseSupply (state r) = (promiseSupply w + grantCalls (actions r))%nat
  ∧ (∀ t, t ∈ storeWrites (actions r) → granted_token i = Some t).
Proof.
  cbv zeta.
  destruct i as [c now options|c now o|p o|p o|p|options]; cbn [AppAuthSession.handle granted_token].
  - rewrite hold_bind, getAccessToken_eq. cbv zeta.
    destruct (refreshed_counts options w) as [Hp Hs].
    destruct (_tokenInfo (session w)) as [t|].
    + destruct (isAccessTokenValid _ _ _); cbn [state actions fst snd].
      * cbn. repeat split; try lia. by intros t' ?%elem_of_nil.
      * cbn [promiseSupply set_handles]. rewrite Hs. repeat split; try done.
        by intros t' ?%elem_of_nil.
    + destruct (_tokenStore _); cbn [state actions fst snd].
      * cbn. repeat split; try lia. by intros t' ?%elem_of_nil.
      * cbn [promiseSupply set_handles]. rewrite Hs. repeat split; try done.
        by intros t' ?%elem_of_nil.
  - prog_step. destruct (handles w !! c) as [[| | |options]|];
      try (cbn; repeat split; try lia; by intros t' ?%elem_of_nil).
    destruct o as [stored|e].
    + rewrite hold_bind, getAccessToken_read_eq. cbv zeta.
      destruct (refreshed_counts options w) as [Hp Hs].
      destruct (isAccessTokenValid _ _ _).
      * destruct stored; cbn; repeat split; try lia; by intros t' ?%elem_of_nil.
      * cbn [state actions fst snd promiseSupply set_handles]. rewrite Hs.
        repeat split; try done. by intros t' ?%elem_of_nil.
    + cbn. repeat split; try lia. by intros t' ?%elem_of_nil.
  - rewrite refresh_granted_eq.
    destruct (chains w !! p) as [[]|], o as [t|e];
      try (cbn; repeat split; try lia; by intros t' ?%elem_of_nil).
    destruct (_tokenStore _); cbn; repeat split; try lia.
    + by intros t' [->|?%elem_of_nil]%elem_of_cons.
    + by intros t' ?%elem_of_nil.
  - rewrite refresh_written_eq.
    destruct (chains w !! p) as [[]|]; cbn; repeat split; try lia;
      by intros t' ?%elem_of_nil.
  - rewrite refresh_finally_eq.
    destruct (chains w !! p) as [[]|]; cbn; repeat split; try lia;
      by intros t' ?%elem_of_nil.
  - rewrite discard_state, discard_actions, revokeTokens_eq. cbn.
    repeat split; try lia. by intros t' ?%elem_of_nil.
Qed.

Lemma storeWrites_app a b : storeWrites (a ++ b) = storeWrites a ++ storeWrites b.
Proof. apply omap_app. Qed.

(** X17.  Over any run, every refresh promise created stands for exactly
    one call of [getTokensJWTGrant], and the only tokens written to the
    store are tokens a grant resolved with (never a token read from the
    store); the writes appear in the order of those grants. *)
Theorem grants_and_writes_accounted inputs : ∀ w,
  let r := run inputs w in
  promiseSupply r.1 = (promiseSupply w + grantCalls r.2)%nat
  ∧ (∀ t, t ∈ storeWrites r.2 → ∃ p, IGrant p (Resolved t) ∈ inputs)
  ∧ sublist (storeWrites r.2) (omap granted_token inputs).
Proof.
  induction inputs as [|i inputs IH]; intros w; cbv zeta.
  - cbn. split; [lia|]. split; [by intros t ?%elem_of_nil | constructor].
  - cbn [AppAuthSession.run fst snd].
    destruct (counts_step i w) as (Hp & Ht). cbv zeta in Hp, Ht.
    destruct (IH (state (handle i w))) as (Hp' & Ht' & Hsub). cbv zeta in *.
    rewrite grantCalls_app, storeWrites_app. split; [lia|]. split.
    + intros t [Hin|Hin]%elem_of_app.
      * apply Ht in Hin. destruct i as [| |p [t'|]| | |]; try done.
        injection Hin as ->. exists p. by left.
      * destruct (Ht' t Hin) as [p Hp0]. exists p. by right.
    + cbn [omap list_omap].
      destruct (storeWrites (actions (handle i w))) as [|t [|t2 l]] eqn:Hw.
      * cbn. destruct (granted_token i); [by apply sublist_cons | done].
      * rewrite (Ht t) by (by left). cbn. by apply sublist_skip.
      * assert (H1 : granted_token i = Some t) by (apply Ht; by left).
        destruct i as [| |p [t'|]| | |]; try done.
        cbn [AppAuthSession.handle] in Hw. rewrite refresh_granted_eq in Hw.
        destruct (chains w !! p) as [[]|]; try done.
        by destruct (_tokenStore _).
Qed.


(** X18.  In a batch of callers that finds no refresh in flight the one
    grant is called with the type and id of the session and with the
    options of the first caller; the options of the callers that attach
    are not used. *)
Theorem batch_grant_uses_first_options w x calls :
  _refreshPromise (session w) = None →
  (∀ y, y ∈ x :: calls → refreshes isAccessTokenValid (session w) y.1.2 = true) →
  let r := run (callInputs (x :: calls)) w in
  r.2 = [GrantCall (_type (session w)) (_id (session w)) x.2]
  ∧ _tokenInfo (session r.1) = _tokenInfo (session w)
  ∧ (∀ y, y ∈ x :: calls → handles r.1 !! y.1.1 = Some (Follows (promiseSupply w))).
Proof.
  intros Hp Hr. cbn [callInputs fmap list_fmap AppAuthSession.run]. fold (callInputs calls).
  rewrite first_call_refreshes by (done || apply Hr; by left).
  cbn [state actions fst snd].
  rewrite (attach_all _ _ calls _ (promiseSupply w)); [|done|];
    [|intros y Hy; apply (Hr y); by right].
  cbn. repeat split; try done.
  intros y Hy. apply (attached_lookup _ (x :: calls) (handles w) y Hy).
Qed.

(** X20.  The constructor rejects exactly a token store that lacks one
    of [read], [write] and [clear].  A session it returns holds no token
    and no refresh; its first [getAccessToken] reads the store when one
    was given and otherwise calls the grant with the type and id of the
    session: it never answers without asking one of the two. *)
Theorem constructed_session_first_call type id config tokenStore :
  (new type id config tokenStore = None
   ↔ ∃ o, tokenStore = Some o ∧ (has_read o && has_write o && has_clear o) = false)
  ∧ (∀ s now options,
       new type id config tokenStore = Some s →
       coherent (start s)
       ∧ _tokenInfo s = None
       ∧ _refreshPromise s = None
       ∧ _tokenStore s = isObjectValidTokenStore tokenStore
       ∧ getAccessToken isAccessTokenValid now options (start s)
         = if _tokenStore s then (Reading options, start s, [StoreRead])
           else (Follows 0%nat, refreshing (start s), [GrantCall type id options])).
Proof.
  unfold new. split.
  - destruct tokenStore as [o|]; cbn.
    + destruct (has_read o && has_write o && has_clear o) eqn:Hv.
      * split; [done|]. intros (o' & [= <-] & Hf). congruence.
      * split; [|done]. intros _. by exists o.
    + split; [done|]. by intros (o & ? & _).
  - intros s now options Hs.
    destruct tokenStore as [o|]; cbn in Hs.
    + destruct (has_read o && has_write o && has_clear o) eqn:Hv; [|done].
      injection Hs as <-. cbn. rewrite Hv.
      split; [by apply coherent_start|]. repeat split; try done.
    + injection Hs as <-. cbn.
      split; [by apply coherent_start|]. repeat split; try done.
Qed.

End More.

(** *** The theorems on store and failures at sample sessions *)

Lemma store_read_ignores_memory_witness :
  _tokenInfo (session readingWorld) = Some token1
  ∧ spec_isAccessTokenValid 0 (Some token1)
      (expirationBuffer (_config (session readingWorld))) = true
  ∧ actions (handle spec_isAccessTokenValid revokeOk (IRead 1 0 (Resolved None)) readingWorld)
    = [GrantCall "enterprise" "12345" None].
Proof.
  split; [reflexivity|]. split; [reflexivity|].
  rewrite (proj1 (store_read_ignores_memory spec_isAccessTokenValid revokeOk
                    readingWorld 1 0 None None eq_refl) eq_refl eq_refl).
  reflexivity.
Defined.

Lemma revoke_leaves_store_alone_witness :
  (run spec_isAccessTokenValid revokeOk
     [IRevoke None; ICall 1 0 None; IRead 1 5 (Resolved (Some token1))]
     (set_tokenInfo (Some token1) (start stored))).2
  = [RevokeCall (Some "T1") None; StoreRead].
Proof.
  exact (proj1 (revoke_leaves_store_alone spec_isAccessTokenValid revokeOk
                  (set_tokenInfo (Some token1) (start stored)) 1 0 5 None None token1
                  eq_refl eq_refl)).
Defined.

Lemma failed_store_write_keeps_token_witness :
  let r := run spec_isAccessTokenValid revokeOk
             [IGrant 0 (Resolved token1); IWrite 0 (Rejected storeErr); IFinally 0]
             (refreshing (start stored)) in
  settled r.1 !! 0%nat = Some (Rejected storeErr)
  ∧ _tokenInfo (session r.1) = Some token1.
Proof.
  destruct (failed_store_write_keeps_token spec_isAccessTokenValid revokeOk
              (refreshing (start stored)) 0 token1 storeErr)
    as (_ & Hs & Ht & _); [reflexivity | reflexivity |].
  split; [exact Hs | exact Ht].
Defined.

Lemma failed_grant_can_be_retried_witness :
  actions (handle spec_isAccessTokenValid revokeOk (ICall 2 7 None)
             (run spec_isAccessTokenValid revokeOk
                [IGrant 0 (Rejected expiredErr); IFinally 0]
                (refreshing (start enterprise))).1)
  = [GrantCall "enterprise" "12345" None].
Proof.
  destruct (failed_grant_can_be_retried spec_isAccessTokenValid revokeOk
              (refreshing (start enterprise)) 0 expiredErr 2 7 None)
    as (_ & _ & _ & _ & Ha & _).
  - exact (proj1 (coherent_refresh None (start enterprise)
                    (coherent_start enterprise eq_refl))).
  - reflexivity.
  - reflexivity.
  - exact Ha.
Defined.

Lemma grants_and_writes_accounted_witness :
  let r := run spec_isAccessTokenValid revokeOk
             [ICall 1 0 None; ICall 2 3 None; IGrant 0 (Resolved token1); IFinally 0]
             (start enterprise) in
  promiseSupply r.1 = (0 + grantCalls r.2)%nat ∧ grantCalls r.2 = 1%nat.
Proof.
  split; [|reflexivity].
  exact (proj1 (grants_and_writes_accounted spec_isAccessTokenValid revokeOk
                  [ICall 1 0 None; ICall 2 3 None; IGrant 0 (Resolved token1); IFinally 0]
                  (start enterprise))).
Defined.

Lemma batch_grant_uses_first_options_witness :
  (run spec_isAccessTokenValid revokeOk
     (callInputs [(1%nat, 0, Some "10.0.0.1"); (2%nat, 5, Some "10.0.0.2")])
     (start enterprise)).2
  = [GrantCall "enterprise" "12345" (Some "10.0.0.1")].
Proof.
  apply (batch_grant_uses_first_options spec_isAccessTokenValid revokeOk
           (start enterprise) (1%nat, 0, Some "10.0.0.1") [(2%nat, 5, Some "10.0.0.2")]).
  - reflexivity.
  - intros y Hy. repeat (apply elem_of_cons in Hy as [->|Hy]; [reflexivity|]).
    by apply elem_of_nil in Hy.
Defined.

Lemma constructed_session_first_call_witness :
  new "user" "77" (mkConfig 60000 600000) (Some (mkStoreObject true true false)) = None
  ∧ getAccessToken spec_isAccessTokenValid 0 None (start enterprise)
    = (Follows 0%nat, refreshing (start enterprise),
       [GrantCall "enterprise" "12345" None]).
Proof.
  split.
  - apply (proj1 (constructed_session_first_call spec_isAccessTokenValid
                    "user" "77" (mkConfig 60000 600000)
                    (Some (mkStoreObject true true false)))).
    by eexists.
  - exact (proj2 (proj2 (proj2 (proj2
             (proj2 (constructed_session_first_call spec_isAccessTokenValid
                       "enterprise" "12345" (mkConfig 60000 600000) None)
                enterprise 0 None eq_refl))))).
Defined.

End AppAuthSessionMore.
